(** * WIKI security scanner: crawler, page scanner, progress bus and routes

    A shallow embedding of the scan engine of the repository
    (server/web-crawler.ts, server/scan-worker.cjs, the websocket progress
    server, the worker pool and server/routes.ts) together with the
    properties its specification states about it. *)

From Stdlib Require Import ZArith Lia Bool Ascii String List Sorted.
From stdpp Require Import base gmap sets list strings.
Import ListNotations.

Local Open Scope string_scope.
Local Open Scope list_scope.

(** ** JavaScript string primitives used by the sources

    Strings are modelled as the byte strings of their UTF-8 text, on which
    [includes], [startsWith], [endsWith] and equality agree with the
    engine's. *)
Module JsString.

(** [s.toLowerCase()] and [s.toUpperCase()] are the engine's own: they
    follow the Unicode case mappings (the Kelvin sign U+212A lower-cases
    to k, the long s U+017F upper-cases to S), which are not spelled out.
    The sources are verified for every pair of mappings. *)
Class CaseMapping := {
  toLowerCase : string -> string;
  toUpperCase : string -> string
}.

(** [s.startsWith(p)] *)
Fixpoint startsWith (s p : string) : bool :=
  match p, s with
  | EmptyString, _ => true
  | String _ _, EmptyString => false
  | String a p', String b s' => Ascii.eqb a b && startsWith s' p'
  end.

(** [s.includes(p)] *)
Fixpoint includes (s p : string) : bool :=
  startsWith s p ||
  match s with
  | EmptyString => false
  | String _ s' => includes s' p
  end.

(** [s.endsWith(p)] *)
Fixpoint endsWith (s p : string) : bool :=
  String.eqb s p ||
  match s with
  | EmptyString => false
  | String _ s' => endsWith s' p
  end.

(** [s.split(sep)] for a one-character separator: never the empty list. *)
Fixpoint split (sep : ascii) (s : string) : list string :=
  match s with
  | EmptyString => [EmptyString]
  | String c s' =>
      if Ascii.eqb c sep then EmptyString :: split sep s'
      else match split sep s' with
           | [] => [String c EmptyString]
           | w :: ws => String c w :: ws
           end
  end.

(** [parts.slice(-n)] *)
Definition slice_last {A} (n : nat) (parts : list A) : list A :=
  drop (length parts - n) parts.

(** [parts.join(sep)] *)
Definition join (sep : string) (parts : list string) : string :=
  String.concat sep parts.

(** JavaScript truthiness of a possibly missing string attribute. *)
Definition truthy (o : option string) : bool :=
  match o with
  | Some s => negb (String.eqb s "")
  | None => false
  end.

(** [o || d] on a possibly missing string. *)
Definition or_else (o : option string) (d : string) : string :=
  match o with
  | Some s => if String.eqb s "" then d else s
  | None => d
  end.

End JsString.

(** ** server/web-crawler.ts *)
Module Crawler.
Import JsString.

Record CrawlOptions := {
  maxDepth : nat;
  maxPages : nat;
  sameDomainOnly : bool;
  includePatterns : list string;
  excludePatterns : list string;
  relevantKeywords : list string
}.

Definition defaultOptions : CrawlOptions := {|
  maxDepth := 3;
  maxPages := 20;
  sameDomainOnly := false;
  includePatterns :=
    ["dashboard"; "admin"; "settings"; "profile"; "account";
     "home"; "index"; "main"; "login"; "register";
     "users"; "products"; "services"; "pages";
     "api"; "v1"; "v2"; "endpoints"];
  excludePatterns :=
    ["logout"; "signout"; "unsubscribe";
     "delete"; "remove"; "destroy";
     "cdn"; "static"; "assets"; "images";
     "css"; "js"; "jpg"; "png"; "gif"; "pdf"; "zip";
     "facebook.com"; "twitter.com"; "linkedin.com";
     "google.com"; "youtube.com"; "instagram.com"];
  relevantKeywords :=
    ["dashboard"; "admin"; "settings"; "profile"; "account";
     "user"; "login"; "register"; "home"; "main";
     "product"; "service"; "page"; "content"]
|}.

(** The two fields of a WHATWG [URL] object the crawler reads. *)
Record URLObj := { hostname : string; pathname : string }.

(** A form as [extractForms] records it. *)
Record FormInput := {
  input_name : string;
  input_type : option string;
  input_required : bool;
  input_value : string
}.

Record Form := {
  action : string;
  method : string;
  inputs : list FormInput
}.

Record CrawledPage := {
  url : string;
  title : string;
  links : list string;
  forms : list Form;
  depth : nat
}.

(** What [axios.get] followed by [cheerio.load] yields for a page: the
    text of its title, the [href]s of its anchors already resolved against
    the page URL (those [new URL(href, baseUrl)] accepts), and its forms. *)
Record Document := {
  doc_title : string;
  doc_hrefs : list string;
  doc_forms : list Form
}.

(** The mutable fields of a [SmartWebCrawler]. *)
Record State := {
  visitedUrls : gset string;
  crawledPages : list CrawledPage;
  baseDomain : string
}.

Definition initial : State :=
  {| visitedUrls := ∅; crawledPages := []; baseDomain := "" |}.

Definition excludedExtensions : list string :=
  [".css"; ".js"; ".jpg"; ".png"; ".gif"; ".pdf"; ".zip"; ".svg"; ".ico"].

(** [const rootDomain = parts.length > 2 ? parts.slice(-2).join('.') : this.baseDomain] *)
Definition rootDomain (base : string) : string :=
  let parts := split "." base in
  if (2 <? length parts)%nat then join "." (slice_last 2 parts) else base.

(** The host test of [shouldCrawlUrl]: [true] when the URL is kept. *)
Definition hostInScope (options : CrawlOptions) (base host : string) : bool :=
  if sameDomainOnly options
  then String.eqb host base
  else endsWith host (rootDomain base).

(** [[...new Set(links)]]: duplicates removed, first occurrence kept. *)
Fixpoint uniq (l : list string) : list string :=
  match l with
  | [] => []
  | x :: l' => x :: List.filter (fun y => negb (String.eqb y x)) (uniq l')
  end.

Section WithWeb.
(** [new URL(url)]: [None] when the constructor throws. *)
Variable parseURL : string -> option URLObj.
(** [axios.get(url)] and [cheerio.load]: [None] when the request throws. *)
Variable fetch : string -> option Document.
Variable options : CrawlOptions.
Context {engine : CaseMapping}.

Definition shouldCrawlUrl (base : string) (u : string) : bool :=
  match parseURL u with
  | None => false
  | Some urlObj =>
      if negb (hostInScope options base (hostname urlObj)) then false
      else if existsb (fun pattern => includes (toLowerCase u) (toLowerCase pattern))
                      (excludePatterns options) then false
      else
        let path := toLowerCase (pathname urlObj) in
        let matchesInclude :=
          existsb (fun pattern => includes (toLowerCase u) (toLowerCase pattern))
                  (includePatterns options) in
        let isRelevant :=
          existsb (fun keyword => includes path (toLowerCase keyword)
                                  || String.eqb path "/" || String.eqb path "")
                  (relevantKeywords options) in
        if (0 <? length (includePatterns options))%nat
           && negb matchesInclude && negb isRelevant then false
        else if existsb (fun ext => endsWith path ext) excludedExtensions then false
        else true
  end.

Definition extractLinks (st : State) (d : Document) : list string :=
  uniq (List.filter
          (fun absoluteUrl =>
             shouldCrawlUrl (baseDomain st) absoluteUrl
             && negb (bool_decide (absoluteUrl ∈ visitedUrls st)))
          (doc_hrefs d)).

Definition push (p : CrawledPage) (st : State) : State :=
  {| visitedUrls := visitedUrls st;
     crawledPages := crawledPages st ++ [p];
     baseDomain := baseDomain st |}.

Definition visit (u : string) (st : State) : State :=
  {| visitedUrls := {[u]} ∪ visitedUrls st;
     crawledPages := crawledPages st;
     baseDomain := baseDomain st |}.

(** The [for (const link of links)] loop of [crawlPage], over the
    recursive call [rec]. [None] only when [rec] ran out of fuel. *)
Fixpoint crawlLinks (rec : string -> State -> option State)
         (ls : list string) (st : State) : option State :=
  match ls with
  | [] => Some st
  | link :: rest =>
      if (length (crawledPages st) <? maxPages options)%nat
         && negb (bool_decide (link ∈ visitedUrls st))
      then match rec link st with
           | Some st' => crawlLinks rec rest st'
           | None => None
           end
      else crawlLinks rec rest st
  end.

(** [crawlPage(url, depth)]. The recursion descends one level per call
    and returns at once above [maxDepth], so [maxDepth + 2] nested calls
    are the most a crawl from depth 0 makes; [fuel] bounds the nesting,
    and [None] is returned only when the fuel is exhausted. *)
Fixpoint crawlPage (fuel : nat) (u : string) (d : nat) (st : State) : option State :=
  match fuel with
  | O => None
  | S fuel' =>
      if (maxDepth options <? d)%nat then Some st
      else if bool_decide (u ∈ visitedUrls st) then Some st
      else if (maxPages options <=? length (crawledPages st))%nat then Some st
      else if negb (shouldCrawlUrl (baseDomain st) u) then Some st
      else
        let st1 := visit u st in
        match fetch u with
        | None => Some st1
        | Some doc =>
            let title := if String.eqb (doc_title doc) "" then "No Title" else doc_title doc in
            let links := extractLinks st1 doc in
            let page := {| url := u; title := title; links := links;
                           forms := doc_forms doc; depth := d |} in
            crawlLinks (fun link => crawlPage fuel' link (S d)) links (push page st1)
        end
  end.

(** [crawl(startUrl)] on a crawler in state [st]: the pages returned. *)
Definition crawlFrom (st : State) (startUrl : string) : option (list CrawledPage) :=
  match parseURL startUrl with
  | None => Some (crawledPages st)
  | Some urlObj =>
      let st0 := {| visitedUrls := visitedUrls st;
                    crawledPages := crawledPages st;
                    baseDomain := hostname urlObj |} in
      match crawlPage (2 + maxDepth options) startUrl 0 st0 with
      | Some st' => Some (crawledPages st')
      | None => None
      end
  end.

(** [new SmartWebCrawler(options).crawl(startUrl)] *)
Definition crawl (startUrl : string) : option (list CrawledPage) :=
  crawlFrom initial startUrl.

End WithWeb.

End Crawler.

(** ** server/scan-worker.cjs *)
Module Worker.
Import JsString.

(** The double quote, which the payloads contain. *)
Definition dq : string := String (ascii_of_nat 34) EmptyString.

Definition XSS_PAYLOADS : list string :=
  [ "<script>alert(" +:+ dq +:+ "XSS" +:+ dq +:+ ")</script>";
    dq +:+ "><script>alert(" +:+ dq +:+ "XSS" +:+ dq +:+ ")</script>";
    "<img src=x onerror=alert(" +:+ dq +:+ "XSS" +:+ dq +:+ ")>";
    "javascript:alert(" +:+ dq +:+ "XSS" +:+ dq +:+ ")";
    "<svg onload=alert(" +:+ dq +:+ "XSS" +:+ dq +:+ ")>";
    dq +:+ "><img src=x onerror=alert(" +:+ dq +:+ "XSS" +:+ dq +:+ ")>";
    "<iframe src=" +:+ dq +:+ "javascript:alert('XSS')" +:+ dq +:+ "></iframe>" ].

Definition SQL_PAYLOADS : list string :=
  [ "' OR '1'='1";
    "' OR 1=1--";
    "'; DROP TABLE users;--";
    "' UNION SELECT null, null, null--";
    "admin'--";
    "admin' #";
    "admin'/*";
    "' or 1=1#";
    "' or 1=1--";
    "' or 1=1/*";
    "') or '1'='1--";
    "') or ('1'='1--" ].

Definition SQL_ERRORS : list string :=
  [ "mysql_fetch_array";
    "ORA-";
    "Microsoft OLE DB Provider";
    "PostgreSQL query failed";
    "Warning: mysql_";
    "SQL syntax";
    "mysql_error";
    "valid MySQL result";
    "MySqlClient";
    "syntax error" ].

(** *** HTTP *)

(** [response.data]: axios hands back a string, or something else (a
    parsed JSON value, a buffer) for other content. *)
Inductive Body :=
| Text (s : string)
| NotText.

Record Response := {
  status : Z;
  server : option string;   (* response.headers['server'] *)
  data : Body
}.

Record Request := {
  req_url : string;
  req_method : string;
  req_data : option string;
  req_contentType : option string
}.

(** What the transport under axios comes back with: a response of some
    status, or no response at all (network, timeout, TLS or DNS failure). *)
Inductive Transport :=
| Replied (r : Response)
| NoReply (message : string).

Record AxiosError := {
  message : string;
  response : option Response   (* err.response *)
}.

(** [axios({..., validateStatus})]: resolves with the response when
    [validateStatus] accepts its status, rejects with an error carrying the
    response otherwise, and rejects with a bare error without a response. *)
Definition axios (validateStatus : Z -> bool) (t : Transport) : Response + AxiosError :=
  match t with
  | Replied r =>
      if validateStatus (status r) then inl r
      else inr {| message := "Request failed with status code"; response := Some r |}
  | NoReply m => inr {| message := m; response := None |}
  end.

(** The body of [fetchPage] once the transport has answered: [inl] is the
    value returned, [inr] the message of the [Error] thrown. *)
Definition fetchOutcome (t : Transport) : Response + string :=
  match axios (fun s => (s <? 500)%Z) t with
  | inl res => inl res
  | inr err =>
      match response err with
      | Some r => inl r
      | None => inr ("fetch error: " +:+ message err)
      end
  end.

Definition get (u : string) : Request :=
  {| req_url := u; req_method := "GET"; req_data := None; req_contentType := None |}.

Definition post (u body : string) : Request :=
  {| req_url := u; req_method := "POST"; req_data := Some body;
     req_contentType := Some "application/x-www-form-urlencoded" |}.

Section WithEngine.
Context {engine : CaseMapping}.

Definition containsPayload (html : Body) (payload : string) : bool :=
  match html with
  | Text s =>
      if String.eqb s "" then false
      else includes (toLowerCase s) (toLowerCase payload)
  | NotText => false
  end.

Definition containsSQLError (html : Body) : bool :=
  match html with
  | Text s =>
      if String.eqb s "" then false
      else let lower := toLowerCase s in
           existsb (fun err => includes lower (toLowerCase err)) SQL_ERRORS
  | NotText => false
  end.

(** *** The parsed page *)

Inductive Tag := input | textarea | select | other.

(** An element below a form, with the attributes the selectors read. *)
Record Element := {
  tag : Tag;
  type_attr : option string;
  name_attr : option string
}.

Record FormEl := {
  action_attr : option string;
  method_attr : option string;
  descendants : list Element   (* in document order *)
}.

(** What [cheerio.load(html)] exposes to [scanPage]: the [form] elements
    and the inner HTML of the [script] elements. *)
Record Dom := {
  dom_forms : list FormEl;
  dom_scripts : list string
}.

Definition is_input (e : Element) : bool :=
  match tag e with input => true | _ => false end.

Definition is_textarea (e : Element) : bool :=
  match tag e with textarea => true | _ => false end.

(** [[type="t"]]: cheerio compares the value of [type] ignoring case. *)
Definition type_is (t : string) (e : Element) : bool :=
  match type_attr e with
  | Some v => String.eqb (toLowerCase v) t
  | None => false
  end.

(** [[name*="s"]] *)
Definition name_has (s : string) (e : Element) : bool :=
  match name_attr e with
  | Some v => includes v s
  | None => false
  end.

(** [form.find('input[type="hidden"][name*="csrf"], input[type="hidden"][name*="token"]')] *)
Definition csrfTokens (form : FormEl) : list Element :=
  List.filter (fun e => (is_input e && type_is "hidden" e && name_has "csrf" e)
                        || (is_input e && type_is "hidden" e && name_has "token" e))
              (descendants form).

(** [form.find('input[type="password"], input[name*="password"], input[name*="email"]')] *)
Definition sensitiveInputs (form : FormEl) : list Element :=
  List.filter (fun e => (is_input e && type_is "password" e)
                        || (is_input e && name_has "password" e)
                        || (is_input e && name_has "email" e))
              (descendants form).

(** [form.find('input:not([type="hidden"]), textarea')] *)
Definition fuzzInputs (form : FormEl) : list Element :=
  List.filter (fun e => (is_input e && negb (type_is "hidden" e)) || is_textarea e)
              (descendants form).

(** *** Findings *)

Inductive Severity := Critical | High | Medium | Low.

Inductive Category :=
| SQLInjection            (* 'SQL Injection' *)
| XSS                     (* 'XSS' *)
| CSRF                    (* 'CSRF' *)
| InformationDisclosure.  (* 'Information Disclosure' *)

Record Vulnerability := {
  id : string;
  name : string;
  severity : Severity;
  description : string;
  location : string;
  impact : string;
  category : Category
}.

(** [result] *)
Record ScanData := {
  vulnerabilities : list Vulnerability;
  formsFound : nat;
  endpointsTested : nat;
  pageUrl : string
}.

(** What [scanPage] returns. *)
Record ScanOutcome := {
  success : bool;
  error : option string;
  outcome_data : ScanData
}.

(** The state a run of [scanPage] threads: the [result] object it
    mutates, the requests sent so far (oldest first) and the number of
    finding ids drawn so far. *)
Record Run := {
  result : ScanData;
  sent : list Request;
  drawn : nat
}.

Definition countEndpoint (r : Run) : Run :=
  {| result := {| vulnerabilities := vulnerabilities (result r);
                  formsFound := formsFound (result r);
                  endpointsTested := S (endpointsTested (result r));
                  pageUrl := pageUrl (result r) |};
     sent := sent r; drawn := drawn r |}.

Definition setFormsFound (n : nat) (r : Run) : Run :=
  {| result := {| vulnerabilities := vulnerabilities (result r);
                  formsFound := n;
                  endpointsTested := endpointsTested (result r);
                  pageUrl := pageUrl (result r) |};
     sent := sent r; drawn := drawn r |}.

(** [result.vulnerabilities.push(v)], [v] built with a fresh id suffix. *)
Definition pushVuln (mk : nat -> Vulnerability) (r : Run) : Run :=
  {| result := {| vulnerabilities := vulnerabilities (result r) ++ [mk (drawn r)];
                  formsFound := formsFound (result r);
                  endpointsTested := endpointsTested (result r);
                  pageUrl := pageUrl (result r) |};
     sent := sent r; drawn := S (drawn r) |}.

Section WithEnvironment.
(** The target: its answer to a request, given the requests before it. *)
Variable network : list Request -> Request -> Transport.
(** The text of [`${Date.now()}-${Math.random()}`] at its n-th evaluation. *)
Variable stamp : nat -> string.
Variable cheerio_load : string -> Dom.
(** [new URL(action, base).href], [None] when the constructor throws. *)
Variable resolveURL : string -> string -> option string.
(** [params.toString()] of a [URLSearchParams] built by [append]. *)
Variable encodeParams : list (string * string) -> string.
(** The keys of [new URL(url).searchParams] in order, [None] when the
    constructor throws. *)
Variable searchParamNames : string -> option (list string).
(** [u = new URL(url); u.searchParams.set(param, value); u.href] *)
Variable setSearchParam : string -> string -> string -> string.

(** [await fetchPage(...)] *)
Definition fetchPage (req : Request) (r : Run) : (Response + string) * Run :=
  (fetchOutcome (network (sent r) req),
   {| result := result r; sent := sent r ++ [req]; drawn := drawn r |}).

Definition csrfFinding (targetUrl : string) (n : nat) : Vulnerability :=
  {| id := "csrf-" +:+ stamp n;
     name := "Cross-Site Request Forgery (CSRF)";
     severity := Medium;
     description := "CSRF protection missing on sensitive form at " +:+ targetUrl;
     location := "POST " +:+ targetUrl;
     impact := "Attackers could perform actions on behalf of users.";
     category := CSRF |}.

Definition xssFinding (method targetUrl inputName : string) (n : nat) : Vulnerability :=
  {| id := "xss-" +:+ stamp n;
     name := "Reflected XSS";
     severity := High;
     description := "Reflected XSS in form input " +:+ dq +:+ inputName +:+ dq;
     location := method +:+ " " +:+ targetUrl;
     impact := "Malicious scripts execution.";
     category := XSS |}.

Definition sqliFinding (method targetUrl inputName : string) (n : nat) : Vulnerability :=
  {| id := "sqli-" +:+ stamp n;
     name := "SQL Injection";
     severity := Critical;
     description := "SQL Injection in form input " +:+ dq +:+ inputName +:+ dq;
     location := method +:+ " " +:+ targetUrl;
     impact := "Database compromise.";
     category := SQLInjection |}.

Definition urlXssFinding (param href : string) (n : nat) : Vulnerability :=
  {| id := "url-xss-" +:+ stamp n;
     name := "Reflected XSS (URL)";
     severity := High;
     description := "Reflected XSS in URL parameter " +:+ dq +:+ param +:+ dq;
     location := "GET " +:+ href;
     impact := "Malicious scripts execution.";
     category := XSS |}.

Definition urlSqliFinding (param href : string) (n : nat) : Vulnerability :=
  {| id := "url-sqli-" +:+ stamp n;
     name := "SQL Injection (URL)";
     severity := Critical;
     description := "SQL Injection in URL parameter " +:+ dq +:+ param +:+ dq;
     location := "GET " +:+ href;
     impact := "Database compromise.";
     category := SQLInjection |}.

Definition domXssFinding (page : string) (n : nat) : Vulnerability :=
  {| id := "dom-xss-" +:+ stamp n;
     name := "Potential DOM XSS";
     severity := High;
     description := "Dangerous DOM sink usage (innerHTML/document.write)";
     location := page;
     impact := "Client-side code execution.";
     category := XSS |}.

Definition serverFinding (value : string) (n : nat) : Vulnerability :=
  {| id := "info-" +:+ stamp n;
     name := "Server Header Disclosure";
     severity := Low;
     description := "Server header exposed: " +:+ value;
     location := "HTTP Headers";
     impact := "Information leakage.";
     category := InformationDisclosure |}.

Definition dbErrorFinding (page : string) (n : nat) : Vulnerability :=
  {| id := "info-sqler-" +:+ stamp n;
     name := "Database Error Disclosure";
     severity := Medium;
     description := "Database error messages exposed on page";
     location := page;
     impact := "Information leakage.";
     category := InformationDisclosure |}.

(** The CSRF check of one form. *)
Definition csrfCheck (method targetUrl : string) (form : FormEl) (r : Run) : Run :=
  if String.eqb method "POST"
     && (0 <? length (sensitiveInputs form))%nat
     && (length (csrfTokens form) =? 0)%nat
  then pushVuln (csrfFinding targetUrl) r
  else r.

(** The [URLSearchParams] of a probe: every other named input of
    [inputs] set to [filler], then the probed input set to [payload]. *)
Definition fillParams (inputs : list Element) (inputName payload filler : string)
  : list (string * string) :=
  flat_map (fun el =>
              match name_attr el with
              | Some otherName =>
                  if negb (String.eqb otherName "") && negb (String.eqb otherName inputName)
                  then [(otherName, filler)] else []
              | None => []
              end) inputs
  ++ [(inputName, payload)].

(** The request of a form probe: a POST of the encoded body, or a GET
    with the encoded parameters as query string for any other method. *)
Definition probe (method targetUrl : string) (params : list (string * string)) : Request :=
  if String.eqb method "POST"
  then post targetUrl (encodeParams params)
  else get (targetUrl +:+ "?" +:+ encodeParams params).

(** [for (const payload of XSS_PAYLOADS)] for the input named
    [inputName]; a probe that throws is skipped by the empty [catch]. *)
Fixpoint xssTest (method targetUrl : string) (inputs : list Element)
         (inputName : string) (payloads : list string) (r : Run) : Run :=
  match payloads with
  | [] => r
  | payload :: rest =>
      let r1 := countEndpoint r in
      let (res, r2) :=
        fetchPage (probe method targetUrl (fillParams inputs inputName payload "test")) r1 in
      match res with
      | inl res =>
          if containsPayload (data res) payload
          then pushVuln (xssFinding method targetUrl inputName) r2
          else xssTest method targetUrl inputs inputName rest r2
      | inr _ => xssTest method targetUrl inputs inputName rest r2
      end
  end.

(** [for (const payload of SQL_PAYLOADS)] for the input named [inputName]. *)
Fixpoint sqliTest (method targetUrl : string) (inputs : list Element)
         (inputName : string) (payloads : list string) (r : Run) : Run :=
  match payloads with
  | [] => r
  | payload :: rest =>
      let r1 := countEndpoint r in
      let (res, r2) :=
        fetchPage (probe method targetUrl (fillParams inputs inputName payload "1")) r1 in
      match res with
      | inl res =>
          if containsSQLError (data res)
          then pushVuln (sqliFinding method targetUrl inputName) r2
          else sqliTest method targetUrl inputs inputName rest r2
      | inr _ => sqliTest method targetUrl inputs inputName rest r2
      end
  end.

(** One round of the [for (let j ...)] loop over the inputs of a form. *)
Definition fuzzInput (method targetUrl : string) (inputs : list Element)
           (el : Element) (r : Run) : Run :=
  match name_attr el with
  | Some inputName =>
      if String.eqb inputName "" then r
      else sqliTest method targetUrl inputs inputName SQL_PAYLOADS
             (xssTest method targetUrl inputs inputName XSS_PAYLOADS r)
  | None => r
  end.

Definition formMethod (form : FormEl) : string :=
  toUpperCase (or_else (method_attr form) "GET").

Definition formTarget (page : string) (form : FormEl) : string :=
  match resolveURL (or_else (action_attr form) page) page with
  | Some href => href
  | None => page
  end.

(** One round of the [for (let i ...)] loop over the forms. *)
Definition scanForm (page : string) (form : FormEl) (r : Run) : Run :=
  let method := formMethod form in
  let targetUrl := formTarget page form in
  let r1 := csrfCheck method targetUrl form r in
  let inputs := fuzzInputs form in
  fold_left (fun acc el => fuzzInput method targetUrl inputs el acc) inputs r1.

Definition xssPayload : string :=
  "<script>alert(" +:+ dq +:+ "XSS" +:+ dq +:+ ")</script>".

Definition sqliPayload : string := "'".

(** One round of [for (const [param] of u.searchParams)]. *)
Definition scanParam (page param : string) (r : Run) : Run :=
  let r1 := countEndpoint r in
  let testUrlXss := setSearchParam page param xssPayload in
  let (resX, r2) := fetchPage (get testUrlXss) r1 in
  let r3 :=
    match resX with
    | inl res =>
        if containsPayload (data res) xssPayload
        then pushVuln (urlXssFinding param testUrlXss) r2 else r2
    | inr _ => r2
    end in
  let r4 := countEndpoint r3 in
  let testUrlSql := setSearchParam page param sqliPayload in
  let (resS, r5) := fetchPage (get testUrlSql) r4 in
  match resS with
  | inl res =>
      if containsSQLError (data res)
      then pushVuln (urlSqliFinding param testUrlSql) r5 else r5
  | inr _ => r5
  end.

Definition scanUrlParameters (page : string) (r : Run) : Run :=
  match searchParamNames page with
  | Some params => fold_left (fun acc param => scanParam page param acc) params r
  | None => r
  end.

(** [$('script').each(...)] *)
Definition domXssCheck (page : string) (scripts : list string) (r : Run) : Run :=
  fold_left (fun acc s =>
               if includes s "innerHTML" || includes s "document.write"
               then pushVuln (domXssFinding page) acc else acc)
            scripts r.

Definition infoDisclosure (page : string) (resp : Response) (html : string) (r : Run) : Run :=
  let r1 := if truthy (server resp)
            then pushVuln (serverFinding (or_else (server resp) "")) r else r in
  if containsSQLError (Text html) then pushVuln (dbErrorFinding page) r1 else r1.

Definition start (page : string) (history : list Request) (n : nat) : Run :=
  {| result := {| vulnerabilities := []; formsFound := 0;
                  endpointsTested := 0; pageUrl := page |};
     sent := history; drawn := n |}.

(** [scanPage(page)], run after the requests [history] and [n] drawn
    ids: what it returns and the state it leaves. *)
Definition scanPage (page : string) (history : list Request) (n : nat)
  : ScanOutcome * Run :=
  let (res, r1) := fetchPage (get page) (start page history n) in
  match res with
  | inr msg =>
      ({| success := false; error := Some msg; outcome_data := result r1 |}, r1)
  | inl resp =>
      match data resp with
      | NotText =>
          ({| success := true; error := None; outcome_data := result r1 |}, r1)
      | Text html =>
          let dom := cheerio_load html in
          let forms := dom_forms dom in
          let r2 := setFormsFound (length forms) r1 in
          (* 1. Scan Forms *)
          let r3 := fold_left (fun acc form => scanForm page form acc) forms r2 in
          (* 2. Scan URL Parameters *)
          let r4 := scanUrlParameters page r3 in
          (* 3. Passive Checks (DOM XSS, Info Disclosure) *)
          let r5 := domXssCheck page (dom_scripts dom) r4 in
          let r6 := infoDisclosure page resp html r5 in
          ({| success := true; error := None; outcome_data := result r6 |}, r6)
      end
  end.

End WithEnvironment.
End WithEngine.

End Worker.

(** ** server/scan-worker.cjs: the message handler *)
Module WorkerMessages.
Import JsString Worker.

(** [task.data]: the page object, of which the worker reads the [url]. *)
Record TaskData := { td_url : option string }.

(** A message from the pool. *)
Record Task := {
  task_id : option string;
  task_type : string;
  task_data : option TaskData
}.

(** A message posted back to the pool. *)
Record Reply := {
  r_taskId : option string;
  r_success : bool;
  r_error : option string;
  r_data : option ScanData;
  r_workerId : nat
}.

Section WithEnvironment.
Context {engine : JsString.CaseMapping}.
Variable network : list Request -> Request -> Transport.
Variable stamp : nat -> string.
Variable cheerio_load : string -> Dom.
Variable resolveURL : string -> string -> option string.
Variable encodeParams : list (string * string) -> string.
Variable searchParamNames : string -> option (list string).
Variable setSearchParam : string -> string -> string -> string.
(** [workerData.workerId] *)
Variable workerId : nat.
(** [`unknown-${Date.now()}`] *)
Variable unknownId : string.

(** The URL of a task the handler accepts for scanning. *)
Definition scanUrl (task : Task) : option string :=
  if String.eqb (task_type task) "scan"
  then match task_data task with
       | Some td => if truthy (td_url td) then td_url td else None
       | None => None
       end
  else None.

(** [parentPort.on('message', ...)]: the reply posted for [task], and
    the requests and ids spent on it. *)
Definition onMessage (task : Task) (history : list Request) (n : nat)
  : Reply * (list Request * nat) :=
  if String.eqb (task_type task) "init"
  then ({| r_taskId := task_id task; r_success := true; r_error := None;
           r_data := None; r_workerId := workerId |}, (history, n))
  else
    match scanUrl task with
    | None =>
        ({| r_taskId := Some (or_else (task_id task) unknownId);
            r_success := false;
            r_error := Some "invalid task: missing url";
            r_data := None;
            r_workerId := workerId |}, (history, n))
    | Some u =>
        let (scanRes, r) :=
          scanPage network stamp cheerio_load resolveURL encodeParams
                   searchParamNames setSearchParam u history n in
        let data :=
          {| vulnerabilities := vulnerabilities (outcome_data scanRes);
             formsFound := formsFound (outcome_data scanRes);
             endpointsTested := endpointsTested (outcome_data scanRes);
             pageUrl := u |} in
        if success scanRes
        then ({| r_taskId := task_id task; r_success := true; r_error := None;
                 r_data := Some data; r_workerId := workerId |}, (sent r, drawn r))
        else ({| r_taskId := task_id task; r_success := false;
                 r_error := Some (or_else (error scanRes) "scan failed");
                 r_data := Some data; r_workerId := workerId |}, (sent r, drawn r))
    end.

End WithEnvironment.
End WorkerMessages.

(** ** The progress server (websocket-server.ts) and the worker pool's
       scan statistics (worker-pool.ts) *)
Module Progress.
Import JsString.

(** [Math.round(num / den)] for counts [num] and [den > 0], computed
    exactly: the nearest integer, halves rounded up. JavaScript evaluates
    the quotient in double precision; each of its rounding steps is
    monotone, as this function is in [num]. *)
Definition round_ratio (num den : nat) : nat := (2 * num + den) / (2 * den).

Inductive Status := crawling | scanning | completed | error.

(** A [ScanProgress] event. The clock fields ([startTime],
    [estimatedTimeRemaining]), the caption [currentStage] and the optional
    copy of the findings are display data no update reads; they are left
    out. *)
Record ScanProgress := {
  scanId : string;
  status : Status;
  progress : nat;
  pagesScanned : nat;
  totalPages : nat;
  vulnerabilitiesFound : nat;
  formsFound : nat;
  endpointsTested : nat
}.

(** The server: the [scanProgress] map and, oldest first, the
    [scan-progress] events it has broadcast. *)
Record Server := {
  scanProgress : gmap string ScanProgress;
  broadcast : list ScanProgress
}.

Definition initialServer : Server := {| scanProgress := ∅; broadcast := [] |}.

(** [this.scanProgress.set(scanId, p); this.broadcastProgress(scanId, p)] *)
Definition setAndBroadcast (p : ScanProgress) (s : Server) : Server :=
  {| scanProgress := <[scanId p := p]> (scanProgress s);
     broadcast := broadcast s ++ [p] |}.

Definition startScan (sid : string) (total : nat) (s : Server) : Server :=
  setAndBroadcast
    {| scanId := sid; status := crawling; progress := 0; pagesScanned := 0;
       totalPages := total; vulnerabilitiesFound := 0; formsFound := 0;
       endpointsTested := 0 |} s.

(** The assignments of [updateCrawlingProgress] to the progress object. *)
Definition crawlingUpdate (pagesFound : nat) (p : ScanProgress) : ScanProgress :=
  let total := Nat.max (totalPages p) pagesFound in
  {| scanId := scanId p;
     status := status p;
     progress := round_ratio (pagesFound * 30) (Nat.max total 1);
     pagesScanned := pagesFound;
     totalPages := total;
     vulnerabilitiesFound := vulnerabilitiesFound p;
     formsFound := formsFound p;
     endpointsTested := endpointsTested p |}.

Definition updateCrawlingProgress (sid : string) (pagesFound : nat) (s : Server) : Server :=
  match scanProgress s !! sid with
  | None => s
  | Some p => setAndBroadcast (crawlingUpdate pagesFound p) s
  end.

(** The assignments of [updateScanningProgress] to the progress object:
    [Math.round(30 + pagesScanned / Math.max(totalPages, 1) * 70)]. *)
Definition scanningUpdate (scanned vulns forms endpoints : nat) (p : ScanProgress)
  : ScanProgress :=
  let den := Nat.max (totalPages p) 1 in
  {| scanId := scanId p;
     status := if (totalPages p <=? scanned)%nat then completed else scanning;
     progress := round_ratio (30 * den + scanned * 70) den;
     pagesScanned := scanned;
     totalPages := totalPages p;
     vulnerabilitiesFound := vulns;
     formsFound := forms;
     endpointsTested := endpoints |}.

Definition updateScanningProgress (sid : string)
           (scanned vulns forms endpoints : nat) (s : Server) : Server :=
  match scanProgress s !! sid with
  | None => s
  | Some p => setAndBroadcast (scanningUpdate scanned vulns forms endpoints p) s
  end.

(** [finalStats] as [completeScan] reads it; a missing field is [None]. *)
Record FinalStats := {
  fs_pagesScanned : option nat;
  fs_vulnerabilities : option nat;   (* finalStats.vulnerabilities?.length *)
  fs_formsFound : option nat;
  fs_endpointsTested : option nat
}.

(** [x || d] on a count: 0 and a missing value both give [d]. *)
Definition count_or (x : option nat) (d : nat) : nat :=
  match x with
  | Some (S n) => S n
  | _ => d
  end.

Definition completeScan (sid : string) (finalStats : FinalStats) (s : Server) : Server :=
  match scanProgress s !! sid with
  | None => s
  | Some p =>
      setAndBroadcast
        {| scanId := scanId p;
           status := completed;
           progress := 100;
           pagesScanned := count_or (fs_pagesScanned finalStats) (pagesScanned p);
           totalPages := totalPages p;
           vulnerabilitiesFound := count_or (fs_vulnerabilities finalStats) 0;
           formsFound := count_or (fs_formsFound finalStats) 0;
           endpointsTested := count_or (fs_endpointsTested finalStats) 0 |} s
  end.

(** [errorScan]: the progress event; the [scan-error] message that
    follows it goes to the same room and is not a progress event. *)
Definition errorScan (sid : string) (s : Server) : Server :=
  match scanProgress s !! sid with
  | None => s
  | Some p =>
      setAndBroadcast
        {| scanId := scanId p; status := error; progress := progress p;
           pagesScanned := pagesScanned p; totalPages := totalPages p;
           vulnerabilitiesFound := vulnerabilitiesFound p;
           formsFound := formsFound p;
           endpointsTested := endpointsTested p |} s
  end.

(** *** The calls a scan makes on the server *)

Inductive Call :=
| CrawlingProgress (pagesFound : nat)
| ScanningProgress (scanned vulns forms endpoints : nat).

Definition call (sid : string) (c : Call) (s : Server) : Server :=
  match c with
  | CrawlingProgress pagesFound => updateCrawlingProgress sid pagesFound s
  | ScanningProgress scanned vulns forms endpoints =>
      updateScanningProgress sid scanned vulns forms endpoints s
  end.

Definition calls (sid : string) (cs : list Call) (s : Server) : Server :=
  fold_left (fun acc c => call sid c acc) cs s.

(** Aggregated counters after a page: scanned, vulnerabilities, forms, endpoints. *)
Definition Counters : Type := nat * nat * nat * nat.

Definition counters_le (a b : Counters) : Prop :=
  let '(s1, v1, f1, e1) := a in
  let '(s2, v2, f2, e2) := b in
  (s1 <= s2 /\ v1 <= v2 /\ f1 <= f2 /\ e1 <= e2)%nat.

Definition scanningCall (c : Counters) : Call :=
  let '(s, v, f, e) := c in ScanningProgress s v f e.

(** Modelled from the spec: the scan coordinator (vulnerability-scanner.ts,
    the caller of the progress server) is not among the sources. Per the
    specification's state machine it starts the scan, then during crawling
    reports the growing count [pages_found] after each discovered page,
    then during scanning reports the aggregated counters after each page
    is done; the counts it reports within a phase never decrease. *)
Definition coordinated (found : list nat) (pageDone : list Counters) : Prop :=
  StronglySorted le found /\ StronglySorted counters_le pageDone.

Definition coordinatorCalls (found : list nat) (pageDone : list Counters) : list Call :=
  map CrawlingProgress found ++ map scanningCall pageDone.

(** The progress events of one scan driven by the coordinator. *)
Definition scanEvents (sid : string) (total : nat)
           (found : list nat) (pageDone : list Counters) : list ScanProgress :=
  broadcast (calls sid (coordinatorCalls found pageDone) (startScan sid total initialServer)).

(** *** worker-pool.ts: scan statistics *)

(** [taskId.split('::')[0]] *)
Fixpoint beforeSeparator (sep s : string) : string :=
  if startsWith s sep then EmptyString
  else match s with
       | EmptyString => EmptyString
       | String c s' => String c (beforeSeparator sep s')
       end.

Inductive PoolStatus := pool_running | pool_completed.

(** The [state] object of [scanPages] (its [startTime] is left out). *)
Record ScanState := {
  st_scanId : string;
  st_totalPages : nat;
  st_pagesScanned : nat;
  st_vulnerabilitiesFound : nat;
  st_formsFound : nat;
  st_endpointsTested : nat;
  st_status : PoolStatus
}.

(** A [progress] event of the pool. *)
Record PoolProgress := {
  pp_scanId : string;
  pp_status : PoolStatus;
  pp_progress : nat;
  pp_pagesScanned : nat;
  pp_totalPages : nat;
  pp_vulnerabilitiesFound : nat;
  pp_formsFound : nat;
  pp_endpointsTested : nat
}.

(** The [data] of a worker result, as [updateScanStats] reads it. *)
Record ResultData := {
  rd_vulnerabilities : option nat;   (* length when it is an array *)
  rd_formsFound : option nat;        (* value when it is a number *)
  rd_endpointsTested : option nat
}.

(** The pool: the state objects allocated so far, the [scanStates] map
    from scan id to the object it holds, and the events emitted. The
    object of a scan stays reachable from [scanPages] after the map drops
    it. *)
Record Pool := {
  objects : list ScanState;
  scanStates : gmap string nat;
  emitted : list PoolProgress
}.

Definition initialPool : Pool := {| objects := []; scanStates := ∅; emitted := [] |}.

(** [state.pagesScanned = Math.min(state.pagesScanned + 1, state.totalPages)] *)
Definition countPage (st : ScanState) : ScanState :=
  {| st_scanId := st_scanId st;
     st_totalPages := st_totalPages st;
     st_pagesScanned := Nat.min (st_pagesScanned st + 1) (st_totalPages st);
     st_vulnerabilitiesFound := st_vulnerabilitiesFound st;
     st_formsFound := st_formsFound st;
     st_endpointsTested := st_endpointsTested st;
     st_status := st_status st |}.

(** The three [+=] of [updateScanStats]; a field of the wrong type adds 0. *)
Definition tally (d : ResultData) (st : ScanState) : ScanState :=
  let add (x : option nat) := match x with Some n => n | None => 0%nat end in
  {| st_scanId := st_scanId st;
     st_totalPages := st_totalPages st;
     st_pagesScanned := st_pagesScanned st;
     st_vulnerabilitiesFound := st_vulnerabilitiesFound st + add (rd_vulnerabilities d);
     st_formsFound := st_formsFound st + add (rd_formsFound d);
     st_endpointsTested := st_endpointsTested st + add (rd_endpointsTested d);
     st_status := st_status st |}.

(** [state.status = 'completed'] *)
Definition markCompleted (st : ScanState) : ScanState :=
  {| st_scanId := st_scanId st;
     st_totalPages := st_totalPages st;
     st_pagesScanned := st_pagesScanned st;
     st_vulnerabilitiesFound := st_vulnerabilitiesFound st;
     st_formsFound := st_formsFound st;
     st_endpointsTested := st_endpointsTested st;
     st_status := pool_completed |}.

Definition updateScanStats (taskId : string) (data : option ResultData) (p : Pool) : Pool :=
  let sid := beforeSeparator "::" taskId in
  match scanStates p !! sid with
  | None => p
  | Some ref =>
      match objects p !! ref with
      | None => p
      | Some state =>
          let state1 := countPage state in
          let state2 := match data with Some d => tally d state1 | None => state1 end in
          let finished := (st_totalPages state2 <=? st_pagesScanned state2)%nat in
          let event :=
            {| pp_scanId := sid;
               pp_status := if finished then pool_completed else pool_running;
               pp_progress :=
                 if (0 <? st_totalPages state2)%nat
                 then round_ratio (st_pagesScanned state2 * 100) (st_totalPages state2)
                 else 0%nat;
               pp_pagesScanned := st_pagesScanned state2;
               pp_totalPages := st_totalPages state2;
               pp_vulnerabilitiesFound := st_vulnerabilitiesFound state2;
               pp_formsFound := st_formsFound state2;
               pp_endpointsTested := st_endpointsTested state2 |} in
          {| objects := <[ref := if finished then markCompleted state2 else state2]> (objects p);
             scanStates := if finished then delete sid (scanStates p) else scanStates p;
             emitted := emitted p ++ [event] |}
      end
  end.

(** The part of [handleWorkerResult] that feeds the statistics. *)
Definition handleWorkerResult (taskId : string) (data : option ResultData) (p : Pool) : Pool :=
  if negb (String.eqb taskId "") && includes taskId "::"
  then updateScanStats taskId data p
  else p.

(** The worker results the pool handles one after the other. *)
Definition handleResults (arrivals : list (string * option ResultData)) (p : Pool) : Pool :=
  fold_left (fun acc a => handleWorkerResult (fst a) (snd a) acc) arrivals p.

(** How many results are handled while [scanPages] waits in
    [await Promise.allSettled(promises)]: with no page there is no promise
    and the wait is over before any result is handled; otherwise it is
    over once the promise of every page is settled (by a result, or by a
    rejection that brings no result), after [settled] results. *)
Definition awaited (total settled : nat) : nat :=
  match total with
  | O => O
  | S _ => settled
  end.

(** The final event of [scanPages], read from the state object. *)
Definition finalEvent (sid : string) (final : ScanState) : PoolProgress :=
  {| pp_scanId := sid; pp_status := pool_completed; pp_progress := 100;
     pp_pagesScanned := st_pagesScanned final;
     pp_totalPages := st_totalPages final;
     pp_vulnerabilitiesFound := st_vulnerabilitiesFound final;
     pp_formsFound := st_formsFound final;
     pp_endpointsTested := st_endpointsTested final |}.

(** [this.scanStates.set(scanId, state)] with a fresh state object. *)
Definition register (sid : string) (total : nat) (p : Pool) : Pool :=
  {| objects := objects p ++
                [{| st_scanId := sid; st_totalPages := total; st_pagesScanned := 0;
                    st_vulnerabilitiesFound := 0; st_formsFound := 0;
                    st_endpointsTested := 0; st_status := pool_running |}];
     scanStates := <[sid := length (objects p)]> (scanStates p);
     emitted := emitted p |}.

(** [scanPages(scanId, pages)] for [total] pages, on a pool that is not
    shutting down. The state object is registered and the tasks are
    queued; [arrivals] are the worker results the pool handles from then
    on. The first [awaited total settled] of them are handled while the
    promises of the pages are awaited; then the final event is emitted
    from the state object, which [scanPages] still holds; the results
    that come later are handled after it, and are still counted when the
    map has kept the state. *)
Definition scanPages (sid : string) (total settled : nat)
           (arrivals : list (string * option ResultData)) (p : Pool) : Pool :=
  let ref := length (objects p) in
  let p2 := handleResults (take (awaited total settled) arrivals) (register sid total p) in
  let p3 := match objects p2 !! ref with
            | None => p2
            | Some final =>
                {| objects := objects p2;
                   scanStates := scanStates p2;
                   emitted := emitted p2 ++ [finalEvent sid final] |}
            end in
  handleResults (drop (awaited total settled) arrivals) p3.

End Progress.

(** ** websocket-server.ts: the remaining operations *)
Module ProgressOps.
Import Progress.

Definition getScanProgress (sid : string) (s : Server) : option ScanProgress :=
  scanProgress s !! sid.

Definition cleanup (sid : string) (s : Server) : Server :=
  {| scanProgress := delete sid (scanProgress s); broadcast := broadcast s |}.

(** The [join-scan] handler: the [scan-progress] events sent to the
    socket that joins the room of [sid]. *)
Definition joinScan (sid : string) (s : Server) : list ScanProgress :=
  match scanProgress s !! sid with
  | Some p => [p]
  | None => []
  end.

(** A call of one of the public methods that change the server. *)
Inductive Op :=
| StartScan (sid : string) (total : nat)
| UpdateCrawling (sid : string) (pagesFound : nat)
| UpdateScanning (sid : string) (scanned vulns forms endpoints : nat)
| CompleteScan (sid : string) (finalStats : FinalStats)
| ErrorScan (sid : string)
| Cleanup (sid : string).

(** The scan a call is about. *)
Definition target (o : Op) : string :=
  match o with
  | StartScan sid _ | UpdateCrawling sid _ | UpdateScanning sid _ _ _ _
  | CompleteScan sid _ | ErrorScan sid | Cleanup sid => sid
  end.

Definition run (o : Op) (s : Server) : Server :=
  match o with
  | StartScan sid total => startScan sid total s
  | UpdateCrawling sid pagesFound => updateCrawlingProgress sid pagesFound s
  | UpdateScanning sid scanned vulns forms endpoints =>
      updateScanningProgress sid scanned vulns forms endpoints s
  | CompleteScan sid finalStats => completeScan sid finalStats s
  | ErrorScan sid => errorScan sid s
  | Cleanup sid => cleanup sid s
  end.

Definition runs (os : list Op) (s : Server) : Server :=
  fold_left (fun acc o => run o acc) os s.

End ProgressOps.

From Stdlib Require Import DecimalString.

(** ** worker-pool.ts: the task queue and the dispatch loop *)
Module WorkerPool.
Import JsString.

(** A task as [addTask] receives it. *)
Record Task := {
  t_id : option string;
  t_type : string;
  t_data : option WorkerMessages.TaskData;
  t_priority : option Z
}.

(** A task in the queue: its id filled in, and the promise whose
    [resolve] and [reject] it carries, numbered in the order [addTask]
    created them. *)
Record Queued := {
  q_id : string;
  q_type : string;
  q_data : option WorkerMessages.TaskData;
  q_priority : option Z;
  q_promise : nat
}.

(** A [WorkerResult] message. *)
Record WorkerResult := {
  wr_taskId : option string;
  wr_success : bool;
  wr_data : option Progress.ResultData;
  wr_error : option string;
  wr_workerId : nat
}.

(** What the pool does to the outside, oldest first. *)
Inductive Effect :=
| Posted (position workerId : nat) (task : Queued)   (* workers[position].postMessage(msg) *)
| Resolved (promise : nat)
| Rejected (promise : nat) (reason : string)
| Slept (ms : Z)                                     (* the await inside processQueue *)
| RetryScheduled.                                    (* setTimeout(processQueue, 100) *)

(** The pool. [workers] holds, by position, the [workerId] each thread
    was created with ([None] for a slot set to null); a key
    [worker-<position>] of [activeTasks] is the position. [reads]
    counts the evaluations of [Date.now()]. *)
Record Pool := {
  workers : list (option nat);
  taskQueue : list Queued;
  activeTasks : gmap nat Queued;
  requestCount : nat;
  lastRequestTime : Z;
  nextTaskId : nat;
  isProcessing : bool;
  isShuttingDown : bool;
  promises : nat;
  reads : nat;
  stats : Progress.Pool;
  effects : list Effect
}.

Definition set_workers (v : list (option nat)) (p : Pool) : Pool :=
  {| workers := v; taskQueue := taskQueue p; activeTasks := activeTasks p;
     requestCount := requestCount p; lastRequestTime := lastRequestTime p;
     nextTaskId := nextTaskId p; isProcessing := isProcessing p;
     isShuttingDown := isShuttingDown p; promises := promises p; reads := reads p;
     stats := stats p; effects := effects p |}.

Definition set_taskQueue (v : list Queued) (p : Pool) : Pool :=
  {| workers := workers p; taskQueue := v; activeTasks := activeTasks p;
     requestCount := requestCount p; lastRequestTime := lastRequestTime p;
     nextTaskId := nextTaskId p; isProcessing := isProcessing p;
     isShuttingDown := isShuttingDown p; promises := promises p; reads := reads p;
     stats := stats p; effects := effects p |}.

Definition set_activeTasks (v : gmap nat Queued) (p : Pool) : Pool :=
  {| workers := workers p; taskQueue := taskQueue p; activeTasks := v;
     requestCount := requestCount p; lastRequestTime := lastRequestTime p;
     nextTaskId := nextTaskId p; isProcessing := isProcessing p;
     isShuttingDown := isShuttingDown p; promises := promises p; reads := reads p;
     stats := stats p; effects := effects p |}.

Definition set_requestCount (v : nat) (p : Pool) : Pool :=
  {| workers := workers p; taskQueue := taskQueue p; activeTasks := activeTasks p;
     requestCount := v; lastRequestTime := lastRequestTime p;
     nextTaskId := nextTaskId p; isProcessing := isProcessing p;
     isShuttingDown := isShuttingDown p; promises := promises p; reads := reads p;
     stats := stats p; effects := effects p |}.

Definition set_isProcessing (v : bool) (p : Pool) : Pool :=
  {| workers := workers p; taskQueue := taskQueue p; activeTasks := activeTasks p;
     requestCount := requestCount p; lastRequestTime := lastRequestTime p;
     nextTaskId := nextTaskId p; isProcessing := v;
     isShuttingDown := isShuttingDown p; promises := promises p; reads := reads p;
     stats := stats p; effects := effects p |}.

Definition set_isShuttingDown (v : bool) (p : Pool) : Pool :=
  {| workers := workers p; taskQueue := taskQueue p; activeTasks := activeTasks p;
     requestCount := requestCount p; lastRequestTime := lastRequestTime p;
     nextTaskId := nextTaskId p; isProcessing := isProcessing p;
     isShuttingDown := v; promises := promises p; reads := reads p;
     stats := stats p; effects := effects p |}.

Definition set_nextTaskId (v : nat) (p : Pool) : Pool :=
  {| workers := workers p; taskQueue := taskQueue p; activeTasks := activeTasks p;
     requestCount := requestCount p; lastRequestTime := lastRequestTime p;
     nextTaskId := v; isProcessing := isProcessing p;
     isShuttingDown := isShuttingDown p; promises := promises p; reads := reads p;
     stats := stats p; effects := effects p |}.

Definition set_promises (v : nat) (p : Pool) : Pool :=
  {| workers := workers p; taskQueue := taskQueue p; activeTasks := activeTasks p;
     requestCount := requestCount p; lastRequestTime := lastRequestTime p;
     nextTaskId := nextTaskId p; isProcessing := isProcessing p;
     isShuttingDown := isShuttingDown p; promises := v; reads := reads p;
     stats := stats p; effects := effects p |}.

Definition set_stats (v : Progress.Pool) (p : Pool) : Pool :=
  {| workers := workers p; taskQueue := taskQueue p; activeTasks := activeTasks p;
     requestCount := requestCount p; lastRequestTime := lastRequestTime p;
     nextTaskId := nextTaskId p; isProcessing := isProcessing p;
     isShuttingDown := isShuttingDown p; promises := promises p; reads := reads p;
     stats := v; effects := effects p |}.

(** An effect on the outside. *)
Definition log (e : Effect) (p : Pool) : Pool :=
  {| workers := workers p; taskQueue := taskQueue p; activeTasks := activeTasks p;
     requestCount := requestCount p; lastRequestTime := lastRequestTime p;
     nextTaskId := nextTaskId p; isProcessing := isProcessing p;
     isShuttingDown := isShuttingDown p; promises := promises p; reads := reads p;
     stats := stats p; effects := effects p ++ [e] |}.

(** [priority || 0] *)
Definition rank (t : Queued) : Z :=
  match q_priority t with
  | Some z => z
  | None => 0%Z
  end.

(** Truthiness of [task.priority]. *)
Definition has_priority (priority : option Z) : bool :=
  match priority with
  | Some z => negb (z =? 0)%Z
  | None => false
  end.

(** [taskQueue.sort((a, b) => (b.priority || 0) - (a.priority || 0))]:
    the sort of an array is stable, so tasks of equal rank keep their
    order; an insertion sort from the right computes that order. *)
Fixpoint insert (t : Queued) (l : list Queued) : list Queued :=
  match l with
  | [] => [t]
  | x :: l' => if (rank x <=? rank t)%Z then t :: l else x :: insert t l'
  end.

Definition sortQueue (l : list Queued) : list Queued := fold_right insert [] l.

(** [workers.findIndex((w, idx) => w && !activeTasks.has(`worker-${idx}`))] *)
Fixpoint findFree (active : gmap nat Queued) (ws : list (option nat)) (idx : nat)
  : option (nat * nat) :=
  match ws with
  | [] => None
  | w :: ws' =>
      match w, active !! idx with
      | Some workerId, None => Some (idx, workerId)
      | _, _ => findFree active ws' (S idx)
      end
  end.

(** [array[index] = v]: an index past the end extends the array, the
    slots in between left empty. *)
Definition assign {A} (index : nat) (v : option A) (l : list (option A)) : list (option A) :=
  if (index <? length l)%nat then <[index := v]> l
  else l ++ repeat None (index - length l) ++ [v].

Section WithOptions.
Variable workerCount : nat.
Variable rateLimitDelay : Z.
Variable maxConcurrentRequests : nat.
(** [Date.now()] at its n-th evaluation. *)
Variable clock : nat -> Z.
(** The message of the error [postMessage] throws on the task, if it
    throws. *)
Variable postThrows : Queued -> option string.

(** [Date.now()] *)
Definition now (p : Pool) : Z * Pool :=
  (clock (reads p),
   {| workers := workers p; taskQueue := taskQueue p; activeTasks := activeTasks p;
      requestCount := requestCount p; lastRequestTime := lastRequestTime p;
      nextTaskId := nextTaskId p; isProcessing := isProcessing p;
      isShuttingDown := isShuttingDown p; promises := promises p; reads := S (reads p);
      stats := stats p; effects := effects p |}).

(** [this.lastRequestTime = Date.now()] *)
Definition stampRequest (p : Pool) : Pool :=
  let (t, p1) := now p in
  {| workers := workers p1; taskQueue := taskQueue p1; activeTasks := activeTasks p1;
     requestCount := requestCount p1; lastRequestTime := t;
     nextTaskId := nextTaskId p1; isProcessing := isProcessing p1;
     isShuttingDown := isShuttingDown p1; promises := promises p1; reads := reads p1;
     stats := stats p1; effects := effects p1 |}.

(** The pool after the constructor: [workerCount] workers, each at the
    position of its id ([new Worker] is taken to succeed). *)
Definition initial : Pool :=
  {| workers := map Some (seq 0 workerCount); taskQueue := []; activeTasks := ∅;
     requestCount := 0; lastRequestTime := 0; nextTaskId := 0;
     isProcessing := false; isShuttingDown := false; promises := 0; reads := 0;
     stats := Progress.initialPool; effects := [] |}.

(** The [finally] block of [processQueue]. *)
Definition finish (p : Pool) : Pool :=
  let p1 := set_isProcessing false p in
  match taskQueue p1 with
  | [] => p1
  | _ :: _ => if isShuttingDown p1 then p1 else log RetryScheduled p1
  end.

(** One dispatch: the head of the queue goes to the free worker. *)
Definition dispatch (position workerId : nat) (task : Queued) (rest : list Queued)
           (p : Pool) : Pool :=
  let p1 := set_taskQueue rest p in
  let p2 := set_activeTasks (<[position := task]> (activeTasks p1)) p1 in
  let p3 := stampRequest (set_requestCount (S (requestCount p2)) p2) in
  match postThrows task with
  | Some err =>
      set_requestCount (Nat.pred (requestCount p3))
        (set_activeTasks (delete position (activeTasks p3))
           (log (Rejected (q_promise task) err) p3))
  | None => log (Posted position workerId task) p3
  end.

(** The [while] loop of [processQueue] from the top, with [queue] the
    task queue, up to the point where it leaves the loop or suspends
    at the [await]. *)
Fixpoint drain (queue : list Queued) (p : Pool) : Pool :=
  match queue with
  | [] => finish (set_taskQueue [] p)
  | task :: rest =>
      if isShuttingDown p then finish (set_taskQueue queue p)
      else
        let (t, p1) := now p in
        let sinceLast := (t - lastRequestTime p1)%Z in
        if (maxConcurrentRequests <=? requestCount p1)%nat
        then finish (set_taskQueue queue p1)
        else if (0 <? requestCount p1)%nat && (sinceLast <? rateLimitDelay)%Z
        then log (Slept (Z.max (rateLimitDelay - sinceLast) 50)) (set_taskQueue queue p1)
        else
          match findFree (activeTasks p1) (workers p1) 0 with
          | None => finish (set_taskQueue queue p1)
          | Some (position, workerId) =>
              drain rest (dispatch position workerId task rest p1)
          end
  end.

Definition processQueue (p : Pool) : Pool :=
  if isProcessing p || isShuttingDown p then p
  else drain (taskQueue p) (set_isProcessing true p).

(** The loop resumes after the [await]. *)
Definition wake (p : Pool) : Pool :=
  if isProcessing p then drain (taskQueue p) p else p.

(** [`task-${n}`] *)
Definition generatedId (n : nat) : string :=
  "task-" +:+ NilZero.string_of_uint (Nat.to_uint n).

Definition addTask (task : Task) (p : Pool) : Pool :=
  if isShuttingDown p
  then log (Rejected (promises p) "Worker pool is shutting down")
           (set_promises (S (promises p)) p)
  else
    let generated := negb (truthy (t_id task)) in
    let queued :=
      {| q_id := or_else (t_id task) (generatedId (nextTaskId p));
         q_type := t_type task;
         q_data := t_data task;
         q_priority := t_priority task;
         q_promise := promises p |} in
    let queue1 := taskQueue p ++ [queued] in
    let queue2 := if has_priority (t_priority task) then sortQueue queue1 else queue1 in
    processQueue
      (set_taskQueue queue2
         (set_promises (S (promises p))
            (set_nextTaskId (if generated then S (nextTaskId p) else nextTaskId p) p))).

(** [handleWorkerResult(result)] *)
Definition handleWorkerResult (r : WorkerResult) (p : Pool) : Pool :=
  let p1 := stampRequest (set_requestCount (Nat.pred (requestCount p)) p) in
  let p2 :=
    match activeTasks p1 !! wr_workerId r with
    | Some task =>
        if match wr_taskId r with
           | Some taskId => String.eqb (q_id task) taskId
           | None => false
           end
        then set_activeTasks (delete (wr_workerId r) (activeTasks p1))
               (log (if wr_success r then Resolved (q_promise task)
                     else Rejected (q_promise task)
                                   (or_else (wr_error r) "Worker returned failure"))
                    p1)
        else p1
    | None => p1
    end in
  let p3 := set_stats (Progress.handleWorkerResult
                         (match wr_taskId r with Some taskId => taskId | None => "" end)
                         (wr_data r) (stats p2)) p2 in
  processQueue p3.

(** [`Worker ${index} exited unexpectedly with code ${code}`] *)
Definition exitReason (index : nat) (code : Z) : string :=
  "Worker " +:+ NilZero.string_of_uint (Nat.to_uint index)
  +:+ " exited unexpectedly with code " +:+ NilZero.string_of_int (Z.to_int code).

(** The [exit] handler of the worker created with [index]: the task
    under [worker-<index>] is rejected, the slot [index] is set to
    null and [createWorker(index)], finding the slot empty, pushes the
    replacement at the end ([new Worker] is taken to succeed). *)
Definition handleExit (index : nat) (code : Z) (p : Pool) : Pool :=
  if isShuttingDown p then p
  else if (code =? 0)%Z then p
  else
    let p1 :=
      match activeTasks p !! index with
      | Some task =>
          set_activeTasks (delete index (activeTasks p))
            (log (Rejected (q_promise task) (exitReason index code)) p)
      | None => p
      end in
    set_workers (assign index None (workers p1) ++ [Some index]) p1.

(** What happens to the pool. *)
Inductive Event :=
| AddTask (task : Task)
| WorkerMessage (r : WorkerResult)
| TimerWake                            (* the sleep of the loop is over *)
| TimerRetry                           (* the retry timer fires *)
| WorkerExit (index : nat) (code : Z)
| Shutdown.                            (* shutdown() sets the flag; the wait for
                                          the active tasks and the termination
                                          of the workers are left out *)

Definition step (e : Event) (p : Pool) : Pool :=
  match e with
  | AddTask task => addTask task p
  | WorkerMessage r => handleWorkerResult r p
  | TimerWake => wake p
  | TimerRetry => processQueue p
  | WorkerExit index code => handleExit index code p
  | Shutdown => set_isShuttingDown true p
  end.

Definition run (events : list Event) (p : Pool) : Pool :=
  fold_left (fun acc e => step e acc) events p.

End WithOptions.
End WorkerPool.

(** ** Between the pool and its workers *)
Module PoolWorker.
Import Worker WorkerMessages WorkerPool.

(** [const { resolve, reject, ...msg } = task]: the message posted to the
    worker (the priority travels along, the worker does not read it). *)
Definition message (task : Queued) : WorkerMessages.Task :=
  {| WorkerMessages.task_id := Some (q_id task);
     WorkerMessages.task_type := q_type task;
     WorkerMessages.task_data := q_data task |}.

(** The reply of the worker as the pool reads it. *)
Definition received (reply : Reply) : WorkerResult :=
  {| wr_taskId := r_taskId reply;
     wr_success := r_success reply;
     wr_data :=
       (fun d => {| Progress.rd_vulnerabilities := Some (length (vulnerabilities d));
                    Progress.rd_formsFound := Some (formsFound d);
                    Progress.rd_endpointsTested := Some (endpointsTested d) |})
         <$> r_data reply;
     wr_error := r_error reply;
     wr_workerId := r_workerId reply |}.

End PoolWorker.

(** ** server/storage.ts and server/routes.ts *)
Module Routes.
Import JsString.

(** The values of the [status] column: pending, scanning, completed, failed. *)
Inductive ScanStatus := pending | scanning | completed | failed.

(** [getCrawlStats()] of the crawler. *)
Record CrawlStats := {
  cs_totalPages : nat;
  cs_totalForms : nat;
  cs_totalLinks : nat;
  cs_visitedUrls : nat;
  cs_maxDepthReached : nat
}.

(** A stored [Scan]; a column not set yet is [None]. *)
Record Scan := {
  id : string;
  url : string;
  status : ScanStatus;
  vulnerabilities : list Worker.Vulnerability;
  pagesScanned : option nat;
  crawlStats : option CrawlStats;   (* [None] also stands for [{}] *)
  completedAt : option string
}.

(** [Partial<Scan>]: the fields an update carries. *)
Record ScanUpdate := {
  u_status : option ScanStatus;
  u_vulnerabilities : option (list Worker.Vulnerability);
  u_pagesScanned : option nat;
  u_crawlStats : option (option CrawlStats);
  u_completedAt : option string
}.

(** [{ ...scan, ...updates }] *)
Definition merge (scan : Scan) (u : ScanUpdate) : Scan :=
  {| id := id scan;
     url := url scan;
     status := default (status scan) (u_status u);
     vulnerabilities := default (vulnerabilities scan) (u_vulnerabilities u);
     pagesScanned := match u_pagesScanned u with Some n => Some n | None => pagesScanned scan end;
     crawlStats := default (crawlStats scan) (u_crawlStats u);
     completedAt := match u_completedAt u with Some t => Some t | None => completedAt scan end |}.

(** [MemStorage.scans] *)
Definition Storage : Type := gmap string Scan.

(** [createScan] with the id [randomUUID()] returned. *)
Definition createScan (newId target : string) (db : Storage) : Scan * Storage :=
  let scan := {| id := newId; url := target; status := pending; vulnerabilities := [];
                 pagesScanned := None; crawlStats := None; completedAt := None |} in
  (scan, <[newId := scan]> db).

Definition updateScan (sid : string) (u : ScanUpdate) (db : Storage) : Storage :=
  match db !! sid with
  | None => db
  | Some scan => <[sid := merge scan u]> db
  end.

Definition statusUpdate (st : ScanStatus) : ScanUpdate :=
  {| u_status := Some st; u_vulnerabilities := None; u_pagesScanned := None;
     u_crawlStats := None; u_completedAt := None |}.

(** What [scanner.scan()] resolves to. *)
Record ScanResult := {
  r_vulnerabilities : list Worker.Vulnerability;
  r_pagesScanned : nat;
  r_formsFound : nat;
  r_endpointsTested : nat;
  r_crawlStats : option CrawlStats
}.

(** What [performVulnerabilityScan] returns: no [formsFound] and no
    [endpointsTested] among its fields. *)
Record Performed := {
  p_vulnerabilities : list Worker.Vulnerability;
  p_pagesScanned : nat;
  p_crawlStats : option CrawlStats
}.

(** The default vulnerability of a scan that failed with [message]. *)
Definition scanError (target message : string) : Worker.Vulnerability :=
  {| Worker.id := "scan-error";
     Worker.name := "Scan Error";
     Worker.severity := Worker.Low;
     Worker.description :=
       "Unable to scan the target website: " +:+ message
       +:+ ". This could be due to network issues, the website being down, or the website blocking automated scanning.";
     Worker.location := target;
     Worker.impact :=
       "No vulnerabilities could be detected due to scan failure. Manual testing may be required.";
     Worker.category := Worker.InformationDisclosure |}.

(** The process: the storage and [global.wsServer], when there is one. *)
Record World := {
  db : Storage;
  wsServer : option Progress.Server
}.

Definition onServer (f : Progress.Server -> Progress.Server) (w : World) : World :=
  {| db := db w; wsServer := f <$> wsServer w |}.

Definition onStorage (f : Storage -> Storage) (w : World) : World :=
  {| db := f (db w); wsServer := wsServer w |}.

Section WithScanner.
(** [new VulnerabilityScanner(url, scanId, wsServer).scan()]: the scanner
    (vulnerability-scanner.ts) is not among the sources; it resolves
    with a result or rejects with an error message, and may drive the
    progress server meanwhile. *)
Variable scannerScan :
  string -> string -> option Progress.Server -> (ScanResult + string) * option Progress.Server.
(** [new Date()] at completion. *)
Variable now : string.

(** [performVulnerabilityScan(url, scanId, wsServer)]: it never throws,
    the [catch] turns an error of the scanner into the default
    vulnerability. *)
Definition performVulnerabilityScan (target sid : string) (w : World) : Performed * World :=
  let w1 := onServer (Progress.startScan sid 0) w in
  let (outcome, ws2) := scannerScan target sid (wsServer w1) in
  let w2 := {| db := db w1; wsServer := ws2 |} in
  match outcome with
  | inl result =>
      ({| p_vulnerabilities := r_vulnerabilities result;
          p_pagesScanned := r_pagesScanned result;
          p_crawlStats := r_crawlStats result |}, w2)
  | inr message =>
      ({| p_vulnerabilities := [scanError target message];
          p_pagesScanned := 0;
          p_crawlStats := None |},
       onServer (Progress.errorScan sid) w2)
  end.

(** The [try] block of the background task of [POST /api/scans]; [inr]
    would be an error thrown inside it. No step of it throws: the memory
    storage and the progress server do not, and
    [performVulnerabilityScan] catches its own errors. *)
Definition scanTaskBody (scan : Scan) (w : World) : World + World :=
  let w1 := onStorage (updateScan (id scan) (statusUpdate scanning)) w in
  let (scanResult, w2) := performVulnerabilityScan (url scan) (id scan) w1 in
  let w3 := onStorage (updateScan (id scan)
              {| u_status := Some completed;
                 u_vulnerabilities := Some (p_vulnerabilities scanResult);
                 u_pagesScanned := Some (p_pagesScanned scanResult);
                 u_crawlStats := Some (p_crawlStats scanResult);
                 u_completedAt := Some now |}) w2 in
  inl (onServer (Progress.completeScan (id scan)
         {| Progress.fs_pagesScanned := Some (p_pagesScanned scanResult);
            Progress.fs_vulnerabilities := Some (length (p_vulnerabilities scanResult));
            Progress.fs_formsFound := Some 0%nat;
            Progress.fs_endpointsTested := Some 0%nat |}) w3).

(** The background task: the [try] block, and the [catch] that marks
    the scan failed. *)
Definition scanTask (scan : Scan) (w : World) : World :=
  match scanTaskBody scan w with
  | inl w' => w'
  | inr w' => onStorage (updateScan (id scan) (statusUpdate failed)) w'
  end.

(** [POST /api/scans] for a valid body: the scan is created, returned,
    and the background task runs. *)
Definition postScan (newId target : string) (w : World) : Scan * World :=
  let (scan, db1) := createScan newId target (db w) in
  (scan, scanTask scan {| db := db1; wsServer := wsServer w |}).

End WithScanner.

End Routes.

(** ** server/routes.ts: reading a scan back, and the advice endpoints *)
Module Api.
Import JsString Routes.

(** The answer of [GET /api/scans/:id]. *)
Inductive ScanAnswer :=
| Found (scan : Scan)     (* 200 with the scan *)
| NotFound.               (* 404 "Scan not found" *)

Definition getScan (sid : string) (store : Storage) : option Scan := store !! sid.

Definition getScanRoute (sid : string) (w : World) : ScanAnswer :=
  match getScan sid (db w) with
  | Some scan => Found scan
  | None => NotFound
  end.

Definition nl : string := String (ascii_of_nat 10) EmptyString.

Definition bq : string := String (ascii_of_nat 96) EmptyString.

(** The text [callOllama] returns for a prompt that asks for a fix. *)
Definition fixAdvice : string :=
  "Here is a recommended fix for this vulnerability:" +:+ nl +:+ nl
  +:+ "1. **Input Validation**: Ensure all user inputs are strictly validated against a whitelist of allowed characters." +:+ nl
  +:+ "2. **Output Encoding**: Encode all data before rendering it to the browser to prevent XSS." +:+ nl
  +:+ "3. **Prepared Statements**: Use parameterized queries for all database interactions to prevent SQL Injection." +:+ nl
  +:+ "4. **Security Headers**: Implement Content Security Policy (CSP) and other security headers." +:+ nl +:+ nl
  +:+ "Example Code (Generic):" +:+ nl
  +:+ bq +:+ bq +:+ bq +:+ "javascript" +:+ nl
  +:+ "// Input Validation" +:+ nl
  +:+ "if (!/^[a-zA-Z0-9]+$/.test(input)) {" +:+ nl
  +:+ "  throw new Error(" +:+ Worker.dq +:+ "Invalid input" +:+ Worker.dq +:+ ");" +:+ nl
  +:+ "}" +:+ nl +:+ nl
  +:+ "// Output Encoding" +:+ nl
  +:+ "const safeOutput = escapeHtml(userInput);" +:+ nl
  +:+ bq +:+ bq +:+ bq +:+ nl +:+ nl
  +:+ "*Note: This is a generated recommendation. Please review carefully before applying to production.*".

Definition greeting : string :=
  "I am an AI security assistant. I can help you understand vulnerabilities and recommend best practices for securing your application. How can I assist you today?".

Definition callOllama (prompt : string) : string :=
  if includes prompt "fix for this" then fixAdvice else greeting.

(** [POST /api/vulnerabilities/:id/fix]: the prompt built from the
    [category] and the [description] of the vulnerability in the body,
    as the template literal renders them. *)
Definition fixPrompt (category description : string) : string :=
  "Generate a detailed fix for this " +:+ category +:+ " vulnerability: " +:+ description
  +:+ ". Provide specific code examples and best practices.".

(** The body of the answer, [None] for the 400 sent when the request
    carries no vulnerability. *)
Definition fixRoute (vulnerability : option (string * string)) : option string :=
  match vulnerability with
  | Some (category, description) => Some (callOllama (fixPrompt category description))
  | None => None
  end.

(** [POST /api/chat]: the prompt built from the message. *)
Definition chatPrompt (message : string) : string :=
  "You are a cybersecurity expert. Answer the following security question with practical, actionable advice: "
  +:+ message.

(** The [response] stored with the chat message and sent back. *)
Definition chatRoute (message : string) : string := callOllama (chatPrompt message).

End Api.

(** ** server/web-crawler.ts: the finished crawler *)
Module CrawlerReport.
Import Crawler.

Section WithWeb.
Context {engine : JsString.CaseMapping}.
Variable parseURL : string -> option URLObj.
Variable fetch : string -> option Document.
Variable options : CrawlOptions.

(** The crawler after [new SmartWebCrawler(options).crawl(startUrl)]:
    [crawl] returns its [crawledPages]. *)
Definition crawlRun (startUrl : string) : option State :=
  match parseURL startUrl with
  | None => Some initial
  | Some urlObj =>
      crawlPage parseURL fetch options (2 + maxDepth options) startUrl 0
                {| visitedUrls := ∅; crawledPages := []; baseDomain := hostname urlObj |}
  end.

(** [getCrawlStats()] *)
Definition getCrawlStats (st : State) : Routes.CrawlStats :=
  {| Routes.cs_totalPages := length (crawledPages st);
     Routes.cs_totalForms :=
       fold_left (fun sum page => sum + length (forms page))%nat (crawledPages st) 0%nat;
     Routes.cs_totalLinks :=
       fold_left (fun sum page => sum + length (links page))%nat (crawledPages st) 0%nat;
     Routes.cs_visitedUrls := size (visitedUrls st);
     Routes.cs_maxDepthReached :=
       fold_right Nat.max 0%nat (map depth (crawledPages st)) |}.

End WithWeb.
End CrawlerReport.

(** ** Vocabulary of the properties

    The predicates and invariants the statements below are written with. *)

(** *** Crawler *)
Module CrawlerInvariants.
Import JsString Crawler.

Section WithWeb.
Context {engine : JsString.CaseMapping}.
Variable parseURL : string -> option URLObj.
Variable options : CrawlOptions.

(** A page the crawler may append while its base domain is [base]. *)
Definition admissible (base : string) (p : CrawledPage) : Prop :=
  shouldCrawlUrl parseURL options base (url p) = true /\
  (depth p <= maxDepth options)%nat.

(** What one call of [crawlPage] may do to the crawler. *)
Definition extends (st st' : State) : Prop :=
  baseDomain st' = baseDomain st /\
  (length (crawledPages st') <= Nat.max (length (crawledPages st)) (maxPages options))%nat /\
  exists new, crawledPages st' = crawledPages st ++ new
              /\ Forall (admissible (baseDomain st)) new.

End WithWeb.
End CrawlerInvariants.

(** *** Page scanner *)
Module ScanTrace.
Import JsString Worker.

Section WithEnvironment.
Context {engine : JsString.CaseMapping}.
Variable network : list Request -> Request -> Transport.
Variable stamp : nat -> string.
Variable resolveURL : string -> string -> option string.
Variable encodeParams : list (string * string) -> string.
Variable setSearchParam : string -> string -> string -> string.

(** The probe of the XSS test for one payload. *)
Definition xssProbe (method targetUrl : string) (inputs : list Element)
           (inputName payload : string) : Request :=
  probe encodeParams method targetUrl (fillParams inputs inputName payload "test").

(** Whether the response to [req], sent after [history], echoes [payload]. *)
Definition echoes (history : list Request) (req : Request) (payload : string) : bool :=
  match fetchOutcome (network history req) with
  | inl res => containsPayload (data res) payload
  | inr _ => false
  end.

(** The state after a probe that was sent and counted. *)
Definition probed (req : Request) (r : Run) : Run :=
  {| result := result (countEndpoint r); sent := sent r ++ [req]; drawn := drawn r |}.

(** [emits P f]: running [f] only appends findings, all of them in [P]. *)
Definition emits (P : Vulnerability -> Prop) (f : Run -> Run) : Prop :=
  forall r, exists fs,
    vulnerabilities (result (f r)) = vulnerabilities (result r) ++ fs /\ Forall P fs.

Inductive Detector := D1 | D2 | D3 | D4 | D5 | D6 | D7.

(** The detector a finding comes from, read off its name. *)
Definition detector (v : Vulnerability) : option Detector :=
  if String.eqb (name v) "Reflected XSS" then Some D1
  else if String.eqb (name v) "Reflected XSS (URL)" then Some D2
  else if String.eqb (name v) "SQL Injection" then Some D3
  else if String.eqb (name v) "SQL Injection (URL)" then Some D4
  else if String.eqb (name v) "Cross-Site Request Forgery (CSRF)" then Some D5
  else if String.eqb (name v) "Potential DOM XSS" then Some D6
  else if String.eqb (name v) "Server Header Disclosure" then Some D7
  else if String.eqb (name v) "Database Error Disclosure" then Some D7
  else None.

(** The finding comes from one of the detectors [ds]. *)
Definition from (ds : list Detector) (v : Vulnerability) : Prop :=
  exists d, detector v = Some d /\ In d ds.

(** [appends f S]: running [f] only appends findings, of the shape [S]. *)
Definition appends (f : Run -> Run) (S : list Vulnerability -> Prop) : Prop :=
  forall r, exists fs,
    vulnerabilities (result (f r)) = vulnerabilities (result r) ++ fs /\ S fs.

(** *** Forms as the specification describes them

    The definitions of this part follow the specification (its data
    model of a form and its detectors D1, D3 and D5) and use none of
    the scanner's own functions. *)

(** Form.method: the [method] attribute, GET when there is none,
    upper-cased. *)
Definition methodOf (form : FormEl) : string :=
  toUpperCase (match method_attr form with
               | Some m => if String.eqb m "" then "GET" else m
               | None => "GET"
               end).

(** Form.action: the [action] attribute, the page URL when there is
    none, resolved against the page URL; the page URL again when that
    gives no URL. *)
Definition actionOf (page : string) (form : FormEl) : string :=
  let target := match action_attr form with
                | Some a => if String.eqb a "" then page else a
                | None => page
                end in
  match resolveURL target page with
  | Some href => href
  | None => page
  end.

(** FormInput.type, lower-cased, is [t]. *)
Definition hasType (t : string) (e : Element) : bool :=
  match type_attr e with
  | Some v => String.eqb (toLowerCase v) t
  | None => false
  end.

(** FormInput.name contains [s]. *)
Definition nameContains (s : string) (e : Element) : bool :=
  match name_attr e with
  | Some v => includes v s
  | None => false
  end.

(** A sensitive input: of type password, or named after password or
    email. *)
Definition sensitive (e : Element) : bool :=
  match tag e with
  | input => hasType "password" e || nameContains "password" e || nameContains "email" e
  | _ => false
  end.

(** A hidden input whose name contains csrf or token. *)
Definition hiddenToken (e : Element) : bool :=
  match tag e with
  | input => hasType "hidden" e && (nameContains "csrf" e || nameContains "token" e)
  | _ => false
  end.

(** D5: a POST form with a sensitive input and no hidden csrf or token
    input. *)
Definition unprotected (form : FormEl) : bool :=
  String.eqb (methodOf form) "POST"
  && existsb sensitive (descendants form)
  && negb (existsb hiddenToken (descendants form)).

(** D1 and D3: the elements that are fuzzed, the inputs that are not
    hidden and the text areas, in document order. *)
Definition fuzzed (form : FormEl) : list Element :=
  List.filter (fun e => match tag e with
                        | input => negb (hasType "hidden" e)
                        | textarea => true
                        | _ => false
                        end)
              (descendants form).

(** *** The findings of a page, loop by loop *)

(** No finding, or the one finding [mk n] for the id suffix drawn. *)
Definition one_or_none (mk : nat -> Vulnerability) (fs : list Vulnerability) : Prop :=
  fs = [] \/ exists n, fs = [mk n].

(** The findings of one fuzzed element of a form sent by [method] to
    [targetUrl]: none when the element has no name; otherwise the
    finding of D1 for this input, if any, then the finding of D3 for
    this input, if any. *)
Definition input_findings (method targetUrl : string) (el : Element)
           (fs : list Vulnerability) : Prop :=
  match name_attr el with
  | Some inputName =>
      if String.eqb inputName "" then fs = []
      else exists xs ss,
          fs = xs ++ ss /\
          one_or_none (xssFinding stamp method targetUrl inputName) xs /\
          one_or_none (sqliFinding stamp method targetUrl inputName) ss
  | None => fs = []
  end.

(** The findings of one form: that of D5, if any, then those of its
    fuzzed elements, element by element in document order. *)
Definition form_findings (page : string) (form : FormEl) (fs : list Vulnerability) : Prop :=
  exists cs perInput,
    fs = cs ++ concat perInput /\
    one_or_none (csrfFinding stamp (actionOf page form)) cs /\
    Forall2 (input_findings (methodOf form) (actionOf page form)) (fuzzed form) perInput.

(** The findings of one URL parameter: that of D2, if any, then that of
    D4, if any. *)
Definition param_findings (page param : string) (fs : list Vulnerability) : Prop :=
  exists xs ss,
    fs = xs ++ ss /\
    one_or_none (urlXssFinding stamp param (setSearchParam page param xssPayload)) xs /\
    one_or_none (urlSqliFinding stamp param (setSearchParam page param sqliPayload)) ss.

(** The names of the URL parameters [scanPage] loops over. *)
Definition paramNames (searchParamNames : string -> option (list string))
           (page : string) : list string :=
  match searchParamNames page with
  | Some params => params
  | None => []
  end.

Definition csrfName : string := "Cross-Site Request Forgery (CSRF)".

Definition is_csrf (v : Vulnerability) : bool := String.eqb (name v) csrfName.

(** The condition under which [scanForm] pushes a CSRF finding. *)
Definition csrfFires (form : FormEl) : bool :=
  String.eqb (formMethod form) "POST"
  && (0 <? length (sensitiveInputs form))%nat
  && (length (csrfTokens form) =? 0)%nat.

(** Name, severity, category and location of a finding. *)
Definition brief (v : Vulnerability) : string * Severity * Category * string :=
  (name v, severity v, category v, location v).

(** What the specification expects of the finding of D5 for a form. *)
Definition csrfBrief (page : string) (form : FormEl) : string * Severity * Category * string :=
  ("Cross-Site Request Forgery (CSRF)", Medium, CSRF, "POST " +:+ actionOf page form).

End WithEnvironment.
End ScanTrace.

(** *** Progress events *)
Module ProgressInvariants.
Import Progress.

(** The fields the events are ordered by, apart from [pagesScanned]. *)
Definition steady_le (a b : ScanProgress) : Prop :=
  (vulnerabilitiesFound a <= vulnerabilitiesFound b)%nat /\
  (formsFound a <= formsFound b)%nat /\
  (endpointsTested a <= endpointsTested b)%nat /\
  (progress a <= progress b)%nat.

(** The server holds [p] for the scan [sid] and what it broadcast so far
    is ordered and below [p]. *)
Definition ordered_upto (sid : string) (s : Server) (p : ScanProgress) : Prop :=
  scanProgress s !! sid = Some p /\
  scanId p = sid /\
  StronglySorted steady_le (broadcast s) /\
  Forall (fun e => steady_le e p) (broadcast s).

(** A scan still crawling: no counter reported yet, progress from the
    pages found. *)
Definition crawl_state (p : ScanProgress) : Prop :=
  vulnerabilitiesFound p = 0%nat /\ formsFound p = 0%nat /\ endpointsTested p = 0%nat /\
  (pagesScanned p <= totalPages p)%nat /\
  progress p = round_ratio (pagesScanned p * 30) (Nat.max (totalPages p) 1).

(** [p] lies below whatever a scanning update with counters at least
    [lo] produces. *)
Definition below (p : ScanProgress) (lo : Counters) : Prop :=
  let '(s0, v0, f0, e0) := lo in
  (vulnerabilitiesFound p <= v0)%nat /\ (formsFound p <= f0)%nat /\
  (endpointsTested p <= e0)%nat /\
  (progress p <= round_ratio (30 * Nat.max (totalPages p) 1 + s0 * 70)
                             (Nat.max (totalPages p) 1))%nat.

(** The count a call reports in [pagesScanned]. *)
Definition reported (c : Call) : nat :=
  match c with
  | CrawlingProgress pagesFound => pagesFound
  | ScanningProgress scanned _ _ _ => scanned
  end.

(** The order of the pool's events: every counter and the progress. *)
Definition pool_le (a b : PoolProgress) : Prop :=
  (pp_pagesScanned a <= pp_pagesScanned b)%nat /\
  (pp_vulnerabilitiesFound a <= pp_vulnerabilitiesFound b)%nat /\
  (pp_formsFound a <= pp_formsFound b)%nat /\
  (pp_endpointsTested a <= pp_endpointsTested b)%nat /\
  (pp_progress a <= pp_progress b)%nat.

(** The progress an event of the state [st] carries. *)
Definition percent (st : ScanState) : nat :=
  if (0 <? st_totalPages st)%nat
  then round_ratio (st_pagesScanned st * 100) (st_totalPages st)
  else 0%nat.

Definition at_most (e : PoolProgress) (st : ScanState) : Prop :=
  (pp_pagesScanned e <= st_pagesScanned st)%nat /\
  (pp_vulnerabilitiesFound e <= st_vulnerabilitiesFound st)%nat /\
  (pp_formsFound e <= st_formsFound st)%nat /\
  (pp_endpointsTested e <= st_endpointsTested st)%nat /\
  (pp_progress e <= percent st)%nat.

(** The order of the pool's events in the four counters alone. *)
Definition counts_le (a b : PoolProgress) : Prop :=
  (pp_pagesScanned a <= pp_pagesScanned b)%nat /\
  (pp_vulnerabilitiesFound a <= pp_vulnerabilitiesFound b)%nat /\
  (pp_formsFound a <= pp_formsFound b)%nat /\
  (pp_endpointsTested a <= pp_endpointsTested b)%nat.

Definition counts_at_most (e : PoolProgress) (st : ScanState) : Prop :=
  (pp_pagesScanned e <= st_pagesScanned st)%nat /\
  (pp_vulnerabilitiesFound e <= st_vulnerabilitiesFound st)%nat /\
  (pp_formsFound e <= st_formsFound st)%nat /\
  (pp_endpointsTested e <= st_endpointsTested st)%nat.

(** The pool holds the one state object [st] of the scan [sid], still
    registered or already dropped; its events so far never decrease in
    the counters and are at most [st]; those after the first [skip] of
    them are ordered in the progress as well. *)
Definition pool_ordered (sid : string) (skip : nat) (p : Pool) (st : ScanState) : Prop :=
  objects p = [st] /\
  (scanStates p = {[sid := 0%nat]} \/ scanStates p = ∅) /\
  (st_pagesScanned st <= st_totalPages st)%nat /\
  (skip <= length (emitted p))%nat /\
  StronglySorted counts_le (emitted p) /\
  Forall (fun e => counts_at_most e st) (emitted p) /\
  StronglySorted pool_le (drop skip (emitted p)) /\
  Forall (fun e => at_most e st) (drop skip (emitted p)).

End ProgressInvariants.

(** *** Crawler: the shape of a finished crawl *)
Module CrawlerShape.
Import JsString Crawler.

(** [q] was linked from a page of [before] one level above it. *)
Definition has_parent (before : list CrawledPage) (q : CrawledPage) : Prop :=
  exists p, In p before /\ depth q = S (depth p) /\ In (url q) (links p).

(** Every page of [l], in order, has a parent among [before] and the
    pages of [l] ahead of it. *)
Fixpoint chained (before l : list CrawledPage) : Prop :=
  match l with
  | [] => True
  | q :: l' => has_parent before q /\ chained (before ++ [q]) l'
  end.

(** What [crawlPage(u, d)] appends: nothing, or the page [u] at depth [d]
    followed by pages discovered below it. *)
Definition rooted (u : string) (d : nat) (new : list CrawledPage) : Prop :=
  match new with
  | [] => True
  | p :: rest => url p = u /\ depth p = d /\ chained [p] rest
  end.

(** The links recorded for a page name neither the page itself nor a page
    ahead of it in the list. *)
Definition forward (pages : list CrawledPage) : Prop :=
  forall i j p q,
    (i <= j)%nat -> pages !! i = Some p -> pages !! j = Some q ->
    ~ In (url p) (links q).

Section WithWeb.
Context {engine : JsString.CaseMapping}.
Variable parseURL : string -> option URLObj.
Variable options : CrawlOptions.

(** The links of [p] are distinct and pass the scope predicate. *)
Definition clean_links (base : string) (p : CrawledPage) : Prop :=
  NoDup (links p) /\
  Forall (fun l => shouldCrawlUrl parseURL options base l = true) (links p).

(** The invariant of the crawler's state. *)
Definition good (st : State) : Prop :=
  NoDup (map url (crawledPages st)) /\
  (forall p, In p (crawledPages st) -> url p ∈ visitedUrls st) /\
  forward (crawledPages st) /\
  Forall (clean_links (baseDomain st)) (crawledPages st).

(** The scope policy, rule by rule: the URL parses; its host passes the
    host rule; its lower-cased text contains none of the exclude
    patterns; the lower-cased path ends with none of the static
    extensions; and, when there are include patterns, the URL contains
    one of them, or some relevant keyword exists and the path contains
    it or is the root or empty. *)
Definition in_scope (base u : string) : Prop :=
  exists urlObj,
    parseURL u = Some urlObj /\
    hostInScope options base (hostname urlObj) = true /\
    (forall pattern, In pattern (excludePatterns options) ->
                     includes (toLowerCase u) (toLowerCase pattern) = false) /\
    (forall ext, In ext excludedExtensions ->
                 endsWith (toLowerCase (pathname urlObj)) ext = false) /\
    (includePatterns options = [] \/
     (exists pattern, In pattern (includePatterns options) /\
                      includes (toLowerCase u) (toLowerCase pattern) = true) \/
     (exists keyword, In keyword (relevantKeywords options) /\
                      (includes (toLowerCase (pathname urlObj)) (toLowerCase keyword) = true
                       \/ toLowerCase (pathname urlObj) = "/"
                       \/ toLowerCase (pathname urlObj) = ""))).

End WithWeb.
End CrawlerShape.

(** *** Worker pool: what a scan's statistics count *)
Module PoolTally.
Import JsString Progress.










End PoolTally.

(** *** Progress server: rooms and entries *)
Module ProgressRooms.
Import Progress ProgressOps.

(** The events of [events] that went to the room of the scan [sid]. *)
Definition roomEvents (sid : string) (events : list ScanProgress) : list ScanProgress :=
  List.filter (fun e => String.eqb (scanId e) sid) events.

(** Every entry of the map sits under its own scan id and is the latest
    event of its room. *)
Definition keyed (s : Server) : Prop :=
  forall k p, scanProgress s !! k = Some p ->
              scanId p = k /\ last (roomEvents k (broadcast s)) = Some p.

(** What the clients of one scan can see of the server: the entry of the
    scan and the events of its room. *)
Definition view (sid : string) (s : Server) : option ScanProgress * list ScanProgress :=
  (scanProgress s !! sid, roomEvents sid (broadcast s)).

Definition is_cleanup (sid : string) (o : Op) : bool :=
  match o with
  | Cleanup sid' => String.eqb sid' sid
  | _ => false
  end.

Definition is_start (sid : string) (o : Op) : bool :=
  match o with
  | StartScan sid' _ => String.eqb sid' sid
  | _ => false
  end.

(** The percentage of an event is plausible: at most 30 with every
    counter at 0 while the scan is crawling, and at most 100 unless the
    event reports more scanned pages than pages in total. *)
Definition plausible (p : ScanProgress) : Prop :=
  (status p = crawling ->
   (progress p <= 30)%nat /\ vulnerabilitiesFound p = 0%nat /\ formsFound p = 0%nat /\
   endpointsTested p = 0%nat /\ (pagesScanned p <= totalPages p)%nat) /\
  ((pagesScanned p <= totalPages p)%nat -> (progress p <= 100)%nat).

Definition all_plausible (s : Server) : Prop :=
  (forall k p, scanProgress s !! k = Some p -> plausible p) /\
  Forall plausible (broadcast s).

End ProgressRooms.

(** *** Worker pool: where the tasks are *)
Module PoolLedger.
Import WorkerPool.

(** The tasks posted to a worker, with the position they went to. *)
Definition postings (es : list Effect) : list (nat * Queued) :=
  flat_map (fun e => match e with Posted position _ task => [(position, task)] | _ => [] end) es.

(** The promises of the tasks posted so far, oldest first. *)
Definition posted (p : Pool) : list nat := map (fun x => q_promise (snd x)) (postings (effects p)).

(** The promises settled so far, resolved or rejected. *)
Definition settlements (es : list Effect) : list nat :=
  flat_map (fun e => match e with
                     | Resolved promise => [promise]
                     | Rejected promise _ => [promise]
                     | _ => []
                     end) es.

Definition settled (p : Pool) : list nat := settlements (effects p).

(** The promises of the tasks still in the queue. *)
Definition queued (p : Pool) : list nat := map q_promise (taskQueue p).

Definition is_message (e : Event) : bool :=
  match e with WorkerMessage _ => true | _ => false end.

(** The bookkeeping of the pool is sound: the counter is within the
    limit; no task is at two places; every promise handed out is
    accounted for; a task under an active key has been posted and is
    not settled. *)
Definition accounted (limit : nat) (p : Pool) : Prop :=
  (requestCount p <= limit)%nat /\
  NoDup (queued p ++ posted p) /\
  NoDup (settled p) /\
  (forall n, (n < promises p)%nat <-> n ∈ queued p \/ n ∈ posted p \/ n ∈ settled p) /\
  (forall n, n ∈ queued p -> n ∉ settled p) /\
  (forall k t, activeTasks p !! k = Some t ->
               q_promise t ∈ posted p /\ (q_promise t ∉ settled p) /\
               forall k' t', activeTasks p !! k' = Some t' ->
                             q_promise t' = q_promise t -> k' = k).

(** The order of the queue: higher rank first, and among tasks of equal
    rank the one added first. *)
Definition before (a b : Queued) : Prop :=
  (rank b < rank a)%Z \/ (rank a = rank b /\ (q_promise a < q_promise b)%nat).



(** The event comes from a worker thread of the pool: the ids the
    threads are created with are below [workerCount]. *)
Definition genuine (workerCount : nat) (e : Event) : Prop :=
  match e with
  | WorkerMessage r => (wr_workerId r < workerCount)%nat
  | WorkerExit index _ => (index < workerCount)%nat
  | _ => True
  end.

(** Every worker thread reports an id below [workerCount], and every
    task posted to a position past the original workers, to a thread
    that reports such an id, is still under the active key of that
    position. *)
Definition held (workerCount : nat) (p : Pool) : Prop :=
  Forall (fun w => forall workerId, w = Some workerId -> (workerId < workerCount)%nat)
         (workers p) /\
  forall position workerId task,
    Posted position workerId task ∈ effects p ->
    (workerId < workerCount)%nat /\
    ((workerCount <= position)%nat -> activeTasks p !! position = Some task).

(** The tasks posted beyond what the results received account for. *)
Definition in_flight_le (extra : nat) (p p' : Pool) : Prop :=
  (length (posted p') + requestCount p <= length (posted p) + requestCount p' + extra)%nat.

(** *** Worker pool: the discipline of the dispatch *)

(** Of two tasks of equal rank, the first was added first. *)
Definition fifo (a b : Queued) : Prop :=
  rank a = rank b -> (q_promise a < q_promise b)%nat.

(** The tasks posted so far, oldest first. *)
Definition postedTasks (p : Pool) : list Queued := map snd (postings (effects p)).

(** Tasks of equal rank are lined up by age: in the queue, among the
    tasks posted, and from the posted ones to the queued ones. *)
Definition lined_up (p : Pool) : Prop :=
  StronglySorted fifo (taskQueue p) /\
  StronglySorted fifo (postedTasks p) /\
  (forall t u, t ∈ postedTasks p -> u ∈ taskQueue p -> fifo t u) /\
  (forall t, t ∈ postedTasks p \/ t ∈ taskQueue p -> (q_promise t < promises p)%nat).

(** Two consecutive readings of the clock are less than [delay] apart. *)
Definition ticking (clock : nat -> Z) (delay : Z) : Prop :=
  forall n, (clock (S n) - clock n < delay)%Z.

(** A request is out and the clock was last read for it. *)
Definition hot (clock : nat -> Z) (p : Pool) : Prop :=
  (0 < requestCount p)%nat /\
  exists k, reads p = S k /\ lastRequestTime p = clock k.

End PoolLedger.

(** *** Page scanner: accounting of requests and findings *)
Module ScanAccounting.
Import JsString Worker ScanTrace.

(** [f] only appends requests, counts one endpoint for each of them and
    leaves the number of forms and the page URL of the result alone. *)
Definition metered (f : Run -> Run) : Prop :=
  forall r,
    (exists probes,
        sent (f r) = sent r ++ probes /\
        endpointsTested (result (f r)) = (endpointsTested (result r) + length probes)%nat) /\
    formsFound (result (f r)) = formsFound (result r) /\
    pageUrl (result (f r)) = pageUrl (result r).

(** [f] only appends findings and counts at most [k] endpoints, and
    exactly [k] when it appends no finding. *)
Definition tight (k : nat) (f : Run -> Run) : Prop :=
  forall r, exists fs,
    vulnerabilities (result (f r)) = vulnerabilities (result r) ++ fs /\
    (endpointsTested (result (f r)) <= endpointsTested (result r) + k)%nat /\
    (fs = [] -> endpointsTested (result (f r)) = (endpointsTested (result r) + k)%nat).

(** Whether the fuzzing loop tests the element: it has a non-empty name. *)
Definition named (el : Element) : bool := truthy (name_attr el).

(** The inputs of a form the fuzzing loop tests. *)
Definition testedInputs {engine : CaseMapping} (form : FormEl) : list Element :=
  List.filter named (fuzzInputs form).

(** The most probes a page with these forms and [params] URL parameters
    can cost: every payload of both corpora for every tested input, and
    two requests for every parameter. *)
Definition probeBudget {engine : CaseMapping} (forms : list FormEl) (params : nat) : nat :=
  ((length XSS_PAYLOADS + length SQL_PAYLOADS)
   * length (flat_map testedInputs forms) + 2 * params)%nat.

(** Whether a script holds one of the two DOM sinks. *)
Definition hasSink (s : string) : bool :=
  includes s "innerHTML" || includes s "document.write".

(** Whether the finding bears the name [nm]. *)
Definition is_named (nm : string) (v : Vulnerability) : bool := String.eqb (name v) nm.

(** What a form input costs: both corpora when it is tested. *)
Definition inputCost (el : Element) : nat :=
  if named el then (length XSS_PAYLOADS + length SQL_PAYLOADS)%nat else 0%nat.

Section WithEnvironment.
Context {engine : JsString.CaseMapping}.
Variable network : list Request -> Request -> Transport.
Variable stamp : nat -> string.
Variable cheerio_load : string -> Dom.
Variable resolveURL : string -> string -> option string.
Variable encodeParams : list (string * string) -> string.
Variable searchParamNames : string -> option (list string).
Variable setSearchParam : string -> string -> string -> string.

(** What [scanPage] runs on a text body after the first fetch: the
    form loop, the URL parameters and the two passive checks. *)
Definition phases (page : string) (resp : Response) (html : string) (r : Run) : Run :=
  infoDisclosure stamp page resp html
    (domXssCheck stamp page (dom_scripts (cheerio_load html))
       (scanUrlParameters network stamp searchParamNames setSearchParam page
          (fold_left (fun acc form =>
                        scanForm network stamp resolveURL encodeParams page form acc)
                     (dom_forms (cheerio_load html)) r))).

(** The forms [scanPage] finds on the page: those of the parsed body
    when the first fetch returns text, none otherwise. *)
Definition parsedForms (page : string) (history : list Request) : list FormEl :=
  match fetchOutcome (network history (get page)) with
  | inl resp =>
      match data resp with
      | Text html => dom_forms (cheerio_load html)
      | NotText => []
      end
  | inr _ => []
  end.

(** The number of query parameters [scanPage] iterates over. *)
Definition paramCount (page : string) : nat :=
  match searchParamNames page with
  | Some params => length params
  | None => 0%nat
  end.

(** The probe of the SQL test for one payload. *)
Definition sqlProbe (method targetUrl : string) (inputs : list Element)
           (inputName payload : string) : Request :=
  probe encodeParams method targetUrl (fillParams inputs inputName payload "1").

(** Whether the response to [req], sent after [history], shows a
    database error. *)
Definition leaks (history : list Request) (req : Request) : bool :=
  match fetchOutcome (network history req) with
  | inl res => containsSQLError (data res)
  | inr _ => false
  end.

End WithEnvironment.
End ScanAccounting.

(** ** Concrete inputs

    A small target site and a few runs, used to evaluate the models. *)
Module Examples.
Import JsString.

(** *** Case mappings on ASCII text

  The inputs of the examples are ASCII, where the engine's mappings fold
  the letters a to z and nothing else. *)

Definition lower_ascii (c : ascii) : ascii :=
let n := nat_of_ascii c in
if (65 <=? n)%nat && (n <=? 90)%nat then ascii_of_nat (n + 32) else c.

Definition upper_ascii (c : ascii) : ascii :=
let n := nat_of_ascii c in
if (97 <=? n)%nat && (n <=? 122)%nat then ascii_of_nat (n - 32) else c.

Fixpoint mapChars (f : ascii -> ascii) (s : string) : string :=
match s with
| EmptyString => EmptyString
| String c s' => String (f c) (mapChars f s')
end.

#[local] Instance ascii_case : CaseMapping :=
{| toLowerCase := mapChars lower_ascii; toUpperCase := mapChars upper_ascii |}.

(** *** A site for the crawler: the seed links to a login page and a user
      page, and the login page links to an admin page. *)

Definition site_urls : list (string * Crawler.URLObj) :=
[ ("http://testphp.vulnweb.com/",
   {| Crawler.hostname := "testphp.vulnweb.com"; Crawler.pathname := "/" |});
  ("http://testphp.vulnweb.com/login.php",
   {| Crawler.hostname := "testphp.vulnweb.com"; Crawler.pathname := "/login.php" |});
  ("http://testphp.vulnweb.com/userinfo.php",
   {| Crawler.hostname := "testphp.vulnweb.com"; Crawler.pathname := "/userinfo.php" |});
  ("http://testphp.vulnweb.com/admin/",
   {| Crawler.hostname := "testphp.vulnweb.com"; Crawler.pathname := "/admin/" |});
  ("http://evilvulnweb.com/",
   {| Crawler.hostname := "evilvulnweb.com"; Crawler.pathname := "/" |}) ].

Fixpoint assoc {A} (table : list (string * A)) (key : string) : option A :=
match table with
| [] => None
| (k, v) :: rest => if String.eqb k key then Some v else assoc rest key
end.

Definition site_parse (u : string) : option Crawler.URLObj := assoc site_urls u.

Definition site_pages : list (string * Crawler.Document) :=
[ ("http://testphp.vulnweb.com/",
   {| Crawler.doc_title := "Home of Acunetix Art";
      Crawler.doc_hrefs := ["http://testphp.vulnweb.com/login.php";
                            "http://testphp.vulnweb.com/userinfo.php"];
      Crawler.doc_forms := [] |});
  ("http://testphp.vulnweb.com/login.php",
   {| Crawler.doc_title := "login page";
      Crawler.doc_hrefs := ["http://testphp.vulnweb.com/admin/"];
      Crawler.doc_forms := [] |});
  ("http://testphp.vulnweb.com/userinfo.php",
   {| Crawler.doc_title := "user info";
      Crawler.doc_hrefs := [];
      Crawler.doc_forms := [] |});
  ("http://testphp.vulnweb.com/admin/",
   {| Crawler.doc_title := "";
      Crawler.doc_hrefs := [];
      Crawler.doc_forms := [] |}) ].

Definition site_fetch (u : string) : option Crawler.Document := assoc site_pages u.

(** *** A target for the page scanner *)

Definition searchHtml : string :=
"<html><body>Results for foo<script>document.write(q)</script></body></html>".

Definition echoHtml : string :=
"<html><body>Results for " +:+ Worker.xssPayload
+:+ "<script>document.write(q)</script></body></html>".

Definition loginHtml : string :=
"<html><body><form method=post action=/save><input type=password name=pw></form></body></html>".

Definition xssUrl : string :=
"http://t/search?q=%3Cscript%3Ealert%28%22XSS%22%29%3C%2Fscript%3E".

Definition ok (body : Worker.Body) : Worker.Transport :=
Worker.Replied {| Worker.status := 200; Worker.server := None; Worker.data := body |}.

(** The target answers by URL alone: the search page echoes its parameter,
  the API answers in JSON, one host is down. *)
Definition demo_network (history : list Worker.Request) (req : Worker.Request)
: Worker.Transport :=
let u := Worker.req_url req in
if String.eqb u xssUrl then ok (Worker.Text echoHtml)
else if String.eqb u "http://t/login" then ok (Worker.Text loginHtml)
else if String.eqb u "http://t/save" then ok (Worker.Text "saved")
else if String.eqb u "http://t/api/users" then ok Worker.NotText
else if String.eqb u "http://down/" then Worker.NoReply "connect ECONNREFUSED"
else ok (Worker.Text searchHtml).

Definition loginForm : Worker.FormEl :=
{| Worker.action_attr := Some "/save";
   Worker.method_attr := Some "post";
   Worker.descendants :=
     [ {| Worker.tag := Worker.input;
          Worker.type_attr := Some "password";
          Worker.name_attr := Some "pw" |} ] |}.

Definition demo_cheerio (html : string) : Worker.Dom :=
if String.eqb html loginHtml
then {| Worker.dom_forms := [loginForm]; Worker.dom_scripts := [] |}
else if String.eqb html searchHtml
then {| Worker.dom_forms := []; Worker.dom_scripts := ["document.write(q)"] |}
else {| Worker.dom_forms := []; Worker.dom_scripts := [] |}.

Definition demo_resolve (action base : string) : option string :=
if String.eqb action "/save" then Some "http://t/save" else Some action.

Definition demo_encode (params : list (string * string)) : string :=
String.concat "&" (map (fun kv => fst kv +:+ "=" +:+ snd kv) params).

Definition demo_params (u : string) : option (list string) :=
if String.eqb u "http://t/search?q=foo" then Some ["q"] else Some [].

Definition demo_setParam (u param value : string) : string :=
if String.eqb value Worker.xssPayload then xssUrl else "http://t/search?q=%27".

Definition demo_stamp (n : nat) : string := String (ascii_of_nat (48 + n)) EmptyString.

Definition demo_scanPage (page : string) : Worker.ScanOutcome * Worker.Run :=
Worker.scanPage demo_network demo_stamp demo_cheerio demo_resolve demo_encode
                demo_params demo_setParam page [] 0.

(** A response of status 503. *)
Definition unavailable : Worker.Response :=
{| Worker.status := 503; Worker.server := None;
   Worker.data := Worker.Text "Service Unavailable" |}.

(** *** A scan whose seed is down *)

(** The scanner rejects with the message of the failed seed fetch and
  leaves the progress server as it found it. *)
Definition down_scanner (target sid : string) (ws : option Progress.Server)
: (Routes.ScanResult + string) * option Progress.Server :=
(inr "connect ECONNREFUSED", ws).

(** *** Worker results of a pool scan of three pages *)

Definition three_results : list (string * option Progress.ResultData) :=
[ ("scan-1::page-0", Some {| Progress.rd_vulnerabilities := Some 0%nat;
                             Progress.rd_formsFound := Some 0%nat;
                             Progress.rd_endpointsTested := Some 0%nat |});
  ("scan-1::page-1", None);
  ("scan-1::page-2", Some {| Progress.rd_vulnerabilities := Some 1%nat;
                             Progress.rd_formsFound := Some 1%nat;
                             Progress.rd_endpointsTested := Some 19%nat |}) ].

(** A process with an empty storage and a fresh progress server. *)
Definition idle : Routes.World :=
{| Routes.db := ∅; Routes.wsServer := Some Progress.initialServer |}.

End Examples.

(** *** Two more targets for the page scanner *)
Module Targets.
Import JsString Worker.
(* The examples are ASCII text. *)
#[local] Existing Instance Examples.ascii_case.

(** A feedback form sent by GET: a text input, a textarea, a hidden
    input, an unnamed submit button and a select. *)
Definition feedbackForm : FormEl :=
  {| action_attr := Some "/feedback";
     method_attr := None;
     descendants :=
       [ {| tag := input; type_attr := Some "text"; name_attr := Some "q" |};
         {| tag := textarea; type_attr := None; name_attr := Some "msg" |};
         {| tag := input; type_attr := Some "hidden"; name_attr := Some "sid" |};
         {| tag := input; type_attr := Some "submit"; name_attr := None |};
         {| tag := select; type_attr := None; name_attr := Some "topic" |} ] |}.

(** A target that answers every request with the same harmless page. *)
Definition quiet_network (history : list Request) (req : Request) : Transport :=
  Replied {| status := 200; server := None; data := Text "<html>thanks</html>" |}.

Definition quiet_cheerio (html : string) : Dom :=
  {| dom_forms := [feedbackForm]; dom_scripts := ["console.log(1)"] |}.

Definition quiet_resolve (action base : string) : option string :=
  Some ("http://q" +:+ action).

Definition quiet_params (u : string) : option (list string) := Some ["id"].

Definition quiet_setParam (u param value : string) : string :=
  "http://q/feedback?" +:+ param +:+ "=" +:+ value.

Definition quiet_scanPage (page : string) : ScanOutcome * Run :=
  scanPage quiet_network Examples.demo_stamp quiet_cheerio quiet_resolve
           Examples.demo_encode quiet_params quiet_setParam page [] 0.

(** A target that fails with status 500, names its server and shows a
    database warning. *)
Definition leakyHtml : string :=
  "<html>Warning: mysql_connect() failed<script>el.innerHTML = x</script></html>".

Definition leaky : Response :=
  {| status := 500; server := Some "Apache/2.2.8"; data := Text leakyHtml |}.

Definition leaky_network (history : list Request) (req : Request) : Transport :=
  Replied leaky.

Definition leaky_cheerio (html : string) : Dom :=
  {| dom_forms := [];
     dom_scripts := ["el.innerHTML = x"; "var a = 1"; "document.write(a)"] |}.

Definition leaky_scanPage (page : string) : ScanOutcome * Run :=
  scanPage leaky_network Examples.demo_stamp leaky_cheerio Examples.demo_resolve
           Examples.demo_encode Examples.demo_params Examples.demo_setParam page [] 0.

End Targets.

(** *** A scan that succeeds *)
Module Scans.
Import Routes.

Definition finding : Worker.Vulnerability :=
  Worker.dbErrorFinding Examples.demo_stamp "http://shop/" 0.

(** A scanner that resolves with one finding on three pages, two forms
    and forty endpoints, and leaves the progress server alone. *)
Definition fine_scanner (target sid : string) (ws : option Progress.Server)
  : (ScanResult + string) * option Progress.Server :=
  (inl {| r_vulnerabilities := [finding]; r_pagesScanned := 3; r_formsFound := 2;
          r_endpointsTested := 40; r_crawlStats := None |}, ws).

End Scans.

(** *** Runs of the worker pool *)
Module PoolRuns.
Import WorkerPool.

(** A clock that advances by a second at every reading. *)
Definition slow_clock (n : nat) : Z := (1000 * Z.of_nat n)%Z.

Definition never_throws (task : Queued) : option string := None.

Definition scanTask (taskId : string) (priority : option Z) : Task :=
  {| t_id := Some taskId; t_type := "scan"; t_data := None; t_priority := priority |}.

Definition succeeded (taskId : string) (workerId : nat) : WorkerResult :=
  {| wr_taskId := Some taskId; wr_success := true; wr_data := None;
     wr_error := None; wr_workerId := workerId |}.

(** A pool of [workerCount] workers with the default delay and limit. *)
Definition pool (workerCount : nat) (events : list Event) : Pool :=
  run 500 10 slow_clock never_throws events (initial workerCount).

(** The only worker crashes; a task is then given to its replacement,
    which answers; a second task follows. *)
Definition crash_then_scan : list Event :=
  [ WorkerExit 0 1;
    AddTask (scanTask "s::page-0" (Some 1%Z));
    WorkerMessage (succeeded "s::page-0" 0);
    AddTask (scanTask "s::page-1" (Some 1%Z));
    TimerRetry ].


End PoolRuns.

(** *** A page task on its way through the pool *)
Module PageTask.
Import WorkerPool.

Definition saveTask : Task :=
  {| t_id := Some "s::page-0"; t_type := "scan";
     t_data := Some {| WorkerMessages.td_url := Some "http://t/save" |};
     t_priority := Some 1%Z |}.

(** The pool of one worker after the task was added: the task is with
    the worker. *)
Definition busy : Pool := PoolRuns.pool 1 [AddTask saveTask].

End PageTask.

(** *** A pool whose clock barely moves *)
Module QuickTurns.
Import WorkerPool.

(** A clock that advances by a millisecond at every reading. *)
Definition fast_clock (n : nat) : Z := Z.of_nat n.

(** Two workers and two tasks: the first task is posted at once, the
    second waits for the rate limit. *)
Definition waiting : Pool :=
  run 500 10 fast_clock PoolRuns.never_throws
      [ AddTask (PoolRuns.scanTask "a" (Some 1%Z));
        AddTask (PoolRuns.scanTask "b" (Some 1%Z)) ]
      (initial 2).

End QuickTurns.

(** * Properties *)

(** ** The crawler stays within its bounds *)
Module CrawlerBounds.
Import JsString Crawler CrawlerInvariants.

Section WithWeb.
Context {engine : JsString.CaseMapping}.
Variable parseURL : string -> option URLObj.
Variable fetch : string -> option Document.
Variable options : CrawlOptions.

Local Abbreviation crawlPage := (Crawler.crawlPage parseURL fetch options).
Local Abbreviation crawlLinks := (Crawler.crawlLinks options).
Local Abbreviation admissible := (CrawlerInvariants.admissible parseURL options).
Local Abbreviation extends := (CrawlerInvariants.extends parseURL options).

Lemma extends_refl st : extends st st.
Proof.
  repeat split; [lia |].
  exists []. split; [by rewrite app_nil_r | constructor].
Qed.

Lemma extends_trans st1 st2 st3 :
  extends st1 st2 -> extends st2 st3 -> extends st1 st3.
Proof.
  intros (Hb1 & Hl1 & n1 & Hp1 & Hf1) (Hb2 & Hl2 & n2 & Hp2 & Hf2).
  repeat split; [congruence | lia |].
  exists (n1 ++ n2). split.
  - rewrite Hp2, Hp1. by rewrite <- app_assoc.
  - apply Forall_app. split; [done |]. by rewrite <- Hb1.
Qed.

Lemma extends_visit u st : extends st (visit u st).
Proof. apply (extends_refl st). Qed.

Lemma crawlLinks_extends rec ls :
  (forall link st st', rec link st = Some st' -> extends st st') ->
  forall st st', crawlLinks rec ls st = Some st' -> extends st st'.
Proof.
  intros Hrec. induction ls as [| link rest IH]; intros st st' H; simpl in H.
  - injection H as <-. apply extends_refl.
  - destruct (_ && _).
    + destruct (rec link st) as [st1 |] eqn:E; [| discriminate].
      eapply extends_trans; [by eapply Hrec | by apply IH].
    + by apply IH.
Qed.

Lemma crawlPage_extends fuel :
  forall u d st st', crawlPage fuel u d st = Some st' -> extends st st'.
Proof.
  induction fuel as [| fuel IH]; intros u d st st' H; simpl in H; [discriminate |].
  destruct (maxDepth options <? d)%nat eqn:Hd;
    [injection H as <-; apply extends_refl |].
  destruct (bool_decide (u ∈ visitedUrls st));
    [injection H as <-; apply extends_refl |].
  destruct (maxPages options <=? length (crawledPages st))%nat eqn:Hn;
    [injection H as <-; apply extends_refl |].
  destruct (shouldCrawlUrl parseURL options (baseDomain st) u) eqn:Hs; simpl in H;
    [| injection H as <-; apply extends_refl].
  destruct (fetch u) as [doc |]; [| injection H as <-; apply extends_visit].
  apply Nat.ltb_ge in Hd. apply Nat.leb_gt in Hn.
  eapply extends_trans; [| eapply crawlLinks_extends; [| exact H]].
  - repeat split; simpl.
    + rewrite length_app. simpl. lia.
    + eexists. split; [reflexivity |].
      constructor; [| constructor]. split; simpl; [exact Hs | exact Hd].
  - intros link s s' Hr. exact (IH _ _ _ _ Hr).
Qed.

Lemma crawlLinks_returns rec ls :
  (forall link st, is_Some (rec link st)) ->
  forall st, is_Some (crawlLinks rec ls st).
Proof.
  intros Hrec. induction ls as [| link rest IH]; intros st; simpl; [by eexists |].
  destruct (_ && _); [| apply IH].
  destruct (Hrec link st) as [st1 ->]. apply IH.
Qed.

(** [crawlPage] returns whenever the fuel covers the levels left. *)
Lemma crawlPage_returns fuel :
  forall u d st, (maxDepth options < fuel + d)%nat ->
                 is_Some (crawlPage (S fuel) u d st).
Proof.
  induction fuel as [| fuel IH]; intros u d st Hf.
  - apply Nat.ltb_lt in Hf. simpl in *. rewrite Hf. by eexists.
  - cbn [Crawler.crawlPage].
    repeat (match goal with |- is_Some (if ?b then _ else _) => destruct b end;
            [by eexists |]).
    destruct (fetch u); [| by eexists].
    apply crawlLinks_returns. intros link s. apply IH. lia.
Qed.

(** C2: a crawl with parameters [maxDepth] and [maxPages] returns, and
    every page of its result list passes the scope predicate
    [shouldCrawlUrl] for the seed's host, lies at depth at most
    [maxDepth], and the list holds at most [maxPages] pages (the list
    only grows by appending, so this bounds it at every moment of the
    crawl); with [maxPages = 0] the result is the empty list. *)
Theorem crawl_within_bounds (startUrl : string) :
  exists pages,
    crawl parseURL fetch options startUrl = Some pages /\
    (length pages <= maxPages options)%nat /\
    Forall (fun p => exists seed,
                parseURL startUrl = Some seed /\
                shouldCrawlUrl parseURL options (hostname seed) (url p) = true /\
                (depth p <= maxDepth options)%nat) pages /\
    (maxPages options = 0%nat -> pages = []).
Proof.
  unfold crawl, crawlFrom.
  destruct (parseURL startUrl) as [seed |] eqn:Hseed.
  - simpl visitedUrls. simpl crawledPages.
    set (st0 := {| visitedUrls := ∅; crawledPages := []; baseDomain := hostname seed |}).
    destruct (crawlPage_returns (S (maxDepth options)) startUrl 0 st0) as [st' Hst'];
      [lia |].
    change (2 + maxDepth options)%nat with (S (S (maxDepth options))).
    rewrite Hst'.
    destruct (crawlPage_extends _ _ _ _ _ Hst') as (_ & Hlen & new & Hnew & Hadm).
    simpl in Hlen, Hnew, Hadm. subst new.
    exists (crawledPages st'). repeat split.
    + lia.
    + eapply Forall_impl; [exact Hadm |].
      intros p [Hs Hd]. exists seed. by repeat split.
    + intros Hz. rewrite Hz in Hlen. simpl in Hlen.
      destruct (crawledPages st'); [done | simpl in Hlen; lia].
  - exists []. simpl. repeat split; [lia | constructor].
Qed.

End WithWeb.
End CrawlerBounds.

(** ** The crawler on a concrete site *)
Module CrawlerRuns.
Import JsString Crawler Examples.
(* The examples are ASCII text. *)
#[local] Existing Instance ascii_case.

(** C3 fails on the code: [crawlPage] follows each link as soon as it is
    met (the recursive call is awaited inside the loop over the links), so
    the crawl is depth-first. On the example site the admin page, found at
    depth 2 below the login page, is appended before the user page of
    depth 1. *)
Theorem crawl_order_is_depth_first :
  exists pages,
    crawl site_parse site_fetch defaultOptions "http://testphp.vulnweb.com/" = Some pages /\
    map (fun p => (url p, depth p)) pages =
      [ ("http://testphp.vulnweb.com/", 0%nat);
        ("http://testphp.vulnweb.com/login.php", 1%nat);
        ("http://testphp.vulnweb.com/admin/", 2%nat);
        ("http://testphp.vulnweb.com/userinfo.php", 1%nat) ] /\
    ~ StronglySorted le (map depth pages).
Proof.
  eexists. split; [vm_compute; reflexivity |]. split; [reflexivity |].
  simpl. intros H.
  do 2 (apply StronglySorted_inv in H as [H _]).
  apply StronglySorted_inv in H as [_ H].
  apply Forall_cons in H as [H _]. lia.
Qed.

(** C4 fails on the code: the host test is [hostname.endsWith(rootDomain)]
    without a label boundary. For the seed host testphp.vulnweb.com the root
    is vulnweb.com, and the host evilvulnweb.com, which neither equals the
    root nor ends with ".vulnweb.com", passes the host test and the whole
    scope predicate. *)
Theorem host_rule_accepts_lookalike_host :
  rootDomain "testphp.vulnweb.com" = "vulnweb.com" /\
  hostInScope defaultOptions "testphp.vulnweb.com" "evilvulnweb.com" = true /\
  shouldCrawlUrl site_parse defaultOptions "testphp.vulnweb.com" "http://evilvulnweb.com/"
    = true /\
  String.eqb "evilvulnweb.com" "vulnweb.com" = false /\
  endsWith "evilvulnweb.com" ".vulnweb.com" = false.
Proof. repeat split; vm_compute; reflexivity. Qed.

End CrawlerRuns.

(** ** The fetch primitive of the worker *)
Module FetchContract.
Import JsString Worker.

(** C5 (as the code has it): [fetchPage] returns every response the
    transport delivers, whatever its status, 5xx included (the rejected
    response is returned from the [catch]); it throws exactly when there is
    no response at all, with the transport's message prefixed. *)
Theorem fetchPage_throws_only_without_response :
  (forall r, fetchOutcome (Replied r) = inl r) /\
  (forall m, fetchOutcome (NoReply m) = inr ("fetch error: " +:+ m)) /\
  (forall t, (exists msg, fetchOutcome t = inr msg) <-> (exists m, t = NoReply m)).
Proof.
  assert (Hr : forall r, fetchOutcome (Replied r) = inl r).
  { intros r. unfold fetchOutcome, axios. by destruct (status r <? 500)%Z. }
  split; [exact Hr |]. split; [done |].
  intros [r | m]; split.
  - intros [msg H]. rewrite Hr in H. discriminate.
  - intros [m H]. discriminate.
  - intros _. by exists m.
  - intros _. by eexists.
Qed.

(** C5 as stated fails: a response of status 503 is returned as a normal
    value, and no error is thrown. *)
Lemma fetchPage_returns_server_error :
  (500 <= status Examples.unavailable <= 599)%Z /\
  fetchOutcome (Replied Examples.unavailable) = inl Examples.unavailable /\
  ~ (exists msg, fetchOutcome (Replied Examples.unavailable) = inr msg).
Proof.
  split; [simpl; lia |]. split; [reflexivity |].
  intros [msg H]. discriminate.
Qed.

End FetchContract.

(** ** The page scanner *)
Module PageScanner.
Import JsString Worker ScanTrace.

Section WithEnvironment.
Context {engine : JsString.CaseMapping}.
Variable network : list Request -> Request -> Transport.
Variable stamp : nat -> string.
Variable cheerio_load : string -> Dom.
Variable resolveURL : string -> string -> option string.
Variable encodeParams : list (string * string) -> string.
Variable searchParamNames : string -> option (list string).
Variable setSearchParam : string -> string -> string -> string.

Local Abbreviation scanPage :=
  (Worker.scanPage network stamp cheerio_load resolveURL encodeParams
                   searchParamNames setSearchParam).
Local Abbreviation xssTest := (Worker.xssTest network stamp encodeParams).
Local Abbreviation sqliTest := (Worker.sqliTest network stamp encodeParams).
Local Abbreviation fetchPage := (Worker.fetchPage network).
Local Abbreviation xssProbe := (ScanTrace.xssProbe encodeParams).
Local Abbreviation echoes := (ScanTrace.echoes network).
Local Abbreviation csrfBrief := (ScanTrace.csrfBrief resolveURL).
Local Abbreviation actionOf := (ScanTrace.actionOf resolveURL).
Local Abbreviation probed := ScanTrace.probed.

(** C10: when the first fetch of a page returns a response whose body is
    not a string, [scanPage] reports success with the untouched result
    (no finding, [formsFound = 0], [endpointsTested = 0]): no detector
    runs, the passive ones included, and the only request sent is the
    first fetch itself. *)
Theorem scanPage_skips_non_text_body
        (page : string) (history : list Request) (n : nat) (resp : Response) :
  fetchOutcome (network history (get page)) = inl resp ->
  data resp = NotText ->
  scanPage page history n =
    ({| success := true; error := None;
        outcome_data := {| vulnerabilities := []; formsFound := 0;
                           endpointsTested := 0; pageUrl := page |} |},
     {| result := {| vulnerabilities := []; formsFound := 0;
                     endpointsTested := 0; pageUrl := page |};
        sent := history ++ [get page];
        drawn := n |}).
Proof.
  intros Hfetch Hbody.
  unfold Worker.scanPage, Worker.fetchPage, start. simpl.
  rewrite Hfetch, Hbody. reflexivity.
Qed.

Lemma xssTest_step method targetUrl inputs inputName payload rest r :
  xssTest method targetUrl inputs inputName (payload :: rest) r =
    let req := xssProbe method targetUrl inputs inputName payload in
    if echoes (sent r) req payload
    then pushVuln (xssFinding stamp method targetUrl inputName) (probed req r)
    else xssTest method targetUrl inputs inputName rest (probed req r).
Proof.
  cbn [Worker.xssTest]. unfold Worker.fetchPage, echoes, probed, xssProbe. simpl.
  destruct (fetchOutcome _) as [res | msg]; [| reflexivity].
  by destruct (containsPayload (data res) payload).
Qed.

(** The XSS test of one input, for any list of payloads: either no
    payload was confirmed and every probe was sent, or the probes stop at
    the first payload the response echoes, which yields the one finding. *)
Lemma xssTest_outcome method targetUrl inputs inputName payloads :
  let mk := xssProbe method targetUrl inputs inputName in
  forall r,
    let r' := xssTest method targetUrl inputs inputName payloads r in
    (vulnerabilities (result r') = vulnerabilities (result r) /\
     sent r' = sent r ++ map mk payloads /\
     forall j p, payloads !! j = Some p ->
                 echoes (sent r ++ map mk (take j payloads)) (mk p) p = false)
    \/
    (exists k payload,
        payloads !! k = Some payload /\
        sent r' = sent r ++ map mk (take (S k) payloads) /\
        echoes (sent r ++ map mk (take k payloads)) (mk payload) payload = true /\
        (forall j p, (j < k)%nat -> payloads !! j = Some p ->
                     echoes (sent r ++ map mk (take j payloads)) (mk p) p = false) /\
        vulnerabilities (result r') =
          vulnerabilities (result r)
          ++ [xssFinding stamp method targetUrl inputName (drawn r)]).
Proof.
  intros mk. induction payloads as [| payload rest IH]; intros r.
  - left. simpl. rewrite app_nil_r. repeat split. intros j p Hj. by destruct j.
  - intros r'. subst r'. rewrite xssTest_step. cbv zeta. fold mk.
    destruct (echoes (sent r) (mk payload) payload) eqn:He.
    + right. exists 0%nat, payload. simpl. rewrite app_nil_r.
      repeat split; [exact He |]. intros j p Hj. lia.
    + destruct (IH (probed (mk payload) r))
        as [(Hv & Hs & Hn) | (k & p & Hk & Hs & Hc & Hn & Hv)]; simpl in *.
      * left. repeat split; [exact Hv | by rewrite Hs, <- app_assoc |].
        intros [| j] q Hq; simpl in *.
        -- injection Hq as <-. by rewrite app_nil_r.
        -- specialize (Hn j q Hq). by rewrite <- app_assoc in Hn.
      * right. exists (S k), p. simpl.
        rewrite <- app_assoc in Hs, Hc. simpl in Hs, Hc.
        repeat split; [exact Hk | exact Hs | exact Hc | | exact Hv].
        intros [| j] q Hlt Hq; simpl in *.
        -- injection Hq as <-. by rewrite app_nil_r.
        -- specialize (Hn j q ltac:(lia) Hq). by rewrite <- app_assoc in Hn.
Qed.

(** C6: the XSS test of one form input either sends every payload of
    the corpus, in corpus order, none of whose responses contains its
    payload, and adds no finding; or it stops at the first payload of
    the corpus whose response body contains it, compared in lower case:
    no later payload is sent for that input, and exactly one finding is
    added, named "Reflected XSS", of severity High and category XSS,
    located at the method and the resolved action of the form. *)
Theorem reflected_xss_finding_sound
        (method targetUrl : string) (inputs : list Element) (inputName : string) (r : Run) :
  let mk := xssProbe method targetUrl inputs inputName in
  let r' := xssTest method targetUrl inputs inputName XSS_PAYLOADS r in
  (vulnerabilities (result r') = vulnerabilities (result r) /\
   sent r' = sent r ++ map mk XSS_PAYLOADS /\
   forall j p, XSS_PAYLOADS !! j = Some p ->
               echoes (sent r ++ map mk (take j XSS_PAYLOADS)) (mk p) p = false)
  \/
  exists k payload res body f,
    XSS_PAYLOADS !! k = Some payload /\
    sent r' = sent r ++ map mk (take (S k) XSS_PAYLOADS) /\
    fetchOutcome (network (sent r ++ map mk (take k XSS_PAYLOADS)) (mk payload)) = inl res /\
    data res = Text body /\
    includes (toLowerCase body) (toLowerCase payload) = true /\
    (forall j p, (j < k)%nat -> XSS_PAYLOADS !! j = Some p ->
                 echoes (sent r ++ map mk (take j XSS_PAYLOADS)) (mk p) p = false) /\
    vulnerabilities (result r') = vulnerabilities (result r) ++ [f] /\
    name f = "Reflected XSS" /\
    severity f = High /\
    category f = XSS /\
    location f = method +:+ " " +:+ targetUrl.
Proof.
  intros mk r'.
  destruct (xssTest_outcome method targetUrl inputs inputName XSS_PAYLOADS r)
    as [H | (k & p & Hk & Hs & Hc & Hn & Hv)]; [by left |].
  right. unfold echoes in Hc. fold mk in Hc, Hs, Hn.
  destruct (fetchOutcome _) as [res | msg] eqn:Hres; [| discriminate].
  unfold containsPayload in Hc.
  destruct (data res) as [body |] eqn:Hbody; [| discriminate].
  destruct (String.eqb body ""); [discriminate |].
  exists k, p, res, body, (xssFinding stamp method targetUrl inputName (drawn r)).
  by repeat split.
Qed.

(** *** Which detector appends what, and when *)

Lemma emits_skip P : emits P (fun r => r).
Proof. intros r. exists []. by rewrite app_nil_r. Qed.

Lemma emits_weaken (P Q : Vulnerability -> Prop) f :
  (forall v, P v -> Q v) -> emits P f -> emits Q f.
Proof.
  intros HPQ Hf r. destruct (Hf r) as (fs & Hv & HP).
  exists fs. split; [exact Hv |]. eapply Forall_impl; eauto.
Qed.

Lemma emits_seq P f g : emits P f -> emits P g -> emits P (fun r => g (f r)).
Proof.
  intros Hf Hg r. destruct (Hf r) as (fs & Hv & HP).
  destruct (Hg (f r)) as (gs & Hw & HQ).
  exists (fs ++ gs). split; [by rewrite Hw, Hv, <- app_assoc | by apply Forall_app].
Qed.

Lemma emits_loop {A} P (step : A -> Run -> Run) (l : list A) :
  (forall a, emits P (step a)) ->
  emits P (fun r => fold_left (fun acc a => step a acc) l r).
Proof.
  intros Hstep. induction l as [| a l IH]; simpl; [apply emits_skip |].
  apply (emits_seq P (step a) (fun r => fold_left (fun acc a => step a acc) l r));
    [apply Hstep | exact IH].
Qed.

Lemma emits_push P mk : (forall n, P (mk n)) -> emits P (pushVuln mk).
Proof. intros HP r. exists [mk (drawn r)]. split; [done |]. by constructor. Qed.

Lemma emits_probed P req : emits P (probed req).
Proof. intros r. exists []. simpl. by rewrite app_nil_r. Qed.

Lemma sqliTest_step method targetUrl inputs inputName payload rest r :
  sqliTest method targetUrl inputs inputName (payload :: rest) r =
    let req := probe encodeParams method targetUrl
                     (fillParams inputs inputName payload "1") in
    if match fetchOutcome (network (sent r) req) with
       | inl res => containsSQLError (data res)
       | inr _ => false
       end
    then pushVuln (sqliFinding stamp method targetUrl inputName) (probed req r)
    else sqliTest method targetUrl inputs inputName rest (probed req r).
Proof.
  cbn [Worker.sqliTest]. unfold Worker.fetchPage, probed. simpl.
  destruct (fetchOutcome _) as [res | msg]; [| reflexivity].
  by destruct (containsSQLError (data res)).
Qed.

Lemma xssTest_emits method targetUrl inputs inputName payloads :
  emits (from [D1]) (xssTest method targetUrl inputs inputName payloads).
Proof.
  induction payloads as [| payload rest IH]; [apply emits_skip |].
  intros r. rewrite xssTest_step. cbv zeta. destruct (echoes _ _ _).
  - apply (emits_seq _ (probed _) (pushVuln _)); [apply emits_probed |].
    apply emits_push. intros n. exists D1. split; [reflexivity | simpl; tauto].
  - apply (emits_seq _ (probed _) (xssTest _ _ _ _ rest)); [apply emits_probed | exact IH].
Qed.

Lemma sqliTest_emits method targetUrl inputs inputName payloads :
  emits (from [D3]) (sqliTest method targetUrl inputs inputName payloads).
Proof.
  induction payloads as [| payload rest IH]; [apply emits_skip |].
  intros r. rewrite sqliTest_step. cbv zeta.
  destruct (match fetchOutcome _ with inl _ => _ | inr _ => _ end).
  - apply (emits_seq _ (probed _) (pushVuln _)); [apply emits_probed |].
    apply emits_push. intros n. exists D3. split; [reflexivity | simpl; tauto].
  - apply (emits_seq _ (probed _) (sqliTest _ _ _ _ rest)); [apply emits_probed | exact IH].
Qed.

Lemma from_mono ds ds' v : incl ds ds' -> from ds v -> from ds' v.
Proof. intros Hsub (d & Hd & Hin). exists d. split; [exact Hd | by apply Hsub]. Qed.

Lemma fuzzInput_emits method targetUrl inputs el :
  emits (from [D1; D3])
        (fuzzInput network stamp encodeParams method targetUrl inputs el).
Proof.
  unfold fuzzInput. destruct (name_attr el) as [inputName |]; [| apply emits_skip].
  destruct (String.eqb inputName ""); [apply emits_skip |].
  apply (emits_seq _ (xssTest _ _ _ _ _) (sqliTest _ _ _ _ _)).
  - eapply emits_weaken; [| apply xssTest_emits]. intros v. apply from_mono. intros d. simpl. tauto.
  - eapply emits_weaken; [| apply sqliTest_emits]. intros v. apply from_mono. intros d. simpl. tauto.
Qed.

Lemma scanParam_emits page param :
  emits (from [D2; D4]) (scanParam network stamp setSearchParam page param).
Proof.
  intros r. unfold scanParam, Worker.fetchPage. cbv zeta.
  set (reqX := get (setSearchParam page param xssPayload)).
  set (reqS := get (setSearchParam page param sqliPayload)).
  set (r3 := match fetchOutcome (network (sent (countEndpoint r)) reqX) with
             | inl res => if containsPayload (data res) xssPayload then _ else _
             | inr _ => _
             end).
  assert (H3 : exists fs, vulnerabilities (result r3) = vulnerabilities (result r) ++ fs
                          /\ Forall (from [D2; D4]) fs).
  { subst r3. destruct (fetchOutcome _) as [res | msg].
    - destruct (containsPayload _ _).
      + eexists [_]. split; [reflexivity |]. constructor; [| constructor].
        exists D2. split; [reflexivity | simpl; tauto].
      + exists []. simpl. by rewrite app_nil_r.
    - exists []. simpl. by rewrite app_nil_r. }
  destruct H3 as (fs & Hv & HP).
  destruct (fetchOutcome (network (sent (countEndpoint r3)) reqS)) as [res | msg].
  - destruct (containsSQLError _).
    + eexists (fs ++ [_]). simpl. rewrite Hv, <- app_assoc. split; [reflexivity |].
      apply Forall_app. split; [exact HP |]. constructor; [| constructor].
      exists D4. split; [reflexivity | simpl; tauto].
    + exists fs. by simpl.
  - exists fs. by simpl.
Qed.

Lemma scanUrlParameters_emits page :
  emits (from [D2; D4])
        (scanUrlParameters network stamp searchParamNames setSearchParam page).
Proof.
  unfold scanUrlParameters. destruct (searchParamNames page); [| apply emits_skip].
  apply emits_loop. intros param. apply scanParam_emits.
Qed.

Lemma domXssCheck_emits page scripts :
  emits (from [D6]) (domXssCheck stamp page scripts).
Proof.
  unfold domXssCheck.
  apply (emits_loop _ (fun (s : string) acc =>
                         if includes s "innerHTML" || includes s "document.write"
                         then pushVuln (domXssFinding stamp page) acc else acc)).
  intros s. destruct (_ || _); [| apply emits_skip].
  apply emits_push. intros n. exists D6. split; [reflexivity | simpl; tauto].
Qed.

Lemma infoDisclosure_emits page resp html :
  emits (from [D7]) (infoDisclosure stamp page resp html).
Proof.
  unfold infoDisclosure. cbv zeta.
  apply (emits_seq _ (fun r => if truthy (server resp) then pushVuln _ r else r)
                     (fun r1 => if containsSQLError (Text html) then pushVuln _ r1 else r1)).
  - destruct (truthy _); [| apply emits_skip].
    apply emits_push. intros n. exists D7. split; [reflexivity | simpl; tauto].
  - destruct (containsSQLError _); [| apply emits_skip].
    apply emits_push. intros n. exists D7. split; [reflexivity | simpl; tauto].
Qed.

(** *** The scanner reads a form as the specification does *)

Lemma formMethod_methodOf form : formMethod form = methodOf form.
Proof. reflexivity. Qed.

Lemma formTarget_actionOf page form : formTarget resolveURL page form = actionOf page form.
Proof. reflexivity. Qed.

Lemma fuzzInputs_fuzzed form : fuzzInputs form = fuzzed form.
Proof.
  unfold fuzzInputs, fuzzed. apply List.filter_ext. intros e.
  unfold is_input, is_textarea, type_is, hasType.
  destruct (tag e); simpl; try reflexivity. apply orb_false_r.
Qed.

Lemma filter_nonempty {A} (f : A -> bool) (l : list A) :
  (0 <? length (List.filter f l))%nat = existsb f l.
Proof.
  induction l as [| a l IH]; simpl; [reflexivity |].
  destruct (f a); simpl; [reflexivity | exact IH].
Qed.

Lemma filter_empty {A} (f : A -> bool) (l : list A) :
  (length (List.filter f l) =? 0)%nat = negb (existsb f l).
Proof.
  induction l as [| a l IH]; simpl; [reflexivity |].
  destruct (f a); simpl; [reflexivity | exact IH].
Qed.

Lemma existsb_pointwise {A} (f g : A -> bool) (l : list A) :
  (forall a, f a = g a) -> existsb f l = existsb g l.
Proof. intros H. induction l as [| a l IH]; simpl; [reflexivity |]. by rewrite H, IH. Qed.

Lemma csrfFires_unprotected form : csrfFires form = unprotected form.
Proof.
  unfold csrfFires, unprotected, sensitiveInputs, csrfTokens.
  rewrite formMethod_methodOf, filter_nonempty, filter_empty.
  f_equal; [f_equal |]; [| f_equal]; apply existsb_pointwise; intros e;
    unfold sensitive, hiddenToken, is_input, type_is, name_has, hasType, nameContains;
    destruct (tag e); simpl; try reflexivity.
  symmetry. apply andb_orb_distrib_r.
Qed.

(** *** The shape of what each loop appends *)

Lemma appends_skip (S : list Vulnerability -> Prop) : S [] -> appends (fun r => r) S.
Proof. intros HS r. exists []. by rewrite app_nil_r. Qed.

Lemma appends_weaken f (S T : list Vulnerability -> Prop) :
  (forall fs, S fs -> T fs) -> appends f S -> appends f T.
Proof.
  intros HST Hf r. destruct (Hf r) as (fs & Hv & HS). exists fs. split; [exact Hv | by apply HST].
Qed.

Lemma appends_seq f g (S T : list Vulnerability -> Prop) :
  appends f S -> appends g T ->
  appends (fun r => g (f r)) (fun fs => exists a b, fs = a ++ b /\ S a /\ T b).
Proof.
  intros Hf Hg r. destruct (Hf r) as (a & Ha & HS). destruct (Hg (f r)) as (b & Hb & HT).
  exists (a ++ b). split; [by rewrite Hb, Ha, <- app_assoc |]. by exists a, b.
Qed.

Lemma appends_each {A} (step : A -> Run -> Run) (S : A -> list Vulnerability -> Prop)
      (l : list A) :
  (forall a, appends (step a) (S a)) ->
  appends (fun r => fold_left (fun acc a => step a acc) l r)
          (fun fs => exists per, fs = concat per /\ Forall2 S l per).
Proof.
  intros Hstep. induction l as [| a l IH]; intros r; simpl.
  - exists []. split; [by rewrite app_nil_r |]. exists []. split; [reflexivity | constructor].
  - destruct (Hstep a r) as (fs & Hfs & HS).
    destruct (IH (step a r)) as (gs & Hgs & per & -> & Hper).
    exists (fs ++ concat per). split; [by rewrite Hgs, Hfs, <- app_assoc |].
    exists (fs :: per). split; [reflexivity | by constructor].
Qed.

Lemma appends_push mk : appends (pushVuln mk) (one_or_none mk).
Proof. intros r. exists [mk (drawn r)]. split; [done |]. right. by exists (drawn r). Qed.

Lemma xssTest_reports method targetUrl inputs inputName payloads :
  appends (xssTest method targetUrl inputs inputName payloads)
          (one_or_none (xssFinding stamp method targetUrl inputName)).
Proof.
  intros r.
  destruct (xssTest_outcome method targetUrl inputs inputName payloads r)
    as [(Hv & _ & _) | (k & p & _ & _ & _ & _ & Hv)].
  - exists []. split; [by rewrite app_nil_r | by left].
  - eexists [_]. split; [exact Hv |]. right. by eexists.
Qed.

Lemma sqliTest_reports method targetUrl inputs inputName payloads :
  appends (sqliTest method targetUrl inputs inputName payloads)
          (one_or_none (sqliFinding stamp method targetUrl inputName)).
Proof.
  induction payloads as [| payload rest IH]; [apply appends_skip; by left |].
  intros r. rewrite sqliTest_step. cbv zeta.
  destruct (match fetchOutcome _ with inl _ => _ | inr _ => _ end).
  - destruct (appends_push (sqliFinding stamp method targetUrl inputName)
                (probed (probe encodeParams method targetUrl
                           (fillParams inputs inputName payload "1")) r))
      as (fs & Hfs & HS).
    exists fs. split; [| exact HS]. rewrite Hfs. reflexivity.
  - destruct (IH (probed (probe encodeParams method targetUrl
                            (fillParams inputs inputName payload "1")) r))
      as (fs & Hfs & HS).
    exists fs. split; [| exact HS]. rewrite Hfs. reflexivity.
Qed.

Lemma fuzzInput_reports method targetUrl inputs el :
  appends (fuzzInput network stamp encodeParams method targetUrl inputs el)
          (input_findings stamp method targetUrl el).
Proof.
  unfold fuzzInput, input_findings.
  destruct (name_attr el) as [inputName |]; [| by apply appends_skip].
  destruct (String.eqb inputName ""); [by apply appends_skip |].
  apply (appends_seq (xssTest _ _ _ _ _) (sqliTest _ _ _ _ _));
    [apply xssTest_reports | apply sqliTest_reports].
Qed.

Lemma csrfCheck_reports method targetUrl form :
  appends (csrfCheck stamp method targetUrl form) (one_or_none (csrfFinding stamp targetUrl)).
Proof.
  unfold csrfCheck. destruct (_ && _); [apply appends_push | apply appends_skip; by left].
Qed.

Lemma scanForm_reports page form :
  appends (scanForm network stamp resolveURL encodeParams page form)
          (form_findings stamp resolveURL page form).
Proof.
  unfold scanForm. cbv zeta.
  rewrite formMethod_methodOf, formTarget_actionOf, fuzzInputs_fuzzed.
  eapply appends_weaken;
    [| apply (appends_seq (csrfCheck _ _ _ _)
                (fun r => fold_left (fun acc el => fuzzInput _ _ _ _ _ _ el acc) _ r));
       [apply csrfCheck_reports | apply appends_each; intros el; apply fuzzInput_reports]].
  intros fs (cs & rest & -> & Hcs & per & -> & Hper). by exists cs, per.
Qed.

Lemma scanParam_reports page param :
  appends (scanParam network stamp setSearchParam page param)
          (param_findings stamp setSearchParam page param).
Proof.
  intros r. unfold scanParam, Worker.fetchPage. cbv zeta.
  set (reqX := get (setSearchParam page param xssPayload)).
  set (reqS := get (setSearchParam page param sqliPayload)).
  set (r3 := match fetchOutcome (network (sent (countEndpoint r)) reqX) with
             | inl res => if containsPayload (data res) xssPayload then _ else _
             | inr _ => _
             end).
  assert (H3 : exists xs,
             vulnerabilities (result r3) = vulnerabilities (result r) ++ xs /\
             one_or_none (urlXssFinding stamp param (setSearchParam page param xssPayload)) xs).
  { subst r3. destruct (fetchOutcome _) as [res | msg].
    - destruct (containsPayload _ _).
      + eexists [_]. split; [reflexivity |]. right. by eexists.
      + exists []. simpl. rewrite app_nil_r. split; [done | by left].
    - exists []. simpl. rewrite app_nil_r. split; [done | by left]. }
  destruct H3 as (xs & Hv & Hxs).
  assert (Hnone : exists fs, vulnerabilities (result r) ++ xs
                             = vulnerabilities (result r) ++ fs
                             /\ param_findings stamp setSearchParam page param fs).
  { exists xs. split; [reflexivity |]. exists xs, [].
    rewrite app_nil_r. split; [reflexivity |]. split; [exact Hxs | by left]. }
  destruct (fetchOutcome (network (sent (countEndpoint r3)) reqS)) as [res | msg].
  - destruct (containsSQLError _).
    + simpl. rewrite Hv, <- app_assoc.
      eexists (xs ++ [_]). split; [reflexivity |]. eexists xs, [_].
      split; [reflexivity |]. split; [exact Hxs |]. right. by eexists.
    + simpl. rewrite Hv. exact Hnone.
  - simpl. rewrite Hv. exact Hnone.
Qed.

Lemma scanUrlParameters_reports page :
  appends (scanUrlParameters network stamp searchParamNames setSearchParam page)
          (fun fs => exists per,
               fs = concat per /\
               Forall2 (param_findings stamp setSearchParam page)
                       (paramNames searchParamNames page) per).
Proof.
  unfold scanUrlParameters, paramNames. destruct (searchParamNames page).
  - apply appends_each. intros param. apply scanParam_reports.
  - apply appends_skip. exists []. split; [reflexivity | constructor].
Qed.

(** C8 (as the code has it): on a page fetched as text, [scanPage] runs
    the form loop first (for each form the CSRF check D5, then for each
    fuzzed element that has a name the XSS test D1 followed by the SQL
    test D3), then the URL parameter loop (D2 then D4 for each
    parameter), and the passive checks D6 and D7 last. So the result
    list is made of one block per form of the page, in document order,
    each holding the finding of D5 for the form, if any, and then one
    block per fuzzed element of the form, in document order, with the
    finding of D1 for that input, if any, before the finding of D3 for
    it, if any; then one block per URL parameter, the finding of D2
    before that of D4; then the findings of D6; then those of D7. *)
Theorem scanPage_findings_by_phase
        (page : string) (history : list Request) (n : nat)
        (resp : Response) (html : string) :
  fetchOutcome (network history (get page)) = inl resp ->
  data resp = Text html ->
  exists perForm perParam domFindings infoFindings,
    vulnerabilities (outcome_data (scanPage page history n).1) =
      concat perForm ++ concat perParam ++ domFindings ++ infoFindings /\
    Forall2 (form_findings stamp resolveURL page) (dom_forms (cheerio_load html)) perForm /\
    Forall2 (param_findings stamp setSearchParam page)
            (paramNames searchParamNames page) perParam /\
    Forall (from [D6]) domFindings /\
    Forall (from [D7]) infoFindings.
Proof.
  intros Hfetch Hbody.
  unfold Worker.scanPage, Worker.fetchPage, start. simpl.
  rewrite Hfetch, Hbody. simpl.
  set (r2 := setFormsFound _ _).
  set (r3 := fold_left _ _ r2).
  set (r4 := scanUrlParameters _ _ _ _ _ r3).
  set (r5 := domXssCheck _ _ _ r4).
  destruct (appends_each (scanForm network stamp resolveURL encodeParams page)
              (form_findings stamp resolveURL page)
              (dom_forms (cheerio_load html)) (scanForm_reports page) r2)
    as (fs & Hfs & perForm & -> & Pfs). fold r3 in Hfs.
  destruct (scanUrlParameters_reports page r3) as (us & Hus & perParam & -> & Pus).
  fold r4 in Hus.
  destruct (domXssCheck_emits page (dom_scripts (cheerio_load html)) r4)
    as (ds & Hds & Pds). fold r5 in Hds.
  destruct (infoDisclosure_emits page resp html r5) as (ws & Hws & Pws).
  exists perForm, perParam, ds, ws. repeat split; try assumption.
  rewrite Hws, Hds, Hus, Hfs. subst r2. simpl. by rewrite <- !app_assoc.
Qed.

(** *** The CSRF check *)

Lemma from_not_csrf ds v : ~ In D5 ds -> from ds v -> is_csrf v = false.
Proof.
  intros Hn (d & Hd & Hin). unfold is_csrf, csrfName.
  destruct (String.eqb (name v) _) eqn:E; [| done].
  apply String.eqb_eq in E. unfold detector in Hd. rewrite E in Hd. simpl in Hd.
  injection Hd as <-. contradiction.
Qed.

Lemma filter_csrf_from ds fs :
  ~ In D5 ds -> Forall (from ds) fs -> List.filter is_csrf fs = [].
Proof.
  intros Hn. induction 1 as [| v fs Hv _ IH]; simpl; [done |].
  by rewrite (from_not_csrf ds v Hn Hv).
Qed.

Lemma scanForm_csrf page form r :
  exists fs,
    vulnerabilities (result (scanForm network stamp resolveURL encodeParams page form r)) =
      vulnerabilities (result r) ++ fs /\
    map brief (List.filter is_csrf fs) =
      (if unprotected form then [csrfBrief page form] else []).
Proof.
  rewrite <- csrfFires_unprotected.
  unfold scanForm. cbv zeta.
  set (r1 := csrfCheck _ _ _ _ r).
  destruct (emits_loop (from [D1; D3])
              (fuzzInput network stamp encodeParams (formMethod form)
                         (formTarget resolveURL page form) (fuzzInputs form))
              (fuzzInputs form) (fuzzInput_emits _ _ _) r1) as (fs & Hfs & Pfs).
  assert (Hno : List.filter is_csrf fs = []).
  { apply (filter_csrf_from [D1; D3]); [simpl; intuition discriminate | exact Pfs]. }
  subst r1. unfold csrfCheck in *. fold (csrfFires form) in *.
  destruct (csrfFires form).
  - eexists (_ :: fs). split; [rewrite Hfs; simpl; by rewrite <- app_assoc |].
    simpl. by rewrite Hno.
  - exists fs. split; [exact Hfs | by rewrite Hno].
Qed.

Lemma scanForms_csrf page forms :
  forall r, exists fs,
    vulnerabilities
      (result (fold_left
                 (fun acc form => scanForm network stamp resolveURL encodeParams page form acc)
                 forms r)) = vulnerabilities (result r) ++ fs /\
    map brief (List.filter is_csrf fs) =
      map (csrfBrief page) (List.filter unprotected forms).
Proof.
  induction forms as [| form forms IH]; intros r; simpl.
  - exists []. by rewrite app_nil_r.
  - destruct (scanForm_csrf page form r) as (fs & Hfs & Bfs).
    destruct (IH (scanForm network stamp resolveURL encodeParams page form r))
      as (gs & Hgs & Bgs).
    exists (fs ++ gs). split; [by rewrite Hgs, Hfs, <- app_assoc |].
    rewrite List.filter_app, map_app, Bfs, Bgs. by destruct (unprotected form).
Qed.

(** C7: on a page whose body was fetched as text, the findings named
    "Cross-Site Request Forgery (CSRF)" of the result are, in document
    order, one for each form of the page that the specification calls
    unprotected (its method attribute, upper-cased, is POST; it holds
    an input of type password or named after password or email; it
    holds no hidden input named after csrf or token) and none for any
    other form; each is of severity Medium and category CSRF, located
    at "POST " followed by the form's action resolved against the page
    URL; and the CSRF check sends no request. *)
Theorem csrf_findings_of_page
        (page : string) (history : list Request) (n : nat)
        (resp : Response) (html : string) :
  fetchOutcome (network history (get page)) = inl resp ->
  data resp = Text html ->
  map brief (List.filter is_csrf
               (vulnerabilities (outcome_data (scanPage page history n).1))) =
    map (csrfBrief page) (List.filter unprotected (dom_forms (cheerio_load html))) /\
  (forall method targetUrl form r,
      sent (csrfCheck stamp method targetUrl form r) = sent r).
Proof.
  intros Hfetch Hbody. split.
  - unfold Worker.scanPage, Worker.fetchPage, start. simpl.
    rewrite Hfetch, Hbody. simpl.
    set (r2 := setFormsFound _ _).
    set (r3 := fold_left _ _ r2).
    set (r4 := scanUrlParameters _ _ _ _ _ r3).
    set (r5 := domXssCheck _ _ _ r4).
    destruct (scanForms_csrf page (dom_forms (cheerio_load html)) r2)
      as (fs & Hfs & Bfs). fold r3 in Hfs.
    destruct (scanUrlParameters_emits page r3) as (us & Hus & Pus). fold r4 in Hus.
    destruct (domXssCheck_emits page (dom_scripts (cheerio_load html)) r4)
      as (ds & Hds & Pds). fold r5 in Hds.
    destruct (infoDisclosure_emits page resp html r5) as (ws & Hws & Pws).
    rewrite Hws, Hds, Hus, Hfs. subst r2. simpl.
    rewrite !List.filter_app.
    rewrite (filter_csrf_from [D2; D4] us), (filter_csrf_from [D6] ds),
      (filter_csrf_from [D7] ws); try assumption;
      try (simpl; intuition discriminate).
    by rewrite !app_nil_r.
  - intros method targetUrl form r. unfold csrfCheck. by destruct (_ && _).
Qed.

End WithEnvironment.

(* The examples are ASCII text. *)
#[local] Existing Instance Examples.ascii_case.

(** The page scanner on the JSON endpoint of the example target. *)
Lemma scanPage_skips_non_text_body_witness :
  Examples.demo_scanPage "http://t/api/users" =
    ({| success := true; error := None;
        outcome_data := {| vulnerabilities := []; formsFound := 0;
                           endpointsTested := 0; pageUrl := "http://t/api/users" |} |},
     {| result := {| vulnerabilities := []; formsFound := 0;
                     endpointsTested := 0; pageUrl := "http://t/api/users" |};
        sent := [] ++ [get "http://t/api/users"];
        drawn := 0 |}).
Proof.
  apply (scanPage_skips_non_text_body
           Examples.demo_network Examples.demo_stamp Examples.demo_cheerio
           Examples.demo_resolve Examples.demo_encode Examples.demo_params
           Examples.demo_setParam "http://t/api/users" [] 0
           {| status := 200; server := None; data := NotText |});
    reflexivity.
Defined.

(** The login page of the example target, whose one form is sent by
    [method=post] to [/save] and holds a password input and no token:
    one CSRF finding, located at the resolved action. *)
Lemma csrf_findings_of_page_witness :
  map brief (List.filter is_csrf
               (vulnerabilities (outcome_data (Examples.demo_scanPage "http://t/login").1))) =
    [ ("Cross-Site Request Forgery (CSRF)", Medium, CSRF, "POST http://t/save") ] /\
  (forall method targetUrl form r,
      sent (csrfCheck Examples.demo_stamp method targetUrl form r) = sent r).
Proof.
  exact (csrf_findings_of_page (engine := Examples.ascii_case)
           Examples.demo_network Examples.demo_stamp Examples.demo_cheerio
           Examples.demo_resolve Examples.demo_encode Examples.demo_params
           Examples.demo_setParam "http://t/login" [] 0
           {| status := 200; server := None; data := Text Examples.loginHtml |}
           Examples.loginHtml eq_refl eq_refl).
Defined.

(** The login page of the example target: one form with one fuzzed
    input, no URL parameter. *)
Lemma scanPage_findings_by_phase_witness :
  exists perForm perParam domFindings infoFindings,
    vulnerabilities (outcome_data (Examples.demo_scanPage "http://t/login").1) =
      concat perForm ++ concat perParam ++ domFindings ++ infoFindings /\
    Forall2 (form_findings Examples.demo_stamp Examples.demo_resolve "http://t/login")
            [Examples.loginForm] perForm /\
    Forall2 (param_findings Examples.demo_stamp Examples.demo_setParam "http://t/login")
            [] perParam /\
    Forall (from [D6]) domFindings /\
    Forall (from [D7]) infoFindings.
Proof.
  exact (scanPage_findings_by_phase (engine := Examples.ascii_case)
           Examples.demo_network Examples.demo_stamp Examples.demo_cheerio
           Examples.demo_resolve Examples.demo_encode Examples.demo_params
           Examples.demo_setParam "http://t/login" [] 0
           {| status := 200; server := None; data := Text Examples.loginHtml |}
           Examples.loginHtml eq_refl eq_refl).
Defined.

(** C8 as stated fails: on the search page of the example target the
    finding of the active detector D2 comes before the finding of the
    passive detector D6. *)
Lemma active_finding_precedes_passive :
  map (fun v => (name v, detector v))
      (vulnerabilities (outcome_data (Examples.demo_scanPage "http://t/search?q=foo").1)) =
    [ ("Reflected XSS (URL)", Some D2); ("Potential DOM XSS", Some D6) ].
Proof. vm_compute. reflexivity. Qed.

End PageScanner.

(** ** Progress events *)
Module ProgressOrder.
Import Progress ProgressInvariants.

(** *** Rounding *)

Lemma round_ratio_mono a a' b : (a <= a')%nat -> (round_ratio a b <= round_ratio a' b)%nat.
Proof. intros H. unfold round_ratio. apply Nat.Div0.div_le_mono. lia. Qed.

Lemma round_ratio_crawl_le a t :
  (1 <= t)%nat -> (a <= t)%nat -> (round_ratio (a * 30) t <= 30)%nat.
Proof.
  intros Ht Ha. unfold round_ratio.
  assert ((2 * (a * 30) + t) / (2 * t) < 31)%nat; [| lia].
  apply Nat.Div0.div_lt_upper_bound. nia.
Qed.

Lemma round_ratio_scan_ge s t :
  (1 <= t)%nat -> (30 <= round_ratio (30 * t + s * 70) t)%nat.
Proof.
  intros Ht. unfold round_ratio. apply Nat.div_le_lower_bound; lia.
Qed.

Lemma round_ratio_full k : (1 <= k)%nat -> (30 <= round_ratio (k * 30) k)%nat.
Proof. intros Hk. unfold round_ratio. apply Nat.div_le_lower_bound; lia. Qed.

Lemma round_ratio_zero t : (1 <= t)%nat -> round_ratio 0 t = 0%nat.
Proof. intros Ht. unfold round_ratio. apply Nat.div_small. lia. Qed.

Lemma round_ratio_percent_le a t :
  (1 <= t)%nat -> (a <= t)%nat -> (round_ratio (a * 100) t <= 100)%nat.
Proof.
  intros Ht Ha. unfold round_ratio.
  assert ((2 * (a * 100) + t) / (2 * t) < 101)%nat; [| lia].
  apply Nat.Div0.div_lt_upper_bound. nia.
Qed.

(** *** Sorted lists that grow at the end *)

Lemma StronglySorted_snoc {A} (R : A -> A -> Prop) (l : list A) (x : A) :
  StronglySorted R l -> Forall (fun e => R e x) l -> StronglySorted R (l ++ [x]).
Proof.
  induction 1 as [| a l Hl IH Ha]; intros Hx; simpl.
  - constructor; constructor.
  - apply Forall_cons in Hx as [Hax Hlx]. constructor; [by apply IH |].
    apply Forall_app. split; [exact Ha | by constructor].
Qed.

(** *** The progress server *)

Lemma steady_le_refl a : steady_le a a.
Proof. unfold steady_le. lia. Qed.

Lemma steady_le_trans a b c : steady_le a b -> steady_le b c -> steady_le a c.
Proof. unfold steady_le. lia. Qed.

Section OneScan.
Variable sid : string.

Local Abbreviation ordered_upto := (ProgressInvariants.ordered_upto sid).

Lemma ordered_upto_step s p p' :
  ordered_upto s p -> steady_le p p' -> scanId p' = sid ->
  ordered_upto (setAndBroadcast p' s) p'.
Proof.
  intros (Hl & Hid & Hs & Hb) Hle Hid'. unfold setAndBroadcast.
  assert (Hb' : Forall (fun e => steady_le e p') (broadcast s)).
  { eapply Forall_impl; [exact Hb |]. intros e He. exact (steady_le_trans _ _ _ He Hle). }
  repeat split; simpl.
  - rewrite Hid'. apply lookup_insert_eq.
  - exact Hid'.
  - by apply StronglySorted_snoc.
  - apply Forall_app. split; [exact Hb' |]. constructor; [apply steady_le_refl | constructor].
Qed.

Lemma crawl_state_le_30 p : crawl_state p -> (progress p <= 30)%nat.
Proof.
  intros (_ & _ & _ & Hle & ->). apply round_ratio_crawl_le; lia.
Qed.

Lemma crawlingUpdate_le p k :
  crawl_state p -> (pagesScanned p <= k)%nat ->
  steady_le p (crawlingUpdate k p) /\ crawl_state (crawlingUpdate k p).
Proof.
  intros Hc Hk. pose proof (crawl_state_le_30 p Hc) as H30.
  destruct Hc as (Hv & Hf & He & Hle & Hp).
  split.
  - unfold steady_le. simpl. repeat split; try lia.
    destruct (Nat.le_gt_cases k (totalPages p)) as [Hin | Hout].
    + rewrite Hp, (Nat.max_l (totalPages p) k) by lia.
      apply round_ratio_mono. lia.
    + rewrite (Nat.max_r (totalPages p) k), (Nat.max_l k 1) by lia.
      pose proof (round_ratio_full k ltac:(lia)). lia.
  - unfold crawl_state. simpl. repeat split; try assumption. lia.
Qed.

Lemma crawl_phase found :
  forall s p,
    ordered_upto s p -> crawl_state p ->
    StronglySorted le found -> Forall (le (pagesScanned p)) found ->
    exists p', ordered_upto (calls sid (map CrawlingProgress found) s) p' /\ crawl_state p'.
Proof.
  induction found as [| k found IH]; intros s p Hs Hc Hsorted Hfrom; simpl.
  - by exists p.
  - apply StronglySorted_inv in Hsorted as [Hsorted Hk].
    apply Forall_cons in Hfrom as [Hpk _].
    destruct (crawlingUpdate_le p k Hc Hpk) as [Hle Hc'].
    unfold updateCrawlingProgress. destruct Hs as (Hl & Hrest). rewrite Hl.
    apply (IH _ (crawlingUpdate k p)); [| exact Hc' | exact Hsorted | exact Hk].
    apply (ordered_upto_step s p); [by split | exact Hle |]. simpl. tauto.
Qed.

Lemma scan_phase pageDone :
  forall s p lo,
    ordered_upto s p -> below p lo ->
    StronglySorted counters_le pageDone -> Forall (counters_le lo) pageDone ->
    exists p', ordered_upto (calls sid (map scanningCall pageDone) s) p'.
Proof.
  induction pageDone as [| c pageDone IH]; intros s p lo Hs Hb Hsorted Hfrom; simpl.
  - by exists p.
  - apply StronglySorted_inv in Hsorted as [Hsorted Hc].
    apply Forall_cons in Hfrom as [Hlo _].
    destruct c as [[[s1 v1] f1] e1], lo as [[[s0 v0] f0] e0].
    simpl in Hlo. destruct Hlo as (Hs01 & Hv01 & Hf01 & He01).
    destruct Hb as (Hbv & Hbf & Hbe & Hbp).
    simpl. unfold updateScanningProgress.
    destruct Hs as (Hl & Hrest). rewrite Hl.
    apply (IH _ (scanningUpdate s1 v1 f1 e1 p) (s1, v1, f1, e1));
      [| | exact Hsorted | exact Hc].
    + apply (ordered_upto_step s p); [by split | | simpl; tauto].
      unfold steady_le. simpl. repeat split; try lia.
      etransitivity; [exact Hbp |]. apply round_ratio_mono. lia.
    + simpl. repeat split; lia.
Qed.

Lemma calls_pagesScanned cs :
  forall s p,
    scanProgress s !! sid = Some p -> scanId p = sid ->
    map pagesScanned (broadcast (calls sid cs s)) =
      map pagesScanned (broadcast s) ++ map reported cs.
Proof.
  induction cs as [| c cs IH]; intros s p Hl Hid; simpl.
  - by rewrite app_nil_r.
  - destruct c as [k | s1 v1 f1 e1]; simpl;
      unfold updateCrawlingProgress, updateScanningProgress; rewrite Hl.
    + rewrite (IH _ (crawlingUpdate k p)); simpl.
      * by rewrite map_app, <- app_assoc.
      * rewrite Hid. apply lookup_insert_eq.
      * exact Hid.
    + rewrite (IH _ (scanningUpdate s1 v1 f1 e1 p)); simpl.
      * by rewrite map_app, <- app_assoc.
      * rewrite Hid. apply lookup_insert_eq.
      * exact Hid.
Qed.

End OneScan.

(** *** The worker pool *)

Section OnePoolScan.
Variable sid : string.

Local Abbreviation pool_ordered := (ProgressInvariants.pool_ordered sid).

Lemma percent_le_100 st :
  (st_pagesScanned st <= st_totalPages st)%nat -> (percent st <= 100)%nat.
Proof.
  intros H. unfold percent. destruct (0 <? st_totalPages st)%nat eqn:E; [| lia].
  apply Nat.ltb_lt in E. apply round_ratio_percent_le; lia.
Qed.

Lemma updateScanStats_ordered skip taskId data p st :
  pool_ordered skip p st ->
  exists st', pool_ordered skip (updateScanStats taskId data p) st'.
Proof.
  intros (Hobj & Hmap & Hle & Hskip & Hcsorted & Hcbelow & Hsorted & Hbelow).
  unfold updateScanStats. set (sid' := beforeSeparator "::" taskId).
  destruct (scanStates p !! sid') as [ref |] eqn:Hl; [| by exists st].
  destruct Hmap as [Hmap | Hmap]; rewrite Hmap in Hl;
    [| by rewrite lookup_empty in Hl].
  apply lookup_singleton_Some in Hl as [<- <-].
  rewrite Hobj. simpl.
  set (st2 := match data with Some d => tally d (countPage st) | None => countPage st end).
  set (st' := if (st_totalPages st2 <=? st_pagesScanned st2)%nat
              then markCompleted st2 else st2).
  assert (Ht2 : st_totalPages st2 = st_totalPages st) by (subst st2; by destruct data).
  assert (Hs2 : st_pagesScanned st2 = Nat.min (st_pagesScanned st + 1) (st_totalPages st))
    by (subst st2; by destruct data).
  assert (Hv2 : (st_vulnerabilitiesFound st <= st_vulnerabilitiesFound st2)%nat)
    by (subst st2; destruct data; simpl; lia).
  assert (Hf2 : (st_formsFound st <= st_formsFound st2)%nat)
    by (subst st2; destruct data; simpl; lia).
  assert (He2 : (st_endpointsTested st <= st_endpointsTested st2)%nat)
    by (subst st2; destruct data; simpl; lia).
  assert (Hsame : st_totalPages st' = st_totalPages st2
                  /\ st_pagesScanned st' = st_pagesScanned st2
                  /\ st_vulnerabilitiesFound st' = st_vulnerabilitiesFound st2
                  /\ st_formsFound st' = st_formsFound st2
                  /\ st_endpointsTested st' = st_endpointsTested st2)
    by (subst st'; by destruct (_ <=? _)%nat).
  destruct Hsame as (Ht & Hs & Hv & Hf & He).
  assert (Hp : (percent st <= percent st')%nat).
  { unfold percent. rewrite Ht, Hs, Ht2, Hs2.
    destruct (0 <? st_totalPages st)%nat; [| lia].
    apply round_ratio_mono. lia. }
  exists st'.
  assert (Hcbelow' : Forall (fun e => counts_at_most e st') (emitted p)).
  { eapply Forall_impl; [exact Hcbelow |]. intros e (H1 & H2 & H3 & H4).
    unfold counts_at_most. rewrite Hs, Hs2, Hv, Hf, He. repeat split; lia. }
  assert (Hbelow' : Forall (fun e => at_most e st') (drop skip (emitted p))).
  { eapply Forall_impl; [exact Hbelow |]. intros e (H1 & H2 & H3 & H4 & H5).
    unfold at_most. rewrite Hs, Hs2, Hv, Hf, He. repeat split; lia. }
  unfold ProgressInvariants.pool_ordered. cbn [objects scanStates emitted].
  rewrite drop_app_le by exact Hskip.
  split; [reflexivity |].
  split; [destruct (st_totalPages st2 <=? st_pagesScanned st2)%nat;
          [right; rewrite Hmap; apply delete_singleton_eq | by left] |].
  split; [rewrite Ht, Hs, Ht2, Hs2; lia |].
  split; [rewrite length_app; lia |].
  split; [| split; [| split]].
  - apply StronglySorted_snoc; [exact Hcsorted |].
    eapply Forall_impl; [exact Hcbelow' |].
    intros e (H1 & H2 & H3 & H4). unfold counts_le. simpl.
    rewrite Hs, Hv, Hf, He in *. repeat split; lia.
  - apply Forall_app. split; [exact Hcbelow' |].
    constructor; [| constructor]. unfold counts_at_most. simpl.
    rewrite Hs, Hv, Hf, He. repeat split; lia.
  - apply StronglySorted_snoc; [exact Hsorted |].
    eapply Forall_impl; [exact Hbelow' |].
    intros e (H1 & H2 & H3 & H4 & H5). unfold pool_le, percent in *. simpl.
    rewrite Ht, Hs, Hv, Hf, He in *. repeat split; lia.
  - apply Forall_app. split; [exact Hbelow' |].
    constructor; [| constructor]. unfold at_most, percent. simpl.
    rewrite Ht, Hs, Hv, Hf, He. repeat split; lia.
Qed.

Lemma handleResults_ordered skip arrivals :
  forall p st,
    pool_ordered skip p st ->
    exists st', pool_ordered skip (handleResults arrivals p) st'.
Proof.
  unfold handleResults.
  induction arrivals as [| [taskId data] arrivals IH]; intros p st Hp; simpl.
  - by exists st.
  - unfold handleWorkerResult at 2. simpl.
    destruct (_ && _); [| by apply (IH p st)].
    destruct (updateScanStats_ordered skip taskId data p st Hp) as [st1 H1].
    by apply (IH _ st1).
Qed.

End OnePoolScan.

(** Handling results only adds events. *)
Lemma handleResults_grows arrivals :
  forall p, exists new, emitted (handleResults arrivals p) = emitted p ++ new.
Proof.
  unfold handleResults.
  induction arrivals as [| [taskId data] arrivals IH]; intros p; simpl.
  - exists []. by rewrite app_nil_r.
  - destruct (IH (handleWorkerResult taskId data p)) as (new & ->).
    unfold handleWorkerResult, updateScanStats.
    destruct (_ && _); [| by exists new].
    destruct (scanStates p !! _); [| by exists new].
    destruct (objects p !! _); [| by exists new].
    simpl. eexists (_ :: new). by rewrite <- app_assoc.
Qed.

(** C1 (as the code has it): in the progress events the server
    broadcasts for a scan (the start event, then those of
    [updateCrawlingProgress] and [updateScanningProgress] driven by the
    coordinator), [vulnerabilitiesFound], [formsFound], [endpointsTested]
    and [progress] never decrease from an event to a later one, the step
    from crawling to scanning included; [pagesScanned] carries the number
    of pages found while crawling and the number of pages scanned while
    scanning, so it never decreases within a phase. The [progress] events
    of the worker pool for a scan are those of the results handled while
    [scanPages] waits, then its final event, completed at 100 percent,
    then those of the results counted later: no counter ever decreases
    among them, and the progress never decreases up to the final event
    nor among the events after it. *)
Theorem progress_events_ordered
        (sid : string) (total : nat) (found : list nat) (pageDone : list Counters)
        (pages settled : nat) (arrivals : list (string * option ResultData)) :
  coordinated found pageDone ->
  StronglySorted steady_le (scanEvents sid total found pageDone) /\
  map pagesScanned (scanEvents sid total found pageDone) =
    0%nat :: found ++ map (fun c => c.1.1.1) pageDone /\
  exists final late,
    let early := emitted (handleResults (take (awaited pages settled) arrivals)
                                        (register sid pages initialPool)) in
    emitted (scanPages sid pages settled arrivals initialPool) = early ++ final :: late /\
    pp_status final = pool_completed /\
    pp_progress final = 100%nat /\
    StronglySorted counts_le (early ++ final :: late) /\
    StronglySorted pool_le (early ++ [final]) /\
    StronglySorted pool_le late.
Proof.
  intros [Hfound Hdone].
  set (p0 := {| scanId := sid; status := crawling; progress := 0; pagesScanned := 0;
                totalPages := total; vulnerabilitiesFound := 0; formsFound := 0;
                endpointsTested := 0 |}).
  assert (H0 : ordered_upto sid (startScan sid total initialServer) p0).
  { repeat split; simpl.
    - apply lookup_insert_eq.
    - repeat constructor.
    - constructor; [apply steady_le_refl | constructor]. }
  assert (C0 : crawl_state p0).
  { repeat split; simpl; [lia |]. symmetry. apply round_ratio_zero. lia. }
  split; [| split].
  - unfold scanEvents, coordinatorCalls, calls. rewrite fold_left_app.
    destruct (crawl_phase sid found _ p0 H0 C0 Hfound) as (p1 & H1 & C1).
    { apply Forall_forall. intros k _. simpl. lia. }
    destruct (scan_phase sid pageDone _ p1 (0, 0, 0, 0)%nat H1) as (p2 & H2).
    + pose proof (crawl_state_le_30 p1 C1) as H30.
      destruct C1 as (Hv & Hf & He & _ & _). unfold below. repeat split; try lia.
      assert (Hden : (1 <= Nat.max (totalPages p1) 1)%nat) by lia.
      pose proof (round_ratio_scan_ge 0 _ Hden). lia.
    + exact Hdone.
    + apply Forall_forall. intros [[[s1 v1] f1] e1] _. simpl. lia.
    + unfold calls in H2. by destruct H2 as (_ & _ & Hs & _).
  - unfold scanEvents.
    rewrite (calls_pagesScanned sid _ _ p0) by (destruct H0 as (? & ? & _); done).
    simpl. f_equal. unfold coordinatorCalls. rewrite map_app, !map_map.
    f_equal; [simpl; apply map_id | apply map_ext; by intros [[[s1 v1] f1] e1]].
  - unfold scanPages. cbv zeta.
    set (k := awaited pages settled).
    set (st0 := {| st_scanId := sid; st_totalPages := pages; st_pagesScanned := 0;
                   st_vulnerabilitiesFound := 0; st_formsFound := 0;
                   st_endpointsTested := 0; st_status := pool_running |}).
    assert (P1 : pool_ordered sid 0 (register sid pages initialPool) st0).
    { unfold pool_ordered, register. simpl.
      split; [reflexivity |]. split; [left; apply insert_empty |].
      split; [lia |]. split; [lia |]. repeat split; constructor. }
    destruct (handleResults_ordered sid 0 (take k arrivals) _ st0 P1)
      as (st' & Hobj & Hmap & Hle & _ & Hcsorted & Hcbelow & Hsorted & Hbelow).
    set (p2 := handleResults (take k arrivals) (register sid pages initialPool)) in *.
    rewrite Hobj. cbn [lookup list_lookup objects initialPool length].
    set (p3 := {| objects := [st']; scanStates := scanStates p2;
                  emitted := emitted p2 ++ [finalEvent sid st'] |}).
    rewrite drop_0 in Hsorted, Hbelow.
    assert (Hfinal : StronglySorted pool_le (emitted p2 ++ [finalEvent sid st'])).
    { apply StronglySorted_snoc; [exact Hsorted |].
      eapply Forall_impl; [exact Hbelow |].
      intros e (E1 & E2 & E3 & E4 & E5).
      pose proof (percent_le_100 st' Hle). unfold pool_le. simpl. repeat split; lia. }
    assert (P3 : pool_ordered sid (length (emitted p3)) p3 st').
    { unfold pool_ordered. subst p3. cbn [objects scanStates emitted].
      rewrite drop_all.
      split; [reflexivity |]. split; [exact Hmap |]. split; [exact Hle |].
      split; [lia |]. split; [| split; [| split; constructor]].
      - apply StronglySorted_snoc; [exact Hcsorted |].
        eapply Forall_impl; [exact Hcbelow |].
        intros e (E1 & E2 & E3 & E4). unfold counts_le. simpl. repeat split; lia.
      - apply Forall_app. split; [exact Hcbelow |].
        constructor; [| constructor]. unfold counts_at_most. simpl. repeat split; lia. }
    destruct (handleResults_ordered sid _ (drop k arrivals) p3 st' P3)
      as (st'' & _ & _ & _ & _ & Hcsorted' & _ & Hsorted' & _).
    destruct (handleResults_grows (drop k arrivals) p3) as (late & Hlate).
    rewrite Hlate in *. rewrite drop_app_length in Hsorted'.
    exists (finalEvent sid st'), late. subst p3. cbn [emitted] in *.
    rewrite <- app_assoc in Hcsorted'. simpl in Hcsorted'.
    split; [by rewrite <- app_assoc |]. by repeat split.
Qed.

(** The theorem at a scan of three pages, all answered while
    [scanPages] waits. *)
Lemma progress_events_ordered_witness :
  StronglySorted steady_le
    (scanEvents "scan-1" 0 [1; 2; 3]%nat [(1, 0, 0, 0); (2, 1, 1, 19); (3, 1, 1, 19)]%nat) /\
  map pagesScanned
    (scanEvents "scan-1" 0 [1; 2; 3]%nat [(1, 0, 0, 0); (2, 1, 1, 19); (3, 1, 1, 19)]%nat) =
    0%nat :: [1; 2; 3]%nat
      ++ map (fun c => c.1.1.1) [(1, 0, 0, 0); (2, 1, 1, 19); (3, 1, 1, 19)]%nat /\
  exists final late,
    let early := emitted (handleResults (take (awaited 3 3) Examples.three_results)
                                        (register "scan-1" 3 initialPool)) in
    emitted (scanPages "scan-1" 3 3 Examples.three_results initialPool)
      = early ++ final :: late /\
    pp_status final = pool_completed /\
    pp_progress final = 100%nat /\
    StronglySorted counts_le (early ++ final :: late) /\
    StronglySorted pool_le (early ++ [final]) /\
    StronglySorted pool_le late.
Proof.
  apply (progress_events_ordered "scan-1" 0 [1; 2; 3]%nat
           [(1, 0, 0, 0); (2, 1, 1, 19); (3, 1, 1, 19)]%nat).
  split; repeat constructor; simpl; lia.
Defined.

(** C1 as stated fails: the last crawling event reports three pages in
    [pagesScanned], and the first scanning event, published after it,
    reports one. *)
Lemma pagesScanned_drops_after_crawling :
  coordinated [1; 2; 3]%nat [(1, 0, 0, 0); (2, 1, 1, 19); (3, 1, 1, 19)]%nat /\
  exists P1 P2,
    scanEvents "scan-1" 0 [1; 2; 3]%nat [(1, 0, 0, 0); (2, 1, 1, 19); (3, 1, 1, 19)]%nat
      !! 3%nat = Some P1 /\
    scanEvents "scan-1" 0 [1; 2; 3]%nat [(1, 0, 0, 0); (2, 1, 1, 19); (3, 1, 1, 19)]%nat
      !! 4%nat = Some P2 /\
    status P1 = crawling /\ status P2 = scanning /\
    pagesScanned P1 = 3%nat /\ pagesScanned P2 = 1%nat /\
    ~ (pagesScanned P1 <= pagesScanned P2)%nat.
Proof.
  split; [split; repeat constructor; simpl; lia |].
  eexists _, _. split; [vm_compute; reflexivity |]. split; [vm_compute; reflexivity |].
  simpl. repeat split; lia.
Qed.

(** The progress of the pool's events does fall after the final event: a
    scan of no page emits it at once, at 100 percent, and the state stays
    registered; a result that bears the scan's prefix is then counted and
    reported at 0 percent. *)
Lemma progress_falls_after_final_event :
  map (fun e => (pp_status e, pp_progress e))
      (emitted (scanPages "z" 0 1 [("z::late::x", None)] initialPool)) =
    [ (pool_completed, 100%nat); (pool_completed, 0%nat) ].
Proof. vm_compute. reflexivity. Qed.

End ProgressOrder.

(** ** The scan route *)
Module ScanRoute.
Import JsString Routes.

Section WithScanner.
Variable scannerScan :
  string -> string -> option Progress.Server -> (ScanResult + string) * option Progress.Server.
Variable now : string.

Local Abbreviation postScan := (Routes.postScan scannerScan now).

Lemma updateScan_stored sid u (store : Storage) scan :
  store !! sid = Some scan -> updateScan sid u store !! sid = Some (merge scan u).
Proof. intros H. unfold updateScan. rewrite H. apply lookup_insert_eq. Qed.

(** Whatever the scanner does, the background task ends with the scan
    stored as completed: nothing in its [try] block throws. *)
Lemma scan_task_always_completes (newId target : string) (w : World) :
  exists stored,
    db (postScan newId target w).2 !! newId = Some stored /\
    status stored = completed.
Proof.
  unfold Routes.postScan, createScan, scanTask, scanTaskBody,
    performVulnerabilityScan, onServer, onStorage. simpl.
  destruct (scannerScan _ _ _) as [[result | message] ws']; simpl.
  - eexists. split.
    + erewrite updateScan_stored; [reflexivity |].
      erewrite updateScan_stored; [reflexivity |].
      apply lookup_insert_eq.
    + reflexivity.
  - eexists. split.
    + erewrite updateScan_stored; [reflexivity |].
      erewrite updateScan_stored; [reflexivity |].
      apply lookup_insert_eq.
    + reflexivity.
Qed.

(** C9 (as the code has it): when the scanner fails with [message]
    (the seed could not be fetched), [performVulnerabilityScan] catches
    the error and returns the default finding, of severity Low and
    category Information Disclosure, whose description starts with
    "Unable to scan the target website"; the background task then stores
    that finding and marks the scan completed, zero pages scanned. The
    [catch] that marks a scan failed is not reached. *)
Theorem scan_error_is_stored_as_completed
        (newId target : string) (w : World) (message : string)
        (ws' : option Progress.Server) :
  scannerScan target newId (Progress.startScan newId 0 <$> wsServer w)
    = (inr message, ws') ->
  exists stored,
    db (postScan newId target w).2 !! newId = Some stored /\
    status stored = completed /\
    vulnerabilities stored = [scanError target message] /\
    pagesScanned stored = Some 0%nat /\
    Worker.severity (scanError target message) = Worker.Low /\
    Worker.category (scanError target message) = Worker.InformationDisclosure /\
    startsWith (Worker.description (scanError target message))
               "Unable to scan the target website" = true.
Proof.
  intros Hscan.
  unfold Routes.postScan, createScan, scanTask, scanTaskBody,
    performVulnerabilityScan, onServer, onStorage. simpl.
  rewrite Hscan. simpl.
  eexists. split.
  - erewrite updateScan_stored; [reflexivity |].
    erewrite updateScan_stored; [reflexivity |].
    apply lookup_insert_eq.
  - by repeat split.
Qed.

End WithScanner.

(** A scanner whose crawl cannot reach the seed. *)
Lemma scan_error_is_stored_as_completed_witness :
  exists stored,
    db (Routes.postScan Examples.down_scanner "2026-01-01T00:00:00Z"
                        "scan-1" "http://down/" Examples.idle).2 !! "scan-1" = Some stored /\
    status stored = completed /\
    vulnerabilities stored = [scanError "http://down/" "connect ECONNREFUSED"] /\
    pagesScanned stored = Some 0%nat /\
    Worker.severity (scanError "http://down/" "connect ECONNREFUSED") = Worker.Low /\
    Worker.category (scanError "http://down/" "connect ECONNREFUSED")
      = Worker.InformationDisclosure /\
    startsWith (Worker.description (scanError "http://down/" "connect ECONNREFUSED"))
               "Unable to scan the target website" = true.
Proof.
  apply (scan_error_is_stored_as_completed Examples.down_scanner "2026-01-01T00:00:00Z"
           "scan-1" "http://down/" Examples.idle "connect ECONNREFUSED"
           (Progress.startScan "scan-1" 0 <$> wsServer Examples.idle)).
  reflexivity.
Defined.

(** C9 as stated fails: after a scan whose seed cannot be fetched, the
    stored status is completed, not failed. *)
Lemma failed_scan_is_not_marked_failed :
  exists stored,
    db (Routes.postScan Examples.down_scanner "2026-01-01T00:00:00Z"
                        "scan-1" "http://down/" Examples.idle).2 !! "scan-1" = Some stored /\
    status stored = completed /\
    status stored <> failed.
Proof.
  eexists. split; [vm_compute; reflexivity |]. split; [reflexivity | discriminate].
Qed.

End ScanRoute.

(** ** The shape of a finished crawl *)
Module CrawlerTree.
Import JsString Crawler CrawlerInvariants CrawlerReport CrawlerShape.

Lemma uniq_In (l : list string) x : In x (uniq l) <-> In x l.
Proof.
  induction l as [| y l IH]; simpl; [tauto |].
  rewrite filter_In, IH. split.
  - intros [-> | [H _]]; tauto.
  - intros [-> | H]; [tauto |].
    destruct (String.eqb x y) eqn:E.
    + apply String.eqb_eq in E. left. congruence.
    + right. split; [exact H | reflexivity].
Qed.

Lemma uniq_NoDup (l : list string) : NoDup (uniq l).
Proof.
  induction l as [| y l IH]; simpl; [constructor |].
  constructor.
  - rewrite list_elem_of_In, filter_In. intros [_ H]. by rewrite String.eqb_refl in H.
  - apply NoDup_ListNoDup, List.NoDup_filter, NoDup_ListNoDup, IH.
Qed.

Lemma chained_mono before before' l :
  (forall p, In p before -> In p before') -> chained before l -> chained before' l.
Proof.
  revert before before'. induction l as [| q l IH]; intros b b' Hsub; simpl; [done |].
  intros [(p & Hp & Hq) Hl]. split.
  - exists p. split; [by apply Hsub | exact Hq].
  - apply (IH (b ++ [q])); [| exact Hl].
    intros x Hx. apply in_app_iff in Hx. apply in_app_iff. destruct Hx; [left; auto | by right].
Qed.

Lemma chained_app before l1 l2 :
  chained before l1 -> chained (before ++ l1) l2 -> chained before (l1 ++ l2).
Proof.
  revert before. induction l1 as [| q l1 IH]; intros b; simpl.
  - intros _. by rewrite app_nil_r.
  - intros [Hq Hl1] Hl2. split; [exact Hq |].
    apply IH; [exact Hl1 |]. by rewrite <- app_assoc.
Qed.

Section WithWeb.
Context {engine : JsString.CaseMapping}.
Variable parseURL : string -> option URLObj.
Variable fetch : string -> option Document.
Variable options : CrawlOptions.

Local Abbreviation crawlPage := (Crawler.crawlPage parseURL fetch options).
Local Abbreviation crawlLinks := (Crawler.crawlLinks options).
Local Abbreviation extractLinks := (Crawler.extractLinks parseURL options).
Local Abbreviation good := (CrawlerShape.good parseURL options).
Local Abbreviation clean_links := (CrawlerShape.clean_links parseURL options).
Local Abbreviation in_scope := (CrawlerShape.in_scope parseURL options).
Local Abbreviation crawlRun := (CrawlerReport.crawlRun parseURL fetch options).

(** The page [crawlPage] builds from a fetched document. *)
Local Abbreviation pageOf u d st doc :=
  ({| url := u;
      title := if String.eqb (doc_title doc) "" then "No Title" else doc_title doc;
      links := extractLinks (visit u st) doc;
      forms := doc_forms doc;
      depth := d |}).

(** The ways a call of [crawlPage] can end. *)
Lemma crawlPage_inv fuel u d st st' :
  crawlPage (S fuel) u d st = Some st' ->
  st' = st \/
  ((d <= maxDepth options)%nat /\ (u ∉ visitedUrls st) /\
   (length (crawledPages st) < maxPages options)%nat /\
   shouldCrawlUrl parseURL options (baseDomain st) u = true /\
   ((fetch u = None /\ st' = visit u st) \/
    exists doc,
      fetch u = Some doc /\
      crawlLinks (fun link => crawlPage fuel link (S d))
                 (links (pageOf u d st doc))
                 (push (pageOf u d st doc) (visit u st)) = Some st')).
Proof.
  cbn [Crawler.crawlPage]. intros H.
  destruct (maxDepth options <? d)%nat eqn:Hd; [left; congruence |].
  destruct (bool_decide (u ∈ visitedUrls st)) eqn:Hv; [left; congruence |].
  destruct (maxPages options <=? length (crawledPages st))%nat eqn:Hn; [left; congruence |].
  destruct (shouldCrawlUrl parseURL options (baseDomain st) u) eqn:Hs; simpl in H;
    [| left; congruence].
  right. apply Nat.ltb_ge in Hd. apply Nat.leb_gt in Hn.
  apply bool_decide_eq_false in Hv.
  repeat split; try assumption.
  destruct (fetch u) as [doc |]; [right; by exists doc | left; split; congruence].
Qed.

(** *** The state invariant *)

Lemma good_visit u st : good st -> good (visit u st).
Proof.
  intros (Hn & Hv & Hf & Hc). repeat split; simpl; try assumption.
  intros p Hp. apply elem_of_union_r. by apply Hv.
Qed.

Lemma extractLinks_clean st doc base :
  base = baseDomain st ->
  NoDup (extractLinks st doc) /\
  Forall (fun l => shouldCrawlUrl parseURL options base l = true) (extractLinks st doc) /\
  (forall l, In l (extractLinks st doc) -> l ∉ visitedUrls st).
Proof.
  intros ->. unfold Crawler.extractLinks. split; [apply uniq_NoDup |]. split.
  - apply Forall_forall. intros l Hl. apply list_elem_of_In, uniq_In, filter_In in Hl.
    destruct Hl as [_ Hl]. apply andb_true_iff in Hl. tauto.
  - intros l Hl. apply uniq_In, filter_In in Hl.
    destruct Hl as [_ Hl]. apply andb_true_iff in Hl as [_ Hl].
    apply negb_true_iff, bool_decide_eq_false in Hl. exact Hl.
Qed.

Lemma good_push u d st doc :
  good st -> u ∉ visitedUrls st ->
  good (push (pageOf u d st doc) (visit u st)).
Proof.
  intros (Hn & Hv & Hf & Hc) Hu.
  destruct (extractLinks_clean (visit u st) doc (baseDomain st) eq_refl)
    as (Ln & Ls & Lv).
  repeat split; simpl.
  - rewrite map_app. simpl. apply NoDup_app. split; [exact Hn |]. split.
    + intros x Hx Hx'. apply list_elem_of_In in Hx' as [<- | []].
      apply list_elem_of_In, in_map_iff in Hx as (p & Hp & Hin).
      apply Hu. rewrite <- Hp. by apply Hv.
    + apply NoDup_singleton.
  - intros p Hp. apply in_app_iff in Hp as [Hp | [<- | []]].
    + apply elem_of_union_r. by apply Hv.
    + simpl. apply elem_of_union_l. by apply elem_of_singleton.
  - intros i j p q Hij Hp Hq Hin.
    destruct (decide (j < length (crawledPages st))%nat) as [Hj | Hj].
    + rewrite lookup_app_l in Hq by exact Hj.
      rewrite lookup_app_l in Hp by lia.
      exact (Hf i j p q Hij Hp Hq Hin).
    + rewrite lookup_app_r in Hq by lia.
      destruct (j - length (crawledPages st))%nat as [| k] eqn:Ek; [| by destruct k].
      simpl in Hq. injection Hq as <-. simpl in Hin.
      apply Lv in Hin. apply Hin. simpl.
      destruct (decide (i < length (crawledPages st))%nat) as [Hi | Hi].
      * rewrite lookup_app_l in Hp by exact Hi.
        apply elem_of_union_r, Hv. apply list_elem_of_In, list_elem_of_lookup. by exists i.
      * rewrite lookup_app_r in Hp by lia.
        destruct (i - length (crawledPages st))%nat as [| k] eqn:Ei; [| by destruct k].
        simpl in Hp. injection Hp as <-. simpl.
        apply elem_of_union_l. by apply elem_of_singleton.
  - apply Forall_app. split; [exact Hc |]. constructor; [| constructor].
    split; [exact Ln | exact Ls].
Qed.

Lemma crawlLinks_good rec ls :
  (forall link st st', rec link st = Some st' -> good st -> good st') ->
  forall st st', crawlLinks rec ls st = Some st' -> good st -> good st'.
Proof.
  intros Hrec. induction ls as [| link rest IH]; intros st st' H Hg; simpl in H.
  - by injection H as <-.
  - destruct (_ && _); [| by apply (IH st)].
    destruct (rec link st) as [st1 |] eqn:E; [| discriminate].
    apply (IH st1); [exact H |]. by apply (Hrec link st).
Qed.

Lemma crawlPage_good fuel :
  forall u d st st', crawlPage fuel u d st = Some st' -> good st -> good st'.
Proof.
  induction fuel as [| fuel IH]; intros u d st st' H Hg; [discriminate |].
  apply crawlPage_inv in H as [-> | (Hd & Hu & Hn & Hs & [[_ ->] | (doc & _ & H)])].
  - exact Hg.
  - by apply good_visit.
  - eapply crawlLinks_good; [| exact H | by apply good_push].
    intros link s s' Hr. exact (IH _ _ _ _ Hr).
Qed.

(** *** The discovery tree *)

Lemma crawlLinks_chained rec page ls :
  (forall link st st',
      rec link st = Some st' ->
      exists chunk, crawledPages st' = crawledPages st ++ chunk
                    /\ rooted link (S (depth page)) chunk) ->
  (forall l, In l ls -> In l (links page)) ->
  forall before st st',
    In page before ->
    crawlLinks rec ls st = Some st' ->
    exists new, crawledPages st' = crawledPages st ++ new /\ chained before new.
Proof.
  intros Hrec. induction ls as [| link rest IH]; intros Hls before st st' Hpage H; simpl in H.
  - injection H as <-. exists []. by rewrite app_nil_r.
  - assert (Hrest : forall l, In l rest -> In l (links page))
      by (intros l Hl; apply Hls; by right).
    destruct (_ && _); [| by apply (IH Hrest before st)].
    destruct (rec link st) as [st1 |] eqn:E; [| discriminate].
    destruct (Hrec link st st1 E) as (chunk & Hchunk & Hroot).
    destruct (IH Hrest (before ++ chunk) st1 st') as (new & Hnew & Hch);
      [apply in_app_iff; by left | exact H |].
    exists (chunk ++ new). split; [by rewrite Hnew, Hchunk, <- app_assoc |].
    apply chained_app; [| exact Hch].
    destruct chunk as [| q chunk]; [done |].
    destruct Hroot as (Hq & Hd & Hc). simpl. split.
    + exists page. repeat split; [exact Hpage | exact Hd |].
      rewrite Hq. apply Hls. by left.
    + apply (chained_mono [q]); [| exact Hc].
      intros x [<- | []]. apply in_app_iff. right. by left.
Qed.

Lemma crawlPage_rooted fuel :
  forall u d st st',
    crawlPage fuel u d st = Some st' ->
    exists new, crawledPages st' = crawledPages st ++ new /\ rooted u d new.
Proof.
  induction fuel as [| fuel IH]; intros u d st st' H; [discriminate |].
  apply crawlPage_inv in H as [-> | (Hd & Hu & Hn & Hs & [[_ ->] | (doc & _ & H)])].
  - exists []. by rewrite app_nil_r.
  - exists []. simpl. by rewrite app_nil_r.
  - destruct (crawlLinks_chained (fun link => crawlPage fuel link (S d))
                (pageOf u d st doc) (links (pageOf u d st doc)))
      with (before := [pageOf u d st doc])
           (st := push (pageOf u d st doc) (visit u st)) (st' := st')
      as (new & Hnew & Hch).
    + intros link s s' Hr. exact (IH _ _ _ _ Hr).
    + auto.
    + by left.
    + exact H.
    + exists (pageOf u d st doc :: new). split.
      * rewrite Hnew. simpl. by rewrite <- app_assoc.
      * simpl. by repeat split.
Qed.

(** *** What a URL in scope satisfies *)

Lemma existsb_false_In {A} (f : A -> bool) (l : list A) :
  existsb f l = false -> forall x, In x l -> f x = false.
Proof.
  intros H x Hx. destruct (f x) eqn:E; [| done].
  assert (existsb f l = true) by (apply existsb_exists; by exists x). congruence.
Qed.

Lemma In_existsb_false {A} (f : A -> bool) (l : list A) :
  (forall x, In x l -> f x = false) -> existsb f l = false.
Proof.
  intros H. destruct (existsb f l) eqn:E; [| done].
  apply existsb_exists in E as (x & Hx & Hf). rewrite (H x Hx) in Hf. discriminate.
Qed.

Lemma shouldCrawlUrl_in_scope base u :
  shouldCrawlUrl parseURL options base u = true <-> in_scope base u.
Proof.
  unfold shouldCrawlUrl, CrawlerShape.in_scope. split.
  - destruct (parseURL u) as [urlObj |] eqn:Hparse; [| discriminate].
    destruct (hostInScope options base (hostname urlObj)) eqn:Hh; [| discriminate].
    cbn [negb]. destruct (existsb _ (excludePatterns options)) eqn:He; [discriminate |].
    cbv zeta. destruct (_ && _) eqn:Hi; [discriminate |].
    destruct (existsb _ excludedExtensions) eqn:Hx; [discriminate |].
    intros _. exists urlObj. split; [reflexivity |]. split; [exact Hh |].
    split; [intros pattern Hp; exact (existsb_false_In _ _ He pattern Hp) |].
    split; [intros ext Hext; exact (existsb_false_In _ _ Hx ext Hext) |].
    destruct (includePatterns options) as [| i0 inc] eqn:Hinc; [by left | right].
    change (0 <? length (i0 :: inc))%nat with true in Hi. cbn [andb] in Hi.
    apply andb_false_iff in Hi as [Hm | Hr].
    + left. apply negb_false_iff, existsb_exists in Hm as (pattern & Hp & Hm).
      by exists pattern.
    + right. apply negb_false_iff, existsb_exists in Hr as (keyword & Hk & Hr).
      exists keyword. split; [exact Hk |].
      rewrite !orb_true_iff, !String.eqb_eq in Hr. tauto.
  - intros (urlObj & Hparse & Hh & He & Hx & Hi).
    rewrite Hparse, Hh. cbn [negb].
    rewrite (In_existsb_false _ _ He). cbv zeta.
    assert (Hext : existsb (fun ext => endsWith (toLowerCase (pathname urlObj)) ext)
                           excludedExtensions = false)
      by (apply In_existsb_false; exact Hx).
    assert (Hinc : (0 <? length (includePatterns options))%nat
                   && negb (existsb (fun pattern => includes (toLowerCase u) (toLowerCase pattern))
                                    (includePatterns options))
                   && negb (existsb (fun keyword =>
                                       includes (toLowerCase (pathname urlObj)) (toLowerCase keyword)
                                       || String.eqb (toLowerCase (pathname urlObj)) "/"
                                       || String.eqb (toLowerCase (pathname urlObj)) "")
                                    (relevantKeywords options)) = false).
    { destruct Hi as [-> | [(pattern & Hp & Hm) | (keyword & Hk & Hr)]]; [reflexivity | |].
      - assert (existsb (fun pattern => includes (toLowerCase u) (toLowerCase pattern))
                        (includePatterns options) = true) as ->
          by (apply existsb_exists; by exists pattern).
        by rewrite andb_false_r.
      - assert (existsb (fun keyword =>
                           includes (toLowerCase (pathname urlObj)) (toLowerCase keyword)
                           || String.eqb (toLowerCase (pathname urlObj)) "/"
                           || String.eqb (toLowerCase (pathname urlObj)) "")
                        (relevantKeywords options) = true) as ->.
        { apply existsb_exists. exists keyword. split; [exact Hk |].
          rewrite !orb_true_iff, !String.eqb_eq. tauto. }
        by rewrite andb_false_r. }
    by rewrite Hinc, Hext.
Qed.

(** *** The finished crawl *)

Lemma crawl_facts (startUrl : string) :
  exists st,
    crawlRun startUrl = Some st /\
    crawl parseURL fetch options startUrl = Some (crawledPages st) /\
    good st /\
    rooted startUrl 0 (crawledPages st) /\
    (length (crawledPages st) <= maxPages options)%nat /\
    Forall (fun p => exists seed,
                parseURL startUrl = Some seed /\ baseDomain st = hostname seed /\
                shouldCrawlUrl parseURL options (hostname seed) (url p) = true /\
                (depth p <= maxDepth options)%nat) (crawledPages st).
Proof.
  unfold CrawlerReport.crawlRun, crawl, crawlFrom.
  assert (G0 : forall base, good {| visitedUrls := ∅; crawledPages := []; baseDomain := base |}).
  { intros base. repeat split; simpl; try constructor; try done. }
  destruct (parseURL startUrl) as [seed |] eqn:Hseed.
  - simpl visitedUrls. simpl crawledPages.
    set (st0 := {| visitedUrls := ∅; crawledPages := []; baseDomain := hostname seed |}).
    destruct (CrawlerBounds.crawlPage_returns parseURL fetch options
                (S (maxDepth options)) startUrl 0 st0) as [st' Hst']; [lia |].
    change (2 + maxDepth options)%nat with (S (S (maxDepth options))).
    rewrite Hst'. exists st'.
    destruct (CrawlerBounds.crawlPage_extends _ _ _ _ _ _ _ _ Hst')
      as (Hbase & Hlen & new & Hnew & Hadm).
    destruct (crawlPage_rooted _ _ _ _ _ Hst') as (new' & Hnew' & Hroot).
    simpl in Hlen, Hnew, Hnew', Hadm, Hbase. subst new new'.
    split; [reflexivity |]. split; [reflexivity |].
    split; [exact (crawlPage_good _ _ _ _ _ Hst' (G0 _)) |].
    split; [exact Hroot |]. split; [lia |].
    eapply Forall_impl; [exact Hadm |].
    intros p [Hs Hd]. exists seed. by repeat split.
  - exists initial. split; [reflexivity |]. split; [reflexivity |].
    split; [apply (G0 "") |]. simpl. repeat split; [lia | constructor].
Qed.

(** X1: the pages a crawl returns have pairwise distinct URLs: a URL is
    marked visited before it is fetched and never crawled again. *)
Theorem crawl_never_repeats_a_url (startUrl : string) :
  exists pages,
    crawl parseURL fetch options startUrl = Some pages /\
    NoDup (map url pages).
Proof.
  destruct (crawl_facts startUrl) as (st & _ & Hc & (Hn & _) & _).
  by exists (crawledPages st).
Qed.

(** X2: a crawl returns nothing or the seed at depth 0 first, and every
    later page was linked from an earlier page of the list exactly one
    level above it (the link is among that page's recorded links); with
    [maxDepth = 0] at most the seed page is returned. *)
Theorem crawl_is_a_discovery_tree (startUrl : string) :
  exists pages,
    crawl parseURL fetch options startUrl = Some pages /\
    rooted startUrl 0 pages /\
    (maxDepth options = 0%nat -> (length pages <= 1)%nat).
Proof.
  destruct (crawl_facts startUrl) as (st & _ & Hc & _ & Hroot & _ & Hadm).
  exists (crawledPages st). repeat split; [exact Hc | exact Hroot |].
  intros Hz. destruct (crawledPages st) as [| p [| q rest]]; simpl; try lia.
  destruct Hroot as (_ & _ & (x & _ & Hq & _) & _).
  apply Forall_cons in Hadm as [_ Hadm]. apply Forall_cons in Hadm as [(_ & _ & _ & _ & Hd) _].
  lia.
Qed.

(** X3: in the pages a crawl returns, the links recorded for a page are
    pairwise distinct, pass the scope predicate for the seed's host, and
    name neither the page itself nor any page ahead of it in the list
    (URLs already visited are dropped when the links are extracted). *)
Theorem crawl_links_point_forward (startUrl : string) :
  exists pages,
    crawl parseURL fetch options startUrl = Some pages /\
    forward pages /\
    Forall (fun p => exists seed,
                parseURL startUrl = Some seed /\ clean_links (hostname seed) p) pages.
Proof.
  destruct (crawl_facts startUrl) as (st & _ & Hc & (_ & _ & Hf & Hcl) & _ & _ & Hadm).
  exists (crawledPages st). repeat split; [exact Hc | exact Hf |].
  apply Forall_forall. intros p Hp.
  rewrite Forall_forall in Hadm, Hcl.
  destruct (Hadm p Hp) as (seed & Hseed & Hbase & _). exists seed. split; [exact Hseed |].
  rewrite <- Hbase. by apply Hcl.
Qed.

(** X4: [shouldCrawlUrl] accepts exactly the URLs that meet the scope
    policy in each of its rules (the URL parses; its host passes the
    host rule; its lower-cased text contains none of the exclude
    patterns; its lower-cased path ends with none of the static
    extensions; with include patterns, it contains one of them or the
    path is relevant), and every page a crawl returns has such a URL,
    judged against the host of the seed; in strict mode
    ([sameDomainOnly]) its host is the seed's host. *)
Theorem crawl_respects_exclusions (startUrl : string) :
  (forall base u, shouldCrawlUrl parseURL options base u = true <-> in_scope base u) /\
  exists pages,
    crawl parseURL fetch options startUrl = Some pages /\
    Forall (fun p => exists seed,
                parseURL startUrl = Some seed /\
                in_scope (hostname seed) (url p) /\
                (sameDomainOnly options = true ->
                 exists urlObj, parseURL (url p) = Some urlObj
                                /\ hostname urlObj = hostname seed)) pages.
Proof.
  split; [apply shouldCrawlUrl_in_scope |].
  destruct (crawl_facts startUrl) as (st & _ & Hc & _ & _ & _ & Hadm).
  exists (crawledPages st). split; [exact Hc |].
  eapply Forall_impl; [exact Hadm |].
  intros p (seed & Hseed & _ & Hs & _). exists seed. split; [exact Hseed |].
  pose proof (proj1 (shouldCrawlUrl_in_scope _ _) Hs) as Hfacts. split; [exact Hfacts |].
  intros Hstrict. destruct Hfacts as (urlObj & Hp & Hh & _).
  exists urlObj. split; [exact Hp |].
  unfold hostInScope in Hh. rewrite Hstrict in Hh. by apply String.eqb_eq.
Qed.

Lemma max_depth_bound (pages : list CrawledPage) (m : nat) :
  Forall (fun p => (depth p <= m)%nat) pages ->
  (fold_right Nat.max 0%nat (map depth pages) <= m)%nat.
Proof. induction 1; simpl; lia. Qed.

(** X5: after a crawl, [getCrawlStats] reports at most [maxPages] pages,
    a deepest level of at most [maxDepth], and at least as many visited
    URLs as pages (URLs whose fetch failed are visited without a page). *)
Theorem crawl_stats_within_bounds (startUrl : string) :
  exists st,
    crawlRun startUrl = Some st /\
    crawl parseURL fetch options startUrl = Some (crawledPages st) /\
    let stats := getCrawlStats st in
    (Routes.cs_totalPages stats <= maxPages options)%nat /\
    (Routes.cs_maxDepthReached stats <= maxDepth options)%nat /\
    (Routes.cs_totalPages stats <= Routes.cs_visitedUrls stats)%nat.
Proof.
  destruct (crawl_facts startUrl) as (st & Hr & Hc & (Hn & Hv & _) & _ & Hlen & Hadm).
  exists st. repeat split; try assumption; simpl.
  - apply max_depth_bound. eapply Forall_impl; [exact Hadm |].
    intros p (seed & _ & _ & _ & Hd). exact Hd.
  - rewrite <- (length_map url), <- (size_list_to_set (C := gset string)) by exact Hn.
    apply subseteq_size. intros x Hx.
    apply elem_of_list_to_set, list_elem_of_In, in_map_iff in Hx as (p & <- & Hp).
    by apply Hv.
Qed.

End WithWeb.
End CrawlerTree.

(** ** The page scanner: requests, budget and passive findings *)
Module ScanLedger.
Import JsString Worker ScanTrace ScanAccounting.

Section WithEnvironment.
Context {engine : JsString.CaseMapping}.
Variable network : list Request -> Request -> Transport.
Variable stamp : nat -> string.
Variable cheerio_load : string -> Dom.
Variable resolveURL : string -> string -> option string.
Variable encodeParams : list (string * string) -> string.
Variable searchParamNames : string -> option (list string).
Variable setSearchParam : string -> string -> string -> string.

Local Abbreviation scanPage :=
  (Worker.scanPage network stamp cheerio_load resolveURL encodeParams
                   searchParamNames setSearchParam).
Local Abbreviation xssTest := (Worker.xssTest network stamp encodeParams).
Local Abbreviation sqliTest := (Worker.sqliTest network stamp encodeParams).
Local Abbreviation fuzzInput := (Worker.fuzzInput network stamp encodeParams).
Local Abbreviation scanForm := (Worker.scanForm network stamp resolveURL encodeParams).
Local Abbreviation scanParam := (Worker.scanParam network stamp setSearchParam).
Local Abbreviation scanUrlParameters :=
  (Worker.scanUrlParameters network stamp searchParamNames setSearchParam).
Local Abbreviation sqlProbe := (ScanAccounting.sqlProbe encodeParams).
Local Abbreviation leaks := (ScanAccounting.leaks network).
Local Abbreviation parsedForms := (ScanAccounting.parsedForms network cheerio_load).
Local Abbreviation paramCount := (ScanAccounting.paramCount searchParamNames).
Local Abbreviation phases :=
  (ScanAccounting.phases network stamp cheerio_load resolveURL encodeParams
                         searchParamNames setSearchParam).

(** *** Requests and the endpoint counter *)

Lemma metered_skip : metered (fun r => r).
Proof.
  intros r. split; [| done]. exists []. by rewrite app_nil_r, Nat.add_0_r.
Qed.

Lemma metered_seq f g : metered f -> metered g -> metered (fun r => g (f r)).
Proof.
  intros Hf Hg r.
  destruct (Hf r) as ((ps & Hs & He) & Hn & Hu).
  destruct (Hg (f r)) as ((qs & Hs' & He') & Hn' & Hu').
  split; [| split; congruence].
  exists (ps ++ qs). rewrite Hs', Hs, He', He, length_app, <- app_assoc.
  split; [reflexivity | lia].
Qed.

Lemma metered_loop {A} (step : A -> Run -> Run) (l : list A) :
  (forall a, metered (step a)) ->
  metered (fun r => fold_left (fun acc a => step a acc) l r).
Proof.
  intros Hstep. induction l as [| a l IH]; simpl; [apply metered_skip |].
  apply (metered_seq (step a) (fun r => fold_left (fun acc a => step a acc) l r));
    [apply Hstep | exact IH].
Qed.

Lemma metered_push mk : metered (pushVuln mk).
Proof.
  intros r. split; [| done]. exists []. simpl. by rewrite app_nil_r, Nat.add_0_r.
Qed.

Lemma metered_probed req : metered (probed req).
Proof.
  intros r. split; [| done]. exists [req]. simpl. split; [reflexivity | lia].
Qed.

Lemma xssTest_metered method targetUrl inputs inputName payloads :
  metered (xssTest method targetUrl inputs inputName payloads).
Proof.
  induction payloads as [| payload rest IH]; [apply metered_skip |].
  intros r. rewrite PageScanner.xssTest_step. cbv zeta. destruct (echoes _ _ _ _).
  - apply (metered_seq (probed _) (pushVuln _)); [apply metered_probed | apply metered_push].
  - apply (metered_seq (probed _) (xssTest _ _ _ _ rest)); [apply metered_probed | exact IH].
Qed.

Lemma sqliTest_metered method targetUrl inputs inputName payloads :
  metered (sqliTest method targetUrl inputs inputName payloads).
Proof.
  induction payloads as [| payload rest IH]; [apply metered_skip |].
  intros r. rewrite PageScanner.sqliTest_step. cbv zeta.
  destruct (match fetchOutcome _ with inl _ => _ | inr _ => _ end).
  - apply (metered_seq (probed _) (pushVuln _)); [apply metered_probed | apply metered_push].
  - apply (metered_seq (probed _) (sqliTest _ _ _ _ rest)); [apply metered_probed | exact IH].
Qed.

Lemma fuzzInput_metered method targetUrl inputs el :
  metered (fuzzInput method targetUrl inputs el).
Proof.
  unfold Worker.fuzzInput. destruct (name_attr el) as [inputName |]; [| apply metered_skip].
  destruct (String.eqb inputName ""); [apply metered_skip |].
  apply (metered_seq (xssTest _ _ _ _ _) (sqliTest _ _ _ _ _));
    [apply xssTest_metered | apply sqliTest_metered].
Qed.

Lemma csrfCheck_metered method targetUrl form :
  metered (csrfCheck stamp method targetUrl form).
Proof.
  unfold csrfCheck. destruct (_ && _); [apply metered_push | apply metered_skip].
Qed.

Lemma scanForm_metered page form : metered (scanForm page form).
Proof.
  unfold Worker.scanForm. cbv zeta.
  apply (metered_seq (csrfCheck stamp _ _ form)
           (fun r1 => fold_left (fun acc el => fuzzInput _ _ _ el acc) (fuzzInputs form) r1)).
  - apply csrfCheck_metered.
  - apply (metered_loop (fun el acc => fuzzInput _ _ _ el acc)).
    intros el. apply fuzzInput_metered.
Qed.

(** One URL parameter costs exactly two requests, both counted. *)
Lemma scanParam_requests page param r :
  sent (scanParam page param r)
  = sent r ++ [get (setSearchParam page param xssPayload);
               get (setSearchParam page param sqliPayload)] /\
  endpointsTested (result (scanParam page param r)) = (endpointsTested (result r) + 2)%nat /\
  formsFound (result (scanParam page param r)) = formsFound (result r) /\
  pageUrl (result (scanParam page param r)) = pageUrl (result r).
Proof.
  unfold Worker.scanParam, Worker.fetchPage. cbv zeta.
  destruct (fetchOutcome (network (sent (countEndpoint r)) _)) as [resX | msgX];
    [destruct (containsPayload _ _) |];
    (destruct (fetchOutcome (network _ (get (setSearchParam page param sqliPayload))))
      as [resS | msgS]; [destruct (containsSQLError _) |]);
    simpl; rewrite <- app_assoc; simpl; (repeat split; try done; lia).
Qed.

Lemma scanParam_metered page param : metered (scanParam page param).
Proof.
  intros r. destruct (scanParam_requests page param r) as (Hs & He & Hn & Hu).
  split; [| done]. eexists. split; [exact Hs | by rewrite He].
Qed.

Lemma scanUrlParameters_metered page : metered (scanUrlParameters page).
Proof.
  unfold Worker.scanUrlParameters. destruct (searchParamNames page); [| apply metered_skip].
  apply (metered_loop (fun param acc => scanParam page param acc)).
  intros param. apply scanParam_metered.
Qed.

Lemma domXssCheck_metered page scripts : metered (domXssCheck stamp page scripts).
Proof.
  unfold domXssCheck.
  apply (metered_loop (fun (s : string) acc =>
                         if includes s "innerHTML" || includes s "document.write"
                         then pushVuln (domXssFinding stamp page) acc else acc)).
  intros s. destruct (_ || _); [apply metered_push | apply metered_skip].
Qed.

Lemma infoDisclosure_metered page resp html :
  metered (infoDisclosure stamp page resp html).
Proof.
  unfold infoDisclosure. cbv zeta.
  apply (metered_seq (fun r => if truthy (server resp) then pushVuln _ r else r)
                     (fun r1 => if containsSQLError (Text html) then pushVuln _ r1 else r1)).
  - destruct (truthy _); [apply metered_push | apply metered_skip].
  - destruct (containsSQLError _); [apply metered_push | apply metered_skip].
Qed.

Lemma phases_metered page resp html : metered (phases page resp html).
Proof.
  unfold ScanAccounting.phases.
  apply (metered_seq (fun r => domXssCheck stamp page _ (scanUrlParameters page (fold_left _ _ r)))
                     (infoDisclosure stamp page resp html)); [| apply infoDisclosure_metered].
  apply (metered_seq (fun r => scanUrlParameters page (fold_left _ _ r))
                     (domXssCheck stamp page _)); [| apply domXssCheck_metered].
  apply (metered_seq (fun r => fold_left _ _ r) (scanUrlParameters page));
    [| apply scanUrlParameters_metered].
  apply (metered_loop (fun form acc => scanForm page form acc)).
  intros form. apply scanForm_metered.
Qed.

(** [scanPage] on a text body is the first fetch, the form count and
    the four phases. *)
Lemma scanPage_text page history n resp html :
  fetchOutcome (network history (get page)) = inl resp ->
  data resp = Text html ->
  scanPage page history n =
    let r := phases page resp html
               (setFormsFound (length (dom_forms (cheerio_load html)))
                  {| result := result (start page history n);
                     sent := history ++ [get page]; drawn := n |}) in
    ({| success := true; error := None; outcome_data := result r |}, r).
Proof.
  intros Hres Hbody. unfold Worker.scanPage, Worker.fetchPage. simpl.
  by rewrite Hres, Hbody.
Qed.

(** X6: whatever the target answers, the requests [scanPage] sends
    are the first fetch of the page followed by its probes, after the
    requests already sent; [endpointsTested] is the number of those
    probes, [formsFound] the number of forms of the parsed body, and
    the result returned is the one the run leaves, for the page
    asked. *)
Theorem scanPage_counts_its_probes (page : string) (history : list Request) (n : nat) :
  let out := fst (scanPage page history n) in
  let run := snd (scanPage page history n) in
  outcome_data out = result run /\
  pageUrl (result run) = page /\
  formsFound (result run) = length (parsedForms page history) /\
  exists probes,
    sent run = history ++ get page :: probes /\
    endpointsTested (result run) = length probes.
Proof.
  cbv zeta. unfold ScanAccounting.parsedForms.
  destruct (fetchOutcome (network history (get page))) as [resp | msg] eqn:Hres.
  - destruct (data resp) as [html |] eqn:Hbody.
    + rewrite (scanPage_text _ _ _ _ _ Hres Hbody). cbv zeta. cbn [fst snd outcome_data].
      destruct (phases_metered page resp html
                  (setFormsFound (length (dom_forms (cheerio_load html)))
                     {| result := result (start page history n);
                        sent := history ++ [get page]; drawn := n |}))
        as ((ps & Hs & He) & Hn & Hu).
      split; [reflexivity |]. split; [by rewrite Hu |]. split; [by rewrite Hn |].
      exists ps. rewrite Hs, He. simpl. by rewrite <- app_assoc.
    + unfold Worker.scanPage, Worker.fetchPage. simpl. rewrite Hres, Hbody. simpl.
      repeat split. by exists [].
  - unfold Worker.scanPage, Worker.fetchPage. simpl. rewrite Hres. simpl.
    repeat split. by exists [].
Qed.

(** *** The probe budget *)

Lemma tight_skip : tight 0 (fun r => r).
Proof.
  intros r. exists []. rewrite app_nil_r. split; [done |]. split; [lia | intros _; lia].
Qed.

Lemma tight_seq j k f g : tight j f -> tight k g -> tight (j + k) (fun r => g (f r)).
Proof.
  intros Hf Hg r. destruct (Hf r) as (fs & Hv & Hle & Heq).
  destruct (Hg (f r)) as (gs & Hv' & Hle' & Heq').
  exists (fs ++ gs). split; [by rewrite Hv', Hv, <- app_assoc |].
  split; [lia |]. intros Hnil. apply app_eq_nil in Hnil as [Hfs Hgs].
  rewrite (Heq' Hgs), (Heq Hfs). lia.
Qed.

Lemma tight_cast j k f : j = k -> tight j f -> tight k f.
Proof. by intros <-. Qed.

Lemma tight_push mk : tight 0 (pushVuln mk).
Proof.
  intros r. exists [mk (drawn r)]. simpl. split; [done |]. split; [lia | discriminate].
Qed.

Lemma tight_loop {A} (cost : A -> nat) (step : A -> Run -> Run) (l : list A) :
  (forall a, tight (cost a) (step a)) ->
  tight (list_sum (map cost l)) (fun r => fold_left (fun acc a => step a acc) l r).
Proof.
  intros Hstep. induction l as [| a l IH]; simpl; [apply tight_skip |].
  apply (tight_seq _ _ (step a) (fun r => fold_left (fun acc a => step a acc) l r));
    [apply Hstep | exact IH].
Qed.

Lemma xssTest_tight method targetUrl inputs inputName payloads :
  tight (length payloads) (xssTest method targetUrl inputs inputName payloads).
Proof.
  induction payloads as [| payload rest IH]; [apply tight_skip |].
  intros r. rewrite PageScanner.xssTest_step. cbv zeta. destruct (echoes _ _ _ _).
  - eexists [_]. simpl. split; [reflexivity |]. split; [lia | discriminate].
  - destruct (IH (probed (xssProbe encodeParams method targetUrl inputs inputName payload) r))
      as (fs & Hv & Hle & Heq).
    exists fs. simpl in *. split; [exact Hv |]. split; [lia |].
    intros Hnil. rewrite (Heq Hnil). lia.
Qed.

Lemma sqliTest_tight method targetUrl inputs inputName payloads :
  tight (length payloads) (sqliTest method targetUrl inputs inputName payloads).
Proof.
  induction payloads as [| payload rest IH]; [apply tight_skip |].
  intros r. rewrite PageScanner.sqliTest_step. cbv zeta.
  destruct (match fetchOutcome _ with inl _ => _ | inr _ => _ end).
  - eexists [_]. simpl. split; [reflexivity |]. split; [lia | discriminate].
  - destruct (IH (probed (probe encodeParams method targetUrl
                                (fillParams inputs inputName payload "1")) r))
      as (fs & Hv & Hle & Heq).
    exists fs. simpl in *. split; [exact Hv |]. split; [lia |].
    intros Hnil. rewrite (Heq Hnil). lia.
Qed.

Lemma fuzzInput_tight method targetUrl inputs el :
  tight (inputCost el) (fuzzInput method targetUrl inputs el).
Proof.
  unfold Worker.fuzzInput, inputCost, named, truthy.
  destruct (name_attr el) as [inputName |]; [| apply tight_skip].
  destruct (String.eqb inputName ""); [apply tight_skip |]. cbn [negb].
  apply (tight_seq _ _ (xssTest _ _ _ _ _) (sqliTest _ _ _ _ _));
    [apply xssTest_tight | apply sqliTest_tight].
Qed.

Lemma csrfCheck_tight method targetUrl form :
  tight 0 (csrfCheck stamp method targetUrl form).
Proof.
  unfold csrfCheck. destruct (_ && _); [apply tight_push | apply tight_skip].
Qed.

Lemma inputCost_sum (l : list Element) :
  list_sum (map inputCost l)
  = ((length XSS_PAYLOADS + length SQL_PAYLOADS) * length (List.filter named l))%nat.
Proof.
  unfold inputCost. generalize (length XSS_PAYLOADS + length SQL_PAYLOADS)%nat as k.
  intros k. induction l as [| el l IH]; simpl; [lia |].
  destruct (named el); simpl; lia.
Qed.

Lemma scanForm_tight page form :
  tight ((length XSS_PAYLOADS + length SQL_PAYLOADS) * length (testedInputs form))
        (scanForm page form).
Proof.
  unfold Worker.scanForm, testedInputs. cbv zeta.
  apply (tight_cast (0 + list_sum (map inputCost (fuzzInputs form))));
    [by rewrite inputCost_sum |].
  apply (tight_seq _ _ (csrfCheck stamp _ _ form)
           (fun r1 => fold_left (fun acc el => fuzzInput _ _ _ el acc) (fuzzInputs form) r1)).
  - apply csrfCheck_tight.
  - apply (tight_loop inputCost (fun el acc => fuzzInput _ _ _ el acc)).
    intros el. apply fuzzInput_tight.
Qed.

Lemma formCost_sum (k : nat) (forms : list FormEl) :
  list_sum (map (fun form => k * length (testedInputs form)) forms)%nat
  = (k * length (flat_map testedInputs forms))%nat.
Proof.
  induction forms as [| form forms IH]; simpl; [lia |].
  rewrite length_app, IH. lia.
Qed.

Lemma scanParam_tight page param : tight 2 (scanParam page param).
Proof.
  intros r. destruct (scanParam_requests page param r) as (_ & He & _ & _).
  destruct (PageScanner.scanParam_emits network stamp cheerio_load resolveURL
              searchParamNames setSearchParam page param r) as (fs & Hv & _).
  exists fs. split; [exact Hv |]. split; [lia | intros _; exact He].
Qed.

Lemma paramCost_sum (params : list string) :
  list_sum (map (fun _ => 2%nat) params) = (2 * length params)%nat.
Proof. induction params as [| p params IH]; simpl; lia. Qed.

Lemma scanUrlParameters_tight page :
  tight (2 * paramCount page) (scanUrlParameters page).
Proof.
  unfold Worker.scanUrlParameters, ScanAccounting.paramCount.
  destruct (searchParamNames page) as [params |]; [| apply tight_skip].
  apply (tight_cast (list_sum (map (fun _ => 2%nat) params))); [apply paramCost_sum |].
  apply (tight_loop (fun _ => 2%nat) (fun param acc => scanParam page param acc)).
  intros param. apply scanParam_tight.
Qed.

Lemma domXssCheck_tight page scripts : tight 0 (domXssCheck stamp page scripts).
Proof.
  unfold domXssCheck.
  apply (tight_cast (list_sum (map (fun _ => 0%nat) scripts)));
    [induction scripts; simpl; lia |].
  apply (tight_loop (fun _ => 0%nat)
           (fun (s : string) acc =>
              if includes s "innerHTML" || includes s "document.write"
              then pushVuln (domXssFinding stamp page) acc else acc)).
  intros s. destruct (_ || _); [apply tight_push | apply tight_skip].
Qed.

Lemma infoDisclosure_tight page resp html :
  tight 0 (infoDisclosure stamp page resp html).
Proof.
  unfold infoDisclosure. cbv zeta.
  apply (tight_seq 0 0 (fun r => if truthy (server resp) then pushVuln _ r else r)
                   (fun r1 => if containsSQLError (Text html) then pushVuln _ r1 else r1)).
  - destruct (truthy _); [apply tight_push | apply tight_skip].
  - destruct (containsSQLError _); [apply tight_push | apply tight_skip].
Qed.

Lemma phases_tight page resp html :
  tight (probeBudget (dom_forms (cheerio_load html)) (paramCount page))
        (phases page resp html).
Proof.
  unfold ScanAccounting.phases, probeBudget.
  set (k := (length XSS_PAYLOADS + length SQL_PAYLOADS)%nat).
  apply (tight_cast
           (list_sum (map (fun form => k * length (testedInputs form))%nat
                          (dom_forms (cheerio_load html)))
            + 2 * paramCount page + 0 + 0)); [rewrite formCost_sum; lia |].
  apply (tight_seq _ _
           (fun r => domXssCheck stamp page _ (scanUrlParameters page (fold_left _ _ r)))
           (infoDisclosure stamp page resp html)); [| apply infoDisclosure_tight].
  apply (tight_seq _ _ (fun r => scanUrlParameters page (fold_left _ _ r))
                   (domXssCheck stamp page _)); [| apply domXssCheck_tight].
  apply (tight_seq _ _ (fun r => fold_left _ _ r) (scanUrlParameters page));
    [| apply scanUrlParameters_tight].
  apply (tight_loop (fun form => k * length (testedInputs form))%nat
                    (fun form acc => scanForm page form acc)).
  intros form. apply scanForm_tight.
Qed.

(** X7: a page scan never spends more probes than its budget: every
    payload of the two corpora for every named visible input or
    textarea of the forms found, and two requests for every query
    parameter of the page URL. With the first fetch this bounds the
    requests one page costs the target. *)
Theorem scanPage_stays_within_probe_budget
        (page : string) (history : list Request) (n : nat) :
  let run := snd (scanPage page history n) in
  let budget := probeBudget (parsedForms page history) (paramCount page) in
  (endpointsTested (result run) <= budget)%nat /\
  (length (sent run) <= length history + 1 + budget)%nat.
Proof.
  cbv zeta. unfold ScanAccounting.parsedForms.
  destruct (fetchOutcome (network history (get page))) as [resp | msg] eqn:Hres.
  - destruct (data resp) as [html |] eqn:Hbody.
    + rewrite (scanPage_text _ _ _ _ _ Hres Hbody). cbv zeta. cbn [fst snd].
      set (r0 := setFormsFound _ _).
      destruct (phases_tight page resp html r0) as (fs & _ & Hle & _).
      destruct (phases_metered page resp html r0) as ((ps & Hs & He) & _).
      assert (H0 : endpointsTested (result r0) = 0%nat) by reflexivity.
      assert (Hl : length (sent r0) = (length history + 1)%nat)
        by (subst r0; simpl; rewrite length_app; reflexivity).
      rewrite Hs, length_app. lia.
    + unfold Worker.scanPage, Worker.fetchPage. simpl. rewrite Hres, Hbody. simpl.
      rewrite length_app. simpl. lia.
  - unfold Worker.scanPage, Worker.fetchPage. simpl. rewrite Hres. simpl.
    rewrite length_app. simpl. lia.
Qed.

(** X8: when the first fetch returns a text body and the scan ends
    without any finding, no loop was cut short: the scan has spent its
    whole budget, every payload on every tested input and two requests
    on every query parameter. *)
Theorem clean_scan_spends_whole_budget
        (page : string) (history : list Request) (n : nat) (resp : Response) (html : string) :
  fetchOutcome (network history (get page)) = inl resp ->
  data resp = Text html ->
  vulnerabilities (outcome_data (fst (scanPage page history n))) = [] ->
  let run := snd (scanPage page history n) in
  let budget := probeBudget (dom_forms (cheerio_load html)) (paramCount page) in
  endpointsTested (result run) = budget /\
  length (sent run) = (length history + 1 + budget)%nat.
Proof.
  intros Hres Hbody. rewrite (scanPage_text _ _ _ _ _ Hres Hbody). cbv zeta. cbn [fst snd outcome_data].
  set (r0 := setFormsFound _ _). intros Hnone.
  destruct (phases_tight page resp html r0) as (fs & Hv & _ & Heq).
  destruct (phases_metered page resp html r0) as ((ps & Hs & He) & _).
  rewrite Hnone in Hv. symmetry in Hv. apply app_eq_nil in Hv as [_ Hfs].
  specialize (Heq Hfs).
  assert (H0 : endpointsTested (result r0) = 0%nat) by reflexivity.
  assert (Hl : length (sent r0) = (length history + 1)%nat)
    by (subst r0; simpl; rewrite length_app; reflexivity).
  rewrite Hs, length_app. lia.
Qed.

(** *** The SQL test of one input *)

Lemma sqliTest_unfold method targetUrl inputs inputName payload rest r :
  sqliTest method targetUrl inputs inputName (payload :: rest) r =
    let req := sqlProbe method targetUrl inputs inputName payload in
    if leaks (sent r) req
    then pushVuln (sqliFinding stamp method targetUrl inputName) (probed req r)
    else sqliTest method targetUrl inputs inputName rest (probed req r).
Proof. apply PageScanner.sqliTest_step. Qed.

Lemma sqliTest_outcome method targetUrl inputs inputName payloads :
  let mk := sqlProbe method targetUrl inputs inputName in
  forall r,
    let r' := sqliTest method targetUrl inputs inputName payloads r in
    (vulnerabilities (result r') = vulnerabilities (result r) /\
     sent r' = sent r ++ map mk payloads /\
     forall j p, payloads !! j = Some p ->
                 leaks (sent r ++ map mk (take j payloads)) (mk p) = false)
    \/
    (exists k payload,
        payloads !! k = Some payload /\
        sent r' = sent r ++ map mk (take (S k) payloads) /\
        leaks (sent r ++ map mk (take k payloads)) (mk payload) = true /\
        (forall j p, (j < k)%nat -> payloads !! j = Some p ->
                     leaks (sent r ++ map mk (take j payloads)) (mk p) = false) /\
        vulnerabilities (result r') =
          vulnerabilities (result r)
          ++ [sqliFinding stamp method targetUrl inputName (drawn r)]).
Proof.
  intros mk. induction payloads as [| payload rest IH]; intros r.
  - left. simpl. rewrite app_nil_r. repeat split. intros j p Hj. by destruct j.
  - intros r'. subst r'. rewrite sqliTest_unfold. cbv zeta. fold mk.
    destruct (leaks (sent r) (mk payload)) eqn:He.
    + right. exists 0%nat, payload. simpl. rewrite app_nil_r.
      repeat split; [exact He |]. intros j p Hj. lia.
    + destruct (IH (probed (mk payload) r))
        as [(Hv & Hs & Hn) | (k & p & Hk & Hs & Hc & Hn & Hv)]; simpl in *.
      * left. repeat split; [exact Hv | by rewrite Hs, <- app_assoc |].
        intros [| j] q Hq; simpl in *.
        -- injection Hq as <-. by rewrite app_nil_r.
        -- specialize (Hn j q Hq). by rewrite <- app_assoc in Hn.
      * right. exists (S k), p. simpl.
        rewrite <- app_assoc in Hs, Hc. simpl in Hs, Hc.
        repeat split; [exact Hk | exact Hs | exact Hc | | exact Hv].
        intros [| j] q Hlt Hq; simpl in *.
        -- injection Hq as <-. by rewrite app_nil_r.
        -- specialize (Hn j q ltac:(lia) Hq). by rewrite <- app_assoc in Hn.
Qed.

(** X9: the SQL test of one form input either sends every payload of
    the corpus, none of whose responses shows a database error, and
    adds no finding; or it stops at the first payload whose response
    body contains one of the error fingerprints, compared in lower
    case, and adds exactly one finding, named "SQL Injection", of
    severity Critical and category SQL Injection, located at the
    method and the resolved action of the form. The fingerprint is
    looked for in the whole body, whatever the payload was. *)
Theorem sql_injection_finding_sound
        (method targetUrl : string) (inputs : list Element) (inputName : string) (r : Run) :
  let mk := sqlProbe method targetUrl inputs inputName in
  let r' := sqliTest method targetUrl inputs inputName SQL_PAYLOADS r in
  (vulnerabilities (result r') = vulnerabilities (result r) /\
   sent r' = sent r ++ map mk SQL_PAYLOADS /\
   forall j p, SQL_PAYLOADS !! j = Some p ->
               leaks (sent r ++ map mk (take j SQL_PAYLOADS)) (mk p) = false)
  \/
  exists k payload res body fingerprint f,
    SQL_PAYLOADS !! k = Some payload /\
    sent r' = sent r ++ map mk (take (S k) SQL_PAYLOADS) /\
    fetchOutcome (network (sent r ++ map mk (take k SQL_PAYLOADS)) (mk payload)) = inl res /\
    data res = Text body /\
    In fingerprint SQL_ERRORS /\
    includes (toLowerCase body) (toLowerCase fingerprint) = true /\
    (forall j p, (j < k)%nat -> SQL_PAYLOADS !! j = Some p ->
                 leaks (sent r ++ map mk (take j SQL_PAYLOADS)) (mk p) = false) /\
    vulnerabilities (result r') = vulnerabilities (result r) ++ [f] /\
    name f = "SQL Injection" /\
    severity f = Critical /\
    category f = SQLInjection /\
    location f = method +:+ " " +:+ targetUrl.
Proof.
  intros mk r'.
  destruct (sqliTest_outcome method targetUrl inputs inputName SQL_PAYLOADS r)
    as [H | (k & p & Hk & Hs & Hc & Hn & Hv)]; [by left |].
  right. unfold ScanAccounting.leaks in Hc. fold mk in Hc, Hs, Hn.
  destruct (fetchOutcome _) as [res | msg] eqn:Hres; [| discriminate].
  unfold containsSQLError in Hc.
  destruct (data res) as [body |] eqn:Hbody; [| discriminate].
  destruct (String.eqb body ""); [discriminate |].
  cbv zeta in Hc. apply existsb_exists in Hc as (fingerprint & Hin & Hinc).
  exists k, p, res, body, fingerprint, (sqliFinding stamp method targetUrl inputName (drawn r)).
  by repeat split.
Qed.

(** *** The passive checks *)

Lemma filter_all {A} (f : A -> bool) (P : A -> Prop) (l : list A) :
  (forall a, P a -> f a = true) -> Forall P l -> List.filter f l = l.
Proof.
  intros Hf Hl. induction Hl as [| a l Ha _ IH]; simpl; [done |].
  by rewrite (Hf a Ha), IH.
Qed.

Lemma filter_none {A} (f : A -> bool) (P : A -> Prop) (l : list A) :
  (forall a, P a -> f a = false) -> Forall P l -> List.filter f l = [].
Proof.
  intros Hf Hl. induction Hl as [| a l Ha _ IH]; simpl; [done |].
  by rewrite (Hf a Ha), IH.
Qed.

Lemma map_constant {A B} (g : A -> B) (b : B) (l : list A) :
  Forall (fun a => g a = b) l -> map g l = repeat b (length l).
Proof.
  intros Hl. induction Hl as [| a l Ha _ IH]; simpl; [done |]. by rewrite Ha, IH.
Qed.

Lemma csrfCheck_emits method targetUrl form :
  emits (from [D5]) (csrfCheck stamp method targetUrl form).
Proof.
  unfold csrfCheck. destruct (_ && _); [| apply PageScanner.emits_skip].
  apply PageScanner.emits_push. intros k. exists D5. split; [reflexivity | simpl; tauto].
Qed.

(** The form loop and the URL parameters only append findings of the
    five active detectors. *)
Lemma active_emits page forms :
  emits (from [D1; D2; D3; D4; D5])
        (fun r => scanUrlParameters page
                    (fold_left (fun acc form => scanForm page form acc) forms r)).
Proof.
  apply (PageScanner.emits_seq _ (fun r => fold_left _ _ r) (scanUrlParameters page)).
  - apply (PageScanner.emits_loop _ (fun form acc => scanForm page form acc)).
    intros form. unfold Worker.scanForm. cbv zeta.
    apply (PageScanner.emits_seq _ (csrfCheck stamp _ _ form)
             (fun r1 => fold_left (fun acc el => fuzzInput _ _ _ el acc) (fuzzInputs form) r1)).
    + eapply PageScanner.emits_weaken; [| apply csrfCheck_emits].
      intros v. apply PageScanner.from_mono. intros d. simpl. tauto.
    + apply (PageScanner.emits_loop _ (fun el acc => fuzzInput _ _ _ el acc)).
      intros el. eapply PageScanner.emits_weaken;
        [| apply (PageScanner.fuzzInput_emits network stamp cheerio_load resolveURL
                    encodeParams searchParamNames setSearchParam)].
      intros v. apply PageScanner.from_mono. intros d. simpl. tauto.
  - eapply PageScanner.emits_weaken;
      [| apply (PageScanner.scanUrlParameters_emits network stamp cheerio_load resolveURL
                  searchParamNames setSearchParam)].
    intros v. apply PageScanner.from_mono. intros d. simpl. tauto.
Qed.

(** The DOM check appends one finding for each script with a sink. *)
Lemma domXssCheck_exact page scripts r :
  exists fs,
    vulnerabilities (result (domXssCheck stamp page scripts r))
    = vulnerabilities (result r) ++ fs /\
    Forall (fun v => exists k, v = domXssFinding stamp page k) fs /\
    length fs = length (List.filter hasSink scripts).
Proof.
  unfold domXssCheck, hasSink. revert r.
  induction scripts as [| s scripts IH]; intros r; simpl.
  - exists []. by rewrite app_nil_r.
  - destruct (includes s "innerHTML" || includes s "document.write").
    + destruct (IH (pushVuln (domXssFinding stamp page) r)) as (fs & Hv & Hall & Hlen).
      exists (domXssFinding stamp page (drawn r) :: fs). simpl in Hv.
      rewrite Hv, <- app_assoc. split; [reflexivity |].
      split; [constructor; [by eexists | exact Hall] | simpl; by rewrite Hlen].
    + apply IH.
Qed.

(** The findings of the information disclosure check. *)
Lemma infoDisclosure_exact page resp html r :
  exists k1 k2,
    vulnerabilities (result (infoDisclosure stamp page resp html r))
    = vulnerabilities (result r)
      ++ (if truthy (server resp)
          then [serverFinding stamp (or_else (server resp) "") k1] else [])
      ++ (if containsSQLError (Text html) then [dbErrorFinding stamp page k2] else []).
Proof.
  unfold infoDisclosure. cbv zeta.
  exists (drawn r), (if truthy (server resp) then S (drawn r) else drawn r).
  destruct (truthy (server resp)); destruct (containsSQLError (Text html)); simpl;
    rewrite <- ?app_assoc, ?app_nil_r; reflexivity.
Qed.

(** What a text page yields: the active findings, then one DOM finding
    for each script with a sink, then the disclosure findings. *)
Lemma phases_findings page resp html r :
  exists active doms k1 k2,
    vulnerabilities (result (phases page resp html r))
    = vulnerabilities (result r) ++ active ++ doms
      ++ (if truthy (server resp)
          then [serverFinding stamp (or_else (server resp) "") k1] else [])
      ++ (if containsSQLError (Text html) then [dbErrorFinding stamp page k2] else []) /\
    Forall (from [D1; D2; D3; D4; D5]) active /\
    Forall (fun v => exists k, v = domXssFinding stamp page k) doms /\
    length doms = length (List.filter hasSink (dom_scripts (cheerio_load html))).
Proof.
  unfold ScanAccounting.phases.
  destruct (active_emits page (dom_forms (cheerio_load html)) r) as (active & Ha & Hfrom).
  set (r4 := scanUrlParameters page _) in *.
  destruct (domXssCheck_exact page (dom_scripts (cheerio_load html)) r4)
    as (doms & Hd & Hdom & Hlen).
  set (r5 := domXssCheck stamp page _ r4) in *.
  destruct (infoDisclosure_exact page resp html r5) as (k1 & k2 & Hi).
  exists active, doms, k1, k2. rewrite Hi, Hd, Ha, <- !app_assoc. by repeat split.
Qed.

Lemma is_named_active nm fs :
  (forall v, name v = nm -> exists d, detector v = Some d /\ ~ In d [D1; D2; D3; D4; D5]) ->
  Forall (from [D1; D2; D3; D4; D5]) fs ->
  List.filter (is_named nm) fs = [].
Proof.
  intros Hnm. apply filter_none. intros v (d & Hd & Hin).
  unfold is_named. destruct (String.eqb_spec (name v) nm) as [E | E]; [| done].
  destruct (Hnm v E) as (d' & Hd' & Hout). congruence.
Qed.

(** X10: on a text page the passive findings are exactly these: one
    "Potential DOM XSS" of severity High for each script element whose
    text contains [innerHTML] or [document.write]; one "Server Header
    Disclosure" of severity Low quoting the header when the first
    response carries a non-empty [server] header, whatever its status;
    one "Database Error Disclosure" of severity Medium when the body
    of the page itself shows an error fingerprint. *)
Theorem passive_findings_exact
        (page : string) (history : list Request) (n : nat) (resp : Response) (html : string) :
  fetchOutcome (network history (get page)) = inl resp ->
  data resp = Text html ->
  let found := vulnerabilities (outcome_data (fst (scanPage page history n))) in
  map brief (List.filter (is_named "Potential DOM XSS") found)
  = repeat ("Potential DOM XSS", High, XSS, page)
           (length (List.filter hasSink (dom_scripts (cheerio_load html)))) /\
  map (fun v => (brief v, description v))
      (List.filter (is_named "Server Header Disclosure") found)
  = match server resp with
    | Some value =>
        if String.eqb value "" then []
        else [(("Server Header Disclosure", Low, InformationDisclosure, "HTTP Headers"),
               "Server header exposed: " +:+ value)]
    | None => []
    end /\
  map brief (List.filter (is_named "Database Error Disclosure") found)
  = if containsSQLError (Text html)
    then [("Database Error Disclosure", Medium, InformationDisclosure, page)]
    else [].
Proof.
  intros Hres Hbody. rewrite (scanPage_text _ _ _ _ _ Hres Hbody).
  cbv zeta. cbn [fst outcome_data].
  set (r0 := setFormsFound _ _).
  destruct (phases_findings page resp html r0)
    as (active & doms & k1 & k2 & Hv & Hact & Hdom & Hlen).
  assert (H0 : vulnerabilities (result r0) = []) by reflexivity.
  rewrite Hv, H0, app_nil_l, !List.filter_app, !map_app.
  assert (Hpassive : forall nm,
             In nm ["Potential DOM XSS"; "Server Header Disclosure";
                    "Database Error Disclosure"] ->
             List.filter (is_named nm) active = []).
  { intros nm Hnm. apply is_named_active; [| exact Hact].
    intros v Hv'. unfold detector. rewrite Hv'.
    simpl in Hnm. destruct Hnm as [<- | [<- | [<- | []]]]; simpl;
      eexists; (split; [reflexivity | simpl; intuition discriminate]). }
  rewrite !Hpassive by (simpl; tauto).
  assert (Hd1 : List.filter (is_named "Potential DOM XSS") doms = doms).
  { eapply filter_all; [| exact Hdom]. by intros v (k & ->). }
  assert (Hd2 : List.filter (is_named "Server Header Disclosure") doms = []).
  { eapply filter_none; [| exact Hdom]. by intros v (k & ->). }
  assert (Hd3 : List.filter (is_named "Database Error Disclosure") doms = []).
  { eapply filter_none; [| exact Hdom]. by intros v (k & ->). }
  rewrite Hd1, Hd2, Hd3.
  rewrite <- Hlen. split; [| split].
  - rewrite (map_constant brief ("Potential DOM XSS", High, XSS, page) doms).
    + destruct (truthy (server resp)); destruct (containsSQLError (Text html));
        simpl; by rewrite app_nil_r.
    + eapply Forall_impl; [exact Hdom |]. by intros v (k & ->).
  - unfold truthy, or_else. destruct (server resp) as [value |].
    + destruct (String.eqb value ""); destruct (containsSQLError (Text html)); reflexivity.
    + destruct (containsSQLError (Text html)); reflexivity.
  - destruct (truthy (server resp)); destruct (containsSQLError (Text html)); reflexivity.
Qed.

(** What [scanPage] returns, by the outcome of its first fetch. *)
Lemma scanPage_verdict page history n :
  let out := fst (scanPage page history n) in
  let run := snd (scanPage page history n) in
  match fetchOutcome (network history (get page)) with
  | inl _ => success out = true /\ error out = None
  | inr msg => success out = false /\ error out = Some msg /\ sent run = history ++ [get page]
  end /\
  pageUrl (outcome_data out) = page /\
  exists probes,
    sent run = history ++ get page :: probes /\
    endpointsTested (outcome_data out) = length probes.
Proof.
  cbv zeta.
  destruct (fetchOutcome (network history (get page))) as [resp | msg] eqn:Hres.
  - destruct (data resp) as [html |] eqn:Hbody.
    + rewrite (scanPage_text _ _ _ _ _ Hres Hbody). cbv zeta. cbn [fst snd outcome_data success error].
      destruct (phases_metered page resp html
                  (setFormsFound (length (dom_forms (cheerio_load html)))
                     {| result := result (start page history n);
                        sent := history ++ [get page]; drawn := n |}))
        as ((ps & Hs & He) & Hn & Hu).
      split; [done |]. split; [by rewrite Hu |].
      exists ps. rewrite Hs, He. simpl. by rewrite <- app_assoc.
    + unfold Worker.scanPage, Worker.fetchPage. simpl. rewrite Hres, Hbody. simpl.
      repeat split. by exists [].
  - unfold Worker.scanPage, Worker.fetchPage. simpl. rewrite Hres. simpl.
    repeat split. by exists [].
Qed.

End WithEnvironment.

(* The examples are ASCII text. *)
#[local] Existing Instance Examples.ascii_case.

(** A form with two tested inputs on a target that echoes nothing and
    shows no error, one query parameter: 2 * 19 + 2 probes. *)
Lemma clean_scan_spends_whole_budget_witness :
  endpointsTested (result (snd (Targets.quiet_scanPage "http://q/?id=1"))) = 40%nat /\
  length (sent (snd (Targets.quiet_scanPage "http://q/?id=1"))) = 41%nat.
Proof.
  apply (clean_scan_spends_whole_budget (engine := Examples.ascii_case)
           Targets.quiet_network Examples.demo_stamp Targets.quiet_cheerio
           Targets.quiet_resolve Examples.demo_encode Targets.quiet_params
           Targets.quiet_setParam "http://q/?id=1" [] 0
           {| status := 200; server := None; data := Text "<html>thanks</html>" |}
           "<html>thanks</html>");
    [reflexivity | reflexivity | vm_compute; reflexivity].
Defined.

(** A page answered with status 500, a server header, a database
    warning and two scripts with a sink out of three. *)
Lemma passive_findings_exact_witness :
  let found := vulnerabilities (outcome_data (fst (Targets.leaky_scanPage "http://leaky/"))) in
  map brief (List.filter (is_named "Potential DOM XSS") found)
  = [("Potential DOM XSS", High, XSS, "http://leaky/");
     ("Potential DOM XSS", High, XSS, "http://leaky/")] /\
  map (fun v => (brief v, description v))
      (List.filter (is_named "Server Header Disclosure") found)
  = [(("Server Header Disclosure", Low, InformationDisclosure, "HTTP Headers"),
      "Server header exposed: Apache/2.2.8")] /\
  map brief (List.filter (is_named "Database Error Disclosure") found)
  = [("Database Error Disclosure", Medium, InformationDisclosure, "http://leaky/")].
Proof.
  apply (passive_findings_exact (engine := Examples.ascii_case)
           Targets.leaky_network Examples.demo_stamp Targets.leaky_cheerio
           Examples.demo_resolve Examples.demo_encode Examples.demo_params
           Examples.demo_setParam "http://leaky/" [] 0 Targets.leaky Targets.leakyHtml);
    reflexivity.
Defined.

End ScanLedger.

(** ** The worker's message handler *)
Module WorkerReplies.
Import JsString Worker WorkerMessages.

Section WithEnvironment.
Context {engine : JsString.CaseMapping}.
Variable network : list Request -> Request -> Transport.
Variable stamp : nat -> string.
Variable cheerio_load : string -> Dom.
Variable resolveURL : string -> string -> option string.
Variable encodeParams : list (string * string) -> string.
Variable searchParamNames : string -> option (list string).
Variable setSearchParam : string -> string -> string -> string.
Variable workerId : nat.
Variable unknownId : string.

Local Abbreviation scanPage :=
  (Worker.scanPage network stamp cheerio_load resolveURL encodeParams
                   searchParamNames setSearchParam).
Local Abbreviation onMessage :=
  (WorkerMessages.onMessage network stamp cheerio_load resolveURL encodeParams
                            searchParamNames setSearchParam workerId unknownId).

Lemma fetchOutcome_message t msg :
  fetchOutcome t = inr msg -> exists m, msg = "fetch error: " +:+ m.
Proof.
  unfold fetchOutcome. destruct (axios _ t) as [res | err]; [discriminate |].
  destruct (response err); [discriminate |]. intros [= <-]. by eexists.
Qed.

Lemma scanUrl_scan task u : scanUrl task = Some u -> task_type task = "scan".
Proof.
  unfold scanUrl. destruct (String.eqb_spec (task_type task) "scan"); [done | discriminate].
Qed.

(** X11: the worker answers every message with its own id. The answer
    reports success exactly for an init message and for a scan task
    with a page URL whose first fetch returned a response, of any
    status. A message that is neither is refused as invalid without
    any request. A scan task is answered under its own task id, with
    data for the URL asked and one endpoint counted for every request
    after the first; when the first fetch gets no response the error
    is the message of that failure and no probe is sent. *)
Theorem worker_reply_follows_first_fetch (task : Task) (history : list Request) (n : nat) :
  let reply := fst (onMessage task history n) in
  let after := fst (snd (onMessage task history n)) in
  r_workerId reply = workerId /\
  (r_success reply = true <->
     task_type task = "init" \/
     exists u resp,
       scanUrl task = Some u /\ fetchOutcome (network history (get u)) = inl resp) /\
  (task_type task = "init" \/ scanUrl task = None ->
     after = history /\ r_data reply = None) /\
  (task_type task <> "init" -> scanUrl task = None ->
     r_taskId reply = Some (or_else (task_id task) unknownId) /\
     r_error reply = Some "invalid task: missing url") /\
  (forall u, scanUrl task = Some u ->
     r_taskId reply = task_id task /\
     (exists d probes,
         r_data reply = Some d /\ pageUrl d = u /\
         after = history ++ get u :: probes /\
         endpointsTested d = length probes) /\
     (forall msg, fetchOutcome (network history (get u)) = inr msg ->
                  r_error reply = Some msg /\ after = history ++ [get u])).
Proof.
  cbv zeta. unfold WorkerMessages.onMessage.
  destruct (String.eqb_spec (task_type task) "init") as [Hinit | Hinit].
  { cbn [fst snd r_workerId r_success r_data r_taskId r_error].
    split; [reflexivity |]. split; [split; [by left | done] |].
    split; [done |]. split; [done |].
    intros u Hu. apply scanUrl_scan in Hu. congruence. }
  destruct (scanUrl task) as [u |] eqn:Hu.
  - pose proof (ScanLedger.scanPage_verdict network stamp cheerio_load resolveURL
                  encodeParams searchParamNames setSearchParam u history n) as Hrun.
    cbv zeta in Hrun.
    destruct (scanPage u history n) as [scanRes r] eqn:Hscan. cbn [fst snd] in Hrun.
    destruct Hrun as (Hverdict & Hpage & probes & Hsent & Hcount).
    destruct (fetchOutcome (network history (get u))) as [resp | msg] eqn:Hres.
    + destruct Hverdict as (Hok & _). rewrite Hok.
      cbn [fst snd r_workerId r_success r_data r_taskId r_error].
      split; [reflexivity |].
      split; [split; [intros _; right; by exists u, resp | done] |].
      split; [intros [? | ?]; [contradiction | discriminate] |].
      split; [intros _ ?; discriminate |].
      intros u' [= <-]. split; [reflexivity |].
      split; [| intros msg Hm; congruence].
      eexists _, probes. split; [reflexivity |]. by repeat split.
    + destruct Hverdict as (Hko & Herr & Hsent'). rewrite Hko.
      cbn [fst snd r_workerId r_success r_data r_taskId r_error].
      split; [reflexivity |].
      split; [split; [discriminate | intros [? | (u' & resp & [= <-] & ?)]; [contradiction | congruence]] |].
      split; [intros [? | ?]; [contradiction | discriminate] |].
      split; [intros _ ?; discriminate |].
      intros u' [= <-]. split; [reflexivity |].
      split; [eexists _, probes; split; [reflexivity |]; by repeat split |].
      intros msg' Hm. assert (msg' = msg) as -> by congruence. split; [| exact Hsent'].
      rewrite Herr. destruct (fetchOutcome_message _ _ Hres) as (m & ->). reflexivity.
  - cbn [fst snd r_workerId r_success r_data r_taskId r_error].
    split; [reflexivity |].
    split; [split; [discriminate | intros [? | (u' & resp & ? & ?)]; [contradiction | discriminate]] |].
    split; [done |]. split; [done |]. intros u' ?. discriminate.
Qed.

End WithEnvironment.
End WorkerReplies.

(** ** The progress server: rooms, late joiners and percentages *)
Module ProgressCache.
Import Progress ProgressOps ProgressRooms.

Lemma runs_invariant (P : Server -> Prop) (os : list Op) (s : Server) :
  (forall o s', P s' -> P (run o s')) -> P s -> P (runs os s).
Proof.
  intros Hstep. revert s. induction os as [| o os IH]; intros s Hs; simpl; [exact Hs |].
  apply IH, Hstep, Hs.
Qed.

Lemma roomEvents_snoc sid events p :
  roomEvents sid (events ++ [p])
  = roomEvents sid events ++ (if String.eqb (scanId p) sid then [p] else []).
Proof. unfold roomEvents. by rewrite List.filter_app. Qed.

Lemma keyed_initial : keyed initialServer.
Proof. intros k p H. simpl in H. by rewrite lookup_empty in H. Qed.

Lemma keyed_set p s : keyed s -> keyed (setAndBroadcast p s).
Proof.
  intros Hs k q. unfold setAndBroadcast. simpl. rewrite roomEvents_snoc.
  destruct (decide (scanId p = k)) as [<- | Hne].
  - rewrite lookup_insert_eq, String.eqb_refl. intros [= <-].
    split; [reflexivity | apply last_snoc].
  - rewrite lookup_insert_ne by done.
    destruct (String.eqb_spec (scanId p) k) as [E | _]; [done |].
    rewrite app_nil_r. apply Hs.
Qed.

Lemma keyed_cleanup sid s : keyed s -> keyed (cleanup sid s).
Proof.
  intros Hs k q. unfold cleanup. simpl. intros Hq.
  apply lookup_delete_Some in Hq as [_ Hq]. by apply Hs.
Qed.

Lemma keyed_run o s : keyed s -> keyed (run o s).
Proof.
  intros Hs. destruct o; simpl;
    unfold startScan, updateCrawlingProgress, updateScanningProgress, completeScan, errorScan;
    try (destruct (scanProgress s !! sid)); try apply keyed_set; try apply keyed_cleanup; done.
Qed.

Lemma keyed_runs os : keyed (runs os initialServer).
Proof. apply runs_invariant; [apply keyed_run | apply keyed_initial]. Qed.

(** What a call about [sid] does to the view of [sid]: nothing, or a new
    entry that is also the next event of the room, or the entry dropped. *)
Lemma run_view_same o s1 s2 :
  keyed s1 -> keyed s2 ->
  view (target o) s1 = view (target o) s2 ->
  view (target o) (run o s1) = view (target o) (run o s2).
Proof.
  intros H1 H2. unfold view. intros [= He Hr].
  assert (Hset : forall p,
             scanId p = target o ->
             (scanProgress (setAndBroadcast p s1) !! target o,
              roomEvents (target o) (broadcast (setAndBroadcast p s1)))
             = (scanProgress (setAndBroadcast p s2) !! target o,
                roomEvents (target o) (broadcast (setAndBroadcast p s2)))).
  { intros p Hp. unfold setAndBroadcast. simpl.
    rewrite !roomEvents_snoc, Hp, !lookup_insert_eq, Hr. reflexivity. }
  destruct o; simpl in *;
    unfold startScan, updateCrawlingProgress, updateScanningProgress, completeScan, errorScan.
  - by apply Hset.
  - rewrite <- He. destruct (scanProgress s1 !! sid) as [p |] eqn:Hp.
    + apply Hset. simpl. by apply H1.
    + by rewrite Hp, <- He, Hr.
  - rewrite <- He. destruct (scanProgress s1 !! sid) as [p |] eqn:Hp.
    + apply Hset. simpl. by apply H1.
    + by rewrite Hp, <- He, Hr.
  - rewrite <- He. destruct (scanProgress s1 !! sid) as [p |] eqn:Hp.
    + apply Hset. simpl. by apply H1.
    + by rewrite Hp, <- He, Hr.
  - rewrite <- He. destruct (scanProgress s1 !! sid) as [p |] eqn:Hp.
    + apply Hset. simpl. by apply H1.
    + by rewrite Hp, <- He, Hr.
  - unfold cleanup. simpl. by rewrite !lookup_delete_eq, Hr.
Qed.

Lemma run_view_other o sid s :
  keyed s -> target o <> sid -> view sid (run o s) = view sid s.
Proof.
  intros Hs Hne. unfold view.
  assert (Hset : forall p,
             scanId p = target o ->
             (scanProgress (setAndBroadcast p s) !! sid,
              roomEvents sid (broadcast (setAndBroadcast p s)))
             = (scanProgress s !! sid, roomEvents sid (broadcast s))).
  { intros p Hp. unfold setAndBroadcast. simpl.
    rewrite roomEvents_snoc, Hp, lookup_insert_ne by done.
    destruct (String.eqb_spec (target o) sid); [done | by rewrite app_nil_r]. }
  destruct o; simpl in *;
    unfold startScan, updateCrawlingProgress, updateScanningProgress, completeScan, errorScan.
  - by apply Hset.
  - destruct (scanProgress s !! sid0) as [p |] eqn:Hp; [| done].
    apply Hset. simpl. by apply Hs.
  - destruct (scanProgress s !! sid0) as [p |] eqn:Hp; [| done].
    apply Hset. simpl. by apply Hs.
  - destruct (scanProgress s !! sid0) as [p |] eqn:Hp; [| done].
    apply Hset. simpl. by apply Hs.
  - destruct (scanProgress s !! sid0) as [p |] eqn:Hp; [| done].
    apply Hset. simpl. by apply Hs.
  - unfold cleanup. simpl. by rewrite lookup_delete_ne.
Qed.

Lemma runs_view sid os :
  forall s1 s2, keyed s1 -> keyed s2 -> view sid s1 = view sid s2 ->
    view sid (runs os s1)
    = view sid (runs (List.filter (fun o => String.eqb (target o) sid) os) s2).
Proof.
  induction os as [| o os IH]; intros s1 s2 H1 H2 Hv; simpl; [exact Hv |].
  destruct (String.eqb_spec (target o) sid) as [E | E]; simpl.
  - apply IH; [by apply keyed_run | by apply keyed_run |].
    subst sid. by apply run_view_same.
  - apply IH; [by apply keyed_run | exact H2 |].
    by rewrite run_view_other.
Qed.

(** X12: whatever calls the server has served, for whatever scans,
    the entry it holds for a scan, which is what a client joining the
    room is sent, is the latest progress event that went to that room.
    As long as [cleanup] was not called for the scan, it holds such an
    entry as soon as the room has had an event. *)
Theorem joining_client_gets_latest_event (os : list Op) (sid : string) :
  let s := runs os initialServer in
  (forall p, getScanProgress sid s = Some p ->
             joinScan sid s = [p] /\ scanId p = sid /\
             last (roomEvents sid (broadcast s)) = Some p) /\
  (existsb (is_cleanup sid) os = false ->
   getScanProgress sid s = last (roomEvents sid (broadcast s))).
Proof.
  cbv zeta. split.
  - intros p Hp. unfold joinScan. unfold getScanProgress in Hp. rewrite Hp.
    split; [reflexivity |]. by apply (keyed_runs os).
  - unfold getScanProgress.
    assert (Hgen : forall s,
               keyed s ->
               scanProgress s !! sid = last (roomEvents sid (broadcast s)) ->
               existsb (is_cleanup sid) os = false ->
               scanProgress (runs os s) !! sid
               = last (roomEvents sid (broadcast (runs os s)))).
    { induction os as [| o os IH]; intros s Hs Heq Hno; simpl; [exact Heq |].
      simpl in Hno. apply orb_false_iff in Hno as [Ho Hos].
      apply IH; [by apply keyed_run | | exact Hos].
      destruct (decide (target o = sid)) as [E | E].
      - assert (Hset : forall p,
                   scanId p = sid ->
                   scanProgress (setAndBroadcast p s) !! sid
                   = last (roomEvents sid (broadcast (setAndBroadcast p s)))).
        { intros p Hp. unfold setAndBroadcast. simpl.
          by rewrite roomEvents_snoc, Hp, lookup_insert_eq, String.eqb_refl, last_snoc. }
        assert (Hupd : forall f : ScanProgress -> ScanProgress,
                   (forall p, scanId (f p) = scanId p) ->
                   scanProgress (match scanProgress s !! sid with
                                 | Some p => setAndBroadcast (f p) s
                                 | None => s
                                 end) !! sid
                   = last (roomEvents sid
                             (broadcast (match scanProgress s !! sid with
                                         | Some p => setAndBroadcast (f p) s
                                         | None => s
                                         end)))).
        { intros f Hf. destruct (scanProgress s !! sid) as [p |] eqn:Hp.
          - apply Hset. rewrite Hf. by apply Hs.
          - by rewrite Hp. }
        destruct o; simpl in E; subst sid; simpl.
        + by apply Hset.
        + apply (Hupd (crawlingUpdate pagesFound)). done.
        + apply (Hupd (scanningUpdate scanned vulns forms endpoints)). done.
        + unfold completeScan. apply (Hupd (fun p => Build_ScanProgress _ _ _ _ _ _ _ _)). done.
        + unfold errorScan. apply (Hupd (fun p => Build_ScanProgress _ _ _ _ _ _ _ _)). done.
        + simpl in Ho. by rewrite String.eqb_refl in Ho.
      - pose proof (run_view_other o sid s Hs E) as Hv. unfold view in Hv.
        injection Hv as -> ->. exact Heq. }
    apply Hgen; [apply keyed_initial | done].
Qed.

(** X13: scans do not interfere. The events of the room of a scan and
    the entry held for it are those the server would have produced had
    it served only the calls made for that scan. *)
Theorem scans_do_not_interfere (os : list Op) (sid : string) :
  let mine := List.filter (fun o => String.eqb (target o) sid) os in
  roomEvents sid (broadcast (runs os initialServer))
  = roomEvents sid (broadcast (runs mine initialServer)) /\
  getScanProgress sid (runs os initialServer)
  = getScanProgress sid (runs mine initialServer) /\
  roomEvents sid (broadcast (runs mine initialServer)) = broadcast (runs mine initialServer).
Proof.
  cbv zeta.
  pose proof (runs_view sid os initialServer initialServer
                keyed_initial keyed_initial eq_refl) as Hv.
  unfold view in Hv. injection Hv as He Hr.
  split; [exact Hr |]. split; [exact He |].
  set (mine := List.filter _ os).
  assert (Hmine : Forall (fun o => target o = sid) mine).
  { apply Forall_forall. intros o Ho. apply list_elem_of_In, List.filter_In in Ho as [_ Ho].
    by apply String.eqb_eq. }
  clearbody mine. clear He Hr.
  assert (Hgen : forall s,
             keyed s -> roomEvents sid (broadcast s) = broadcast s ->
             roomEvents sid (broadcast (runs mine s)) = broadcast (runs mine s)).
  { induction Hmine as [| o mine Ho _ IH]; intros s Hs Hall; simpl; [exact Hall |].
    apply IH; [by apply keyed_run |].
    assert (Hset : forall p,
               scanId p = sid ->
               roomEvents sid (broadcast (setAndBroadcast p s)) = broadcast (setAndBroadcast p s)).
    { intros p Hp. unfold setAndBroadcast. simpl.
      by rewrite roomEvents_snoc, Hp, String.eqb_refl, Hall. }
    assert (Hupd : forall f : ScanProgress -> ScanProgress,
               (forall p, scanId (f p) = scanId p) ->
               roomEvents sid (broadcast (match scanProgress s !! sid with
                                          | Some p => setAndBroadcast (f p) s
                                          | None => s
                                          end))
               = broadcast (match scanProgress s !! sid with
                            | Some p => setAndBroadcast (f p) s
                            | None => s
                            end)).
    { intros f Hf. destruct (scanProgress s !! sid) as [p |] eqn:Hp; [| exact Hall].
      apply Hset. rewrite Hf. by apply Hs. }
    destruct o; simpl in Ho; subst sid; simpl.
    + by apply Hset.
    + apply (Hupd (crawlingUpdate pagesFound)). done.
    + apply (Hupd (scanningUpdate scanned vulns forms endpoints)). done.
    + unfold completeScan. apply (Hupd (fun p => Build_ScanProgress _ _ _ _ _ _ _ _)). done.
    + unfold errorScan. apply (Hupd (fun p => Build_ScanProgress _ _ _ _ _ _ _ _)). done.
    + exact Hall. }
  by apply Hgen; [apply keyed_initial |].
Qed.

(** *** Percentages *)

Lemma round_ratio_scan_le s t :
  (1 <= t)%nat -> (s <= t)%nat -> (round_ratio (30 * t + s * 70) t <= 100)%nat.
Proof.
  intros Ht Hs. unfold round_ratio.
  assert ((2 * (30 * t + s * 70) + t) / (2 * t) < 101)%nat; [| lia].
  apply Nat.Div0.div_lt_upper_bound. nia.
Qed.

Lemma plausible_set p s : plausible p -> all_plausible s -> all_plausible (setAndBroadcast p s).
Proof.
  intros Hp [Hmap Hev]. split; simpl.
  - intros k q. destruct (decide (scanId p = k)) as [<- | Hne].
    + rewrite lookup_insert_eq. by intros [= <-].
    + rewrite lookup_insert_ne by done. apply Hmap.
  - apply Forall_app. split; [exact Hev | by constructor].
Qed.

Lemma plausible_run o s : all_plausible s -> all_plausible (run o s).
Proof.
  intros Hs. pose proof Hs as [Hmap Hev].
  destruct o; simpl;
    unfold startScan, updateCrawlingProgress, updateScanningProgress, completeScan, errorScan.
  - apply plausible_set; [| exact Hs]. split; simpl; lia.
  - destruct (scanProgress s !! sid) as [p |] eqn:Hp; [| exact Hs].
    apply plausible_set; [| exact Hs]. destruct (Hmap _ _ Hp) as [Hc Hb].
    assert (H30 : (round_ratio (pagesFound * 30)
                               (Nat.max (Nat.max (totalPages p) pagesFound) 1) <= 30)%nat)
      by (apply ProgressOrder.round_ratio_crawl_le; lia).
    split; simpl; [| lia]. intros Hst. destruct (Hc Hst) as (_ & ? & ? & ? & _).
    repeat split; try done; lia.
  - destruct (scanProgress s !! sid) as [p |] eqn:Hp; [| exact Hs].
    apply plausible_set; [| exact Hs].
    split; [simpl; by destruct (totalPages p <=? scanned)%nat |].
    unfold scanningUpdate. cbn [progress pagesScanned totalPages].
    intros Hle. apply round_ratio_scan_le; lia.
  - destruct (scanProgress s !! sid) as [p |] eqn:Hp; [| exact Hs].
    apply plausible_set; [| exact Hs]. split; simpl; [done | lia].
  - destruct (scanProgress s !! sid) as [p |] eqn:Hp; [| exact Hs].
    apply plausible_set; [| exact Hs]. destruct (Hmap _ _ Hp) as [Hc Hb].
    split; simpl; [done | exact Hb].
  - split; [| exact Hev]. unfold cleanup. simpl. intros k q Hq.
    apply lookup_delete_Some in Hq as [_ Hq]. by apply (Hmap k).
Qed.

(** X14: whatever calls the server has served, every progress event it
    has broadcast is plausible: an event of status crawling shows at
    most 30 percent, no finding, form or endpoint yet, and no more
    pages found than pages in total; and no event shows more than 100
    percent unless it reports more scanned pages than pages in total. *)
Theorem progress_events_plausible (os : list Op) :
  Forall plausible (broadcast (runs os initialServer)).
Proof.
  assert (H : all_plausible (runs os initialServer)); [| apply H].
  apply runs_invariant; [apply plausible_run |].
  split; [| constructor]. intros k p Hp. simpl in Hp. by rewrite lookup_empty in Hp.
Qed.

End ProgressCache.

(** ** The worker pool: scan statistics *)
Module PoolStatistics.
Import JsString Progress PoolTally.









End PoolStatistics.

(** ** The scan route on success, and the advice endpoints *)
Module ScanResults.
Import JsString Routes Api.

Section WithScanner.
Variable scannerScan :
  string -> string -> option Progress.Server -> (ScanResult + string) * option Progress.Server.
Variable now : string.

Local Abbreviation postScan := (Routes.postScan scannerScan now).

Lemma updateScan_other sid k u (store : Storage) :
  k <> sid -> updateScan sid u store !! k = store !! k.
Proof.
  intros Hne. unfold updateScan. destruct (store !! sid); [| done].
  by apply lookup_insert_ne.
Qed.

Lemma completeScan_event sid stats s p :
  Progress.scanProgress s !! sid = Some p ->
  last (Progress.broadcast (Progress.completeScan sid stats s))
  = Some {| Progress.scanId := Progress.scanId p;
            Progress.status := Progress.completed;
            Progress.progress := 100;
            Progress.pagesScanned :=
              Progress.count_or (Progress.fs_pagesScanned stats) (Progress.pagesScanned p);
            Progress.totalPages := Progress.totalPages p;
            Progress.vulnerabilitiesFound :=
              Progress.count_or (Progress.fs_vulnerabilities stats) 0;
            Progress.formsFound := Progress.count_or (Progress.fs_formsFound stats) 0;
            Progress.endpointsTested :=
              Progress.count_or (Progress.fs_endpointsTested stats) 0 |}.
Proof.
  intros Hp. unfold Progress.completeScan. rewrite Hp. simpl. apply last_snoc.
Qed.

(** X16: when the scanner resolves, [GET /api/scans/:id] serves the
    new scan as completed with the scanner's findings, page count and
    crawl statistics, under the id and the URL it was created with,
    and every other stored scan as before. If the progress server
    still holds the scan, the last event it broadcasts is the
    completion at 100 percent, and it reports 0 forms and 0 endpoints
    whatever the scanner counted: [performVulnerabilityScan] does not
    pass these two counts on. *)
Theorem successful_scan_is_served_as_completed
        (newId target : string) (w : World) (result : ScanResult)
        (ws' : option Progress.Server) :
  scannerScan target newId (Progress.startScan newId 0 <$> wsServer w)
    = (inl result, ws') ->
  let w' := snd (postScan newId target w) in
  getScanRoute newId w'
  = Found {| id := newId; url := target; status := completed;
             vulnerabilities := r_vulnerabilities result;
             pagesScanned := Some (r_pagesScanned result);
             crawlStats := r_crawlStats result;
             completedAt := Some now |} /\
  (forall k, k <> newId -> getScanRoute k w' = getScanRoute k w) /\
  (forall s p,
      ws' = Some s -> Progress.scanProgress s !! newId = Some p ->
      exists s' e,
        wsServer w' = Some s' /\
        last (Progress.broadcast s') = Some e /\
        Progress.status e = Progress.completed /\
        Progress.progress e = 100%nat /\
        Progress.vulnerabilitiesFound e = length (r_vulnerabilities result) /\
        Progress.formsFound e = 0%nat /\
        Progress.endpointsTested e = 0%nat).
Proof.
  intros Hscan. cbv zeta.
  unfold Routes.postScan, createScan, scanTask, scanTaskBody,
    performVulnerabilityScan, onServer, onStorage. simpl.
  rewrite Hscan. simpl. unfold getScanRoute, getScan. simpl.
  split; [| split].
  - erewrite ScanRoute.updateScan_stored.
    2:{ erewrite ScanRoute.updateScan_stored; [reflexivity | apply lookup_insert_eq]. }
    reflexivity.
  - intros k Hk. rewrite !updateScan_other by done.
    unfold Storage. rewrite lookup_insert_ne by congruence. reflexivity.
  - intros s p -> Hp. simpl. eexists _, _. split; [reflexivity |].
    split; [by apply completeScan_event |]. simpl.
    repeat split. by destruct (length (r_vulnerabilities result)).
Qed.

End WithScanner.

(** A scan of a shop that finds one vulnerability, two forms and forty
    endpoints. *)
Lemma successful_scan_is_served_as_completed_witness :
  let w' := snd (Routes.postScan Scans.fine_scanner "2026-01-01T00:00:00Z"
                                 "scan-7" "http://shop/" Examples.idle) in
  getScanRoute "scan-7" w'
  = Found {| id := "scan-7"; url := "http://shop/"; status := completed;
             vulnerabilities := [Scans.finding];
             pagesScanned := Some 3%nat;
             crawlStats := None;
             completedAt := Some "2026-01-01T00:00:00Z" |} /\
  (forall k, k <> "scan-7" -> getScanRoute k w' = getScanRoute k Examples.idle) /\
  (forall s p,
      Progress.startScan "scan-7" 0 <$> wsServer Examples.idle = Some s ->
      Progress.scanProgress s !! "scan-7" = Some p ->
      exists s' e,
        wsServer w' = Some s' /\
        last (Progress.broadcast s') = Some e /\
        Progress.status e = Progress.completed /\
        Progress.progress e = 100%nat /\
        Progress.vulnerabilitiesFound e = 1%nat /\
        Progress.formsFound e = 0%nat /\
        Progress.endpointsTested e = 0%nat).
Proof.
  apply (successful_scan_is_served_as_completed
           Scans.fine_scanner "2026-01-01T00:00:00Z" "scan-7" "http://shop/" Examples.idle
           {| r_vulnerabilities := [Scans.finding]; r_pagesScanned := 3; r_formsFound := 2;
              r_endpointsTested := 40; r_crawlStats := None |}).
  reflexivity.
Defined.

(** *** The advice endpoints *)

Lemma startsWith_app s rest p : startsWith s p = true -> startsWith (s +:+ rest) p = true.
Proof.
  revert s. induction p as [| a p IH]; intros s; [by destruct (s +:+ rest) |].
  destruct s as [| c s]; simpl; [done |].
  intros H. apply andb_true_iff in H as [-> H]. by apply IH.
Qed.

Lemma includes_app_l s rest p : includes s p = true -> includes (s +:+ rest) p = true.
Proof.
  induction s as [| c s IH]; simpl.
  - rewrite orb_false_r. destruct p; [by destruct rest | done].
  - intros H. apply orb_true_iff in H as [H | H].
    + pose proof (startsWith_app (String c s) rest p H) as H'. simpl in H'.
      by rewrite H'.
    + rewrite (IH H). apply orb_true_r.
Qed.

(** X17: the fix endpoint answers every vulnerability with the same
    canned recommendation: the prompt it builds always contains "fix for
    this", so neither the category nor the description sent has any
    influence on the answer; it answers 400 only when the body carries
    no vulnerability. The chat endpoint answers with the same
    recommendation exactly when the message itself contains "fix for
    this", and with a fixed greeting otherwise. *)
Theorem fix_advice_ignores_the_vulnerability :
  (forall category description,
      fixRoute (Some (category, description)) = Some fixAdvice) /\
  (forall vulnerability, fixRoute vulnerability = None <-> vulnerability = None) /\
  (forall message,
      chatRoute message
      = if includes message "fix for this" then fixAdvice else greeting).
Proof.
  split; [| split].
  - intros category description. unfold fixRoute, callOllama, fixPrompt.
    by rewrite (includes_app_l "Generate a detailed fix for this ").
  - intros [[category description] |]; simpl; split; done.
  - intros message. unfold chatRoute, callOllama, chatPrompt. simpl. reflexivity.
Qed.

End ScanResults.

(** ** The worker pool: queue, dispatch and bookkeeping *)
Module PoolInvariants.
Import JsString WorkerPool PoolLedger.

Lemma postings_snoc es e :
  postings (es ++ [e])
  = postings es ++ match e with Posted position _ task => [(position, task)] | _ => [] end.
Proof. unfold postings. rewrite flat_map_app. simpl. by rewrite app_nil_r. Qed.

Lemma settlements_snoc es e :
  settlements (es ++ [e])
  = settlements es ++ match e with
                      | Resolved promise => [promise]
                      | Rejected promise _ => [promise]
                      | _ => []
                      end.
Proof. unfold settlements. rewrite flat_map_app. simpl. by rewrite app_nil_r. Qed.

Lemma findFree_spec active ws i position workerId :
  findFree active ws i = Some (position, workerId) ->
  active !! position = None /\ (i <= position)%nat /\
  ws !! (position - i)%nat = Some (Some workerId).
Proof.
  revert i. induction ws as [| w ws IH]; intros i; simpl; [done |].
  destruct w as [wid |].
  - destruct (active !! i) eqn:Hi.
    + intros H. destruct (IH _ H) as (Ha & Hle & Hw).
      split; [done |]. split; [lia |].
      replace (position - i)%nat with (S (position - S i)) by lia. done.
    + intros [= <- <-]. rewrite Nat.sub_diag. by repeat split.
  - intros H. destruct (IH _ H) as (Ha & Hle & Hw).
    split; [done |]. split; [lia |].
    replace (position - i)%nat with (S (position - S i)) by lia. done.
Qed.

(** *** The sort of the queue *)

Lemma insert_perm t l : insert t l ≡ₚ t :: l.
Proof.
  induction l as [| x l IH]; simpl; [done |].
  destruct (rank x <=? rank t)%Z; [done |]. rewrite IH. apply Permutation_swap.
Qed.

Lemma sortQueue_perm l : sortQueue l ≡ₚ l.
Proof.
  induction l as [| x l IH]; simpl; [done |]. by rewrite insert_perm, IH.
Qed.

Lemma insert_In t x l : In x (insert t l) <-> x = t \/ In x l.
Proof.
  induction l as [| y l IH]; simpl; [intuition congruence |].
  destruct (rank y <=? rank t)%Z; simpl; [intuition congruence |]. rewrite IH. tauto.
Qed.



Section WithOptions.
Variable workerCount : nat.
Variable rateLimitDelay : Z.
Variable maxConcurrentRequests : nat.
Variable clock : nat -> Z.
Variable postThrows : Queued -> option string.

Local Abbreviation initial := (WorkerPool.initial workerCount).
Local Abbreviation dispatch := (WorkerPool.dispatch clock postThrows).
Local Abbreviation drain :=
  (WorkerPool.drain rateLimitDelay maxConcurrentRequests clock postThrows).
Local Abbreviation processQueue :=
  (WorkerPool.processQueue rateLimitDelay maxConcurrentRequests clock postThrows).
Local Abbreviation wake :=
  (WorkerPool.wake rateLimitDelay maxConcurrentRequests clock postThrows).
Local Abbreviation addTask :=
  (WorkerPool.addTask rateLimitDelay maxConcurrentRequests clock postThrows).
Local Abbreviation handleWorkerResult :=
  (WorkerPool.handleWorkerResult rateLimitDelay maxConcurrentRequests clock postThrows).
Local Abbreviation step :=
  (WorkerPool.step rateLimitDelay maxConcurrentRequests clock postThrows).
Local Abbreviation run :=
  (WorkerPool.run rateLimitDelay maxConcurrentRequests clock postThrows).
Local Abbreviation accounted := (PoolLedger.accounted maxConcurrentRequests).

(** *** The bookkeeping *)

(** The bookkeeping only reads the queue, the active tasks, the
    counter, the number of promises and the postings and settlements
    among the effects. *)
Lemma accounted_ext p p' :
  requestCount p' = requestCount p ->
  taskQueue p' = taskQueue p ->
  activeTasks p' = activeTasks p ->
  promises p' = promises p ->
  postings (effects p') = postings (effects p) ->
  settlements (effects p') = settlements (effects p) ->
  accounted p -> accounted p'.
Proof.
  unfold PoolLedger.accounted, queued, posted, settled.
  intros -> -> -> -> -> ->. done.
Qed.

Lemma finish_accounted p : accounted p -> accounted (finish p).
Proof.
  intros Hp. unfold finish. simpl.
  destruct (taskQueue p); [| destruct (isShuttingDown p)];
    (eapply accounted_ext; [.. | exact Hp]; simpl;
     rewrite ?postings_snoc, ?settlements_snoc, ?app_nil_r; done).
Qed.

Lemma dispatch_accounted position workerId task rest p :
  accounted p ->
  taskQueue p = task :: rest ->
  activeTasks p !! position = None ->
  (requestCount p < maxConcurrentRequests)%nat ->
  accounted (dispatch position workerId task rest p).
Proof.
  intros (Hc & Hnd & Hs & Hall & Hq & Ha) Hqueue Hfree Hlt.
  unfold PoolLedger.accounted, queued, posted, settled in *.
  rewrite Hqueue in *. simpl in Hnd, Hall, Hq.
  apply NoDup_cons in Hnd as [Hnew Hnd].
  apply not_elem_of_app in Hnew as [Hnq Hnp].
  apply NoDup_app in Hnd as (Hr & Hdis & Hp).
  assert (Hunsettled : q_promise task ∉ settlements (effects p))
    by (apply Hq; left).
  unfold WorkerPool.dispatch, stampRequest. simpl.
  destruct (postThrows task) as [err |]; simpl;
    rewrite ?postings_snoc, ?settlements_snoc, ?app_nil_r, ?map_app; simpl.
  - rewrite delete_insert_id by done.
    split; [lia |]. split; [by apply NoDup_app |].
    split.
    { apply NoDup_app. split; [done |]. split; [| apply NoDup_singleton].
      intros n Hn ->%list_elem_of_singleton. done. }
    split.
    { intros n. rewrite Hall, elem_of_cons, !elem_of_app, list_elem_of_singleton. tauto. }
    split.
    + intros n Hn. apply not_elem_of_app. split; [apply Hq; by right |].
      intros ->%list_elem_of_singleton. done.
    + intros k t Hk. destruct (Ha k t Hk) as (Hp' & Hns & Hinj).
      split; [done |]. split; [| done].
      apply not_elem_of_app. split; [done |].
      intros Heq%list_elem_of_singleton. rewrite Heq in Hp'. done.
  - split; [lia |].
    split.
    { apply NoDup_app. split; [done |]. split.
      - intros n Hn. apply not_elem_of_app. split; [by apply Hdis |].
        intros ->%list_elem_of_singleton. done.
      - apply NoDup_app. split; [done |]. split; [| apply NoDup_singleton].
        intros n Hn ->%list_elem_of_singleton. done. }
    split; [done |].
    split.
    { intros n. rewrite Hall, elem_of_cons, !elem_of_app, list_elem_of_singleton. tauto. }
    split; [intros n Hn; apply Hq; by right |].
    intros k t. destruct (decide (k = position)) as [-> | Hne].
    + rewrite lookup_insert_eq. intros [= <-].
      split; [apply elem_of_app; right; by apply list_elem_of_singleton |].
      split; [done |].
      intros k' t'. destruct (decide (k' = position)) as [-> | Hne']; [done |].
      rewrite lookup_insert_ne by done. intros Hk' Heq.
      destruct (Ha k' t' Hk') as (Hp' & _). rewrite Heq in Hp'. done.
    + rewrite lookup_insert_ne by done. intros Hk.
      destruct (Ha k t Hk) as (Hp' & Hns & Hinj).
      split; [apply elem_of_app; by left |]. split; [done |].
      intros k' t'. destruct (decide (k' = position)) as [-> | Hne'].
      * rewrite lookup_insert_eq. intros [= <-] Heq. rewrite <- Heq in Hp'. done.
      * rewrite lookup_insert_ne by done. apply Hinj.
Qed.

Lemma drain_accounted queue :
  forall p, taskQueue p = queue -> accounted p -> accounted (drain queue p).
Proof.
  induction queue as [| task rest IH]; intros p Hqueue Hp; simpl.
  - apply finish_accounted. eapply accounted_ext; [.. | exact Hp]; done.
  - assert (Hsame : forall q, taskQueue q = taskQueue p -> requestCount q = requestCount p ->
                              activeTasks q = activeTasks p -> promises q = promises p ->
                              effects q = effects p -> accounted q).
    { intros q H1 H2 H3 H4 H5. eapply accounted_ext; [.. | exact Hp]; by rewrite ?H5. }
    destruct (isShuttingDown p).
    { apply finish_accounted, Hsame; simpl; congruence. }
    destruct (maxConcurrentRequests <=? requestCount p)%nat eqn:Hfull.
    { apply finish_accounted, Hsame; simpl; congruence. }
    apply Nat.leb_gt in Hfull.
    destruct ((0 <? requestCount p)%nat && _).
    { eapply accounted_ext; [.. | exact Hp]; simpl;
        rewrite ?postings_snoc, ?settlements_snoc, ?app_nil_r; congruence. }
    destruct (findFree _ _ _) as [[position workerId] |] eqn:Hfree.
    2:{ apply finish_accounted, Hsame; simpl; congruence. }
    apply findFree_spec in Hfree as (Hfree & _). simpl in Hfree.
    apply IH.
    + unfold WorkerPool.dispatch, stampRequest. simpl.
      by destruct (postThrows task).
    + apply dispatch_accounted;
        [apply Hsame; simpl; congruence | simpl; congruence | exact Hfree | simpl; lia].
Qed.

Lemma processQueue_accounted p : accounted p -> accounted (processQueue p).
Proof.
  intros Hp. unfold WorkerPool.processQueue. destruct (_ || _); [done |].
  apply drain_accounted; [done |]. eapply accounted_ext; [.. | exact Hp]; done.
Qed.

Lemma wake_accounted p : accounted p -> accounted (wake p).
Proof.
  intros Hp. unfold WorkerPool.wake. destruct (isProcessing p); [| done].
  by apply drain_accounted.
Qed.

(** A new task joins the queue, at whatever place. *)
Lemma enqueue_accounted task queue p :
  q_promise task = promises p ->
  queue ≡ₚ taskQueue p ++ [task] ->
  accounted p ->
  accounted (set_taskQueue queue (set_promises (S (promises p)) p)).
Proof.
  intros Hticket Hperm (Hc & Hnd & Hs & Hall & Hq & Ha).
  unfold PoolLedger.accounted, queued, posted, settled in *. simpl.
  assert (Hfresh : forall n, n ∈ map q_promise (taskQueue p)
                             \/ n ∈ map (fun x => q_promise x.2) (postings (effects p))
                             \/ n ∈ settlements (effects p) -> n <> promises p).
  { intros n Hn. apply Hall in Hn. lia. }
  assert (Hmem : forall n, n ∈ map q_promise queue
                           <-> n ∈ map q_promise (taskQueue p) \/ n = promises p).
  { intros n. rewrite Hperm, map_app, elem_of_app. simpl.
    by rewrite list_elem_of_singleton, Hticket. }
  split; [done |].
  split.
  { rewrite Hperm, map_app. simpl. rewrite Hticket, <- app_assoc.
    apply NoDup_app in Hnd as (Hr & Hdis & Hp).
    apply NoDup_app. split; [done |]. split.
    - intros n Hn. apply not_elem_of_cons. split; [| by apply Hdis].
      intros ->. by eapply Hfresh; [left |].
    - apply NoDup_cons. split; [| done].
      intros Hin. by eapply Hfresh; [right; left |]. }
  split; [done |].
  split.
  { intros n. rewrite Hmem. specialize (Hall n). split.
    - intros Hn. destruct (decide (n = promises p)) as [-> | Hne]; [by left; right |].
      assert (n < promises p)%nat as Hlt by lia. apply Hall in Hlt. tauto.
    - intros [[Hn | ->] | Hn]; [| lia |]; assert (n < promises p)%nat by (apply Hall; tauto); lia. }
  split.
  { intros n. rewrite Hmem. intros [Hn | ->]; [by apply Hq |].
    intros Hin. by eapply Hfresh; [right; right |]. }
  exact Ha.
Qed.

(** The task under an active key is settled and its key released. *)
Lemma settle_accounted k t e p :
  activeTasks p !! k = Some t ->
  settlements [e] = [q_promise t] ->
  postings [e] = [] ->
  accounted p ->
  accounted (set_activeTasks (delete k (activeTasks p)) (log e p)).
Proof.
  intros Hk Hse Hpe (Hc & Hnd & Hs & Hall & Hq & Ha).
  destruct (Ha k t Hk) as (Hp & Hns & Hinj).
  unfold PoolLedger.accounted, queued, posted, settled in *. simpl.
  assert (Hpost : postings (effects p ++ [e]) = postings (effects p)).
  { unfold postings in *. rewrite flat_map_app, Hpe. apply app_nil_r. }
  assert (Hsett : settlements (effects p ++ [e]) = settlements (effects p) ++ [q_promise t]).
  { unfold settlements in *. by rewrite flat_map_app, Hse. }
  rewrite Hpost, Hsett.
  split; [done |]. split; [done |].
  split.
  { apply NoDup_app. split; [done |]. split; [| apply NoDup_singleton].
    intros n Hn ->%list_elem_of_singleton. done. }
  split.
  { intros n. rewrite Hall, !elem_of_app, list_elem_of_singleton. split; [tauto |].
    intros [? | [? | [? | ->]]]; tauto. }
  split.
  { intros n Hn. apply not_elem_of_app. split; [by apply Hq |].
    intros ->%list_elem_of_singleton.
    apply NoDup_app in Hnd as (_ & Hdis & _). by apply (Hdis (q_promise t)). }
  intros k' t' Hk'. apply lookup_delete_Some in Hk' as [Hne Hk'].
  destruct (Ha k' t' Hk') as (Hp' & Hns' & Hinj').
  split; [done |]. split.
  - apply not_elem_of_app. split; [done |].
    intros Heq%list_elem_of_singleton. apply Hne. symmetry. by apply (Hinj k' t').
  - intros k'' t'' Hk''. apply lookup_delete_Some in Hk'' as [_ Hk'']. by apply Hinj'.
Qed.

Lemma addTask_accounted task p : accounted p -> accounted (addTask task p).
Proof.
  intros Hp. unfold WorkerPool.addTask. destruct (isShuttingDown p).
  - destruct Hp as (Hc & Hnd & Hs & Hall & Hq & Ha).
    unfold PoolLedger.accounted, queued, posted, settled in *. simpl.
    rewrite postings_snoc, settlements_snoc, app_nil_r.
    assert (Hfresh : promises p ∉ settlements (effects p)).
    { intros Hin. assert (promises p < promises p)%nat by (apply Hall; tauto). lia. }
    split; [done |]. split; [done |].
    split.
    { apply NoDup_app. split; [done |]. split; [| apply NoDup_singleton].
      intros n Hn ->%list_elem_of_singleton. done. }
    split.
    { intros n. rewrite elem_of_app, list_elem_of_singleton. specialize (Hall n). split.
      - intros Hn. destruct (decide (n = promises p)) as [-> | Hne]; [tauto |].
        assert (n < promises p)%nat as Hlt by lia. apply Hall in Hlt. tauto.
      - intros [Hn | [Hn | [Hn | ->]]]; [| | | lia];
          assert (n < promises p)%nat by (apply Hall; tauto); lia. }
    split.
    { intros n Hn. apply not_elem_of_app. split; [by apply Hq |].
      intros ->%list_elem_of_singleton.
      assert (promises p < promises p)%nat by (apply Hall; tauto). lia. }
    intros k t Hk. destruct (Ha k t Hk) as (Hp' & Hns & Hinj).
    split; [done |]. split; [| done].
    apply not_elem_of_app. split; [done |]. intros Heq%list_elem_of_singleton.
    assert (q_promise t < promises p)%nat by (apply Hall; tauto). lia.
  - cbv zeta. apply processQueue_accounted.
    set (queued := {| q_id := _; q_type := _; q_data := _; q_priority := _;
                      q_promise := promises p |}).
    set (p0 := set_nextTaskId _ p).
    assert (H0 : accounted p0) by (eapply accounted_ext; [.. | exact Hp]; done).
    apply (enqueue_accounted queued _ p0 eq_refl); [| exact H0].
    destruct (has_priority _); [apply sortQueue_perm | done].
Qed.

Lemma handleWorkerResult_accounted r p : accounted p -> accounted (handleWorkerResult r p).
Proof.
  intros Hp. unfold WorkerPool.handleWorkerResult. cbv zeta.
  apply processQueue_accounted.
  set (p1 := stampRequest clock _).
  assert (H1 : accounted p1).
  { destruct Hp as (Hc & Hrest). split; [simpl; lia | exact Hrest]. }
  eapply accounted_ext with (p := match activeTasks p1 !! wr_workerId r with
                                  | Some task => _
                                  | None => p1
                                  end); [done .. |].
  destruct (activeTasks p1 !! wr_workerId r) as [task |] eqn:Hk; [| exact H1].
  destruct (match wr_taskId r with Some _ => _ | None => _ end); [| exact H1].
  apply (settle_accounted _ task); [exact Hk | by destruct (wr_success r) ..| exact H1].
Qed.

Lemma handleExit_accounted index code p :
  accounted p -> accounted (handleExit index code p).
Proof.
  intros Hp. unfold handleExit. destruct (isShuttingDown p); [done |].
  destruct (code =? 0)%Z; [done |]. cbv zeta.
  eapply accounted_ext with (p := match activeTasks p !! index with
                                  | Some task => _
                                  | None => p
                                  end); [done .. |].
  destruct (activeTasks p !! index) as [task |] eqn:Hk; [| exact Hp].
  by apply (settle_accounted _ task).
Qed.

Lemma step_accounted e p : accounted p -> accounted (step e p).
Proof.
  intros Hp. destruct e; simpl.
  - by apply addTask_accounted.
  - by apply handleWorkerResult_accounted.
  - by apply wake_accounted.
  - by apply processQueue_accounted.
  - by apply handleExit_accounted.
  - eapply accounted_ext; [.. | exact Hp]; done.
Qed.

Lemma initial_accounted : accounted initial.
Proof.
  unfold PoolLedger.accounted, queued, posted, settled. simpl.
  split; [lia |]. split; [constructor |]. split; [constructor |].
  split.
  { intros n. split; [lia |]. intros [H | [H | H]]; by apply elem_of_nil in H. }
  split; [intros n H; by apply elem_of_nil in H |].
  intros k t Hk. by rewrite lookup_empty in Hk.
Qed.

Lemma run_invariant (P : Pool -> Prop) events p :
  (forall e q, P q -> P (step e q)) -> P p -> P (run events p).
Proof.
  intros Hstep. revert p. induction events as [| e events IH]; intros p Hp; simpl; [done |].
  apply IH, Hstep, Hp.
Qed.

Lemma run_accounted events : accounted (run events initial).
Proof. apply run_invariant; [apply step_accounted | apply initial_accounted]. Qed.

(** *** Tasks in flight *)

Lemma in_flight_refl p p' :
  posted p' = posted p -> requestCount p' = requestCount p -> in_flight_le 0 p p'.
Proof. unfold in_flight_le. intros -> ->. lia. Qed.

Lemma in_flight_trans a b p q r :
  in_flight_le a p q -> in_flight_le b q r -> in_flight_le (a + b) p r.
Proof. unfold in_flight_le. lia. Qed.

Lemma posted_log e p :
  posted (log e p)
  = posted p ++ match e with Posted _ _ task => [q_promise task] | _ => [] end.
Proof.
  unfold posted. simpl. rewrite postings_snoc, map_app. by destruct e.
Qed.

Lemma finish_in_flight p : in_flight_le 0 p (finish p).
Proof.
  apply in_flight_refl; unfold finish; simpl;
    destruct (taskQueue p); try destruct (isShuttingDown p); try done;
    by rewrite posted_log, app_nil_r.
Qed.

Lemma dispatch_in_flight position workerId task rest p :
  in_flight_le 0 p (dispatch position workerId task rest p).
Proof.
  unfold in_flight_le, WorkerPool.dispatch, stampRequest. simpl.
  destruct (postThrows task); unfold posted; simpl;
    rewrite postings_snoc, map_app, length_app; simpl; lia.
Qed.

Lemma drain_in_flight queue : forall p, in_flight_le 0 p (drain queue p).
Proof.
  induction queue as [| task rest IH]; intros p; simpl.
  - apply (in_flight_trans 0 0 p (set_taskQueue [] p)); [by apply in_flight_refl |].
    apply finish_in_flight.
  - assert (Hfin : forall q, posted q = posted p -> requestCount q = requestCount p ->
                             in_flight_le 0 p (finish q)).
    { intros q H1 H2. apply (in_flight_trans 0 0 p q); [by apply in_flight_refl |].
      apply finish_in_flight. }
    destruct (isShuttingDown p); [by apply Hfin |].
    destruct (maxConcurrentRequests <=? requestCount p)%nat; [by apply Hfin |].
    destruct ((0 <? requestCount p)%nat && _).
    { apply in_flight_refl; [| done]. by rewrite posted_log, app_nil_r. }
    destruct (findFree _ _ _) as [[position workerId] |]; [| by apply Hfin].
    eapply (in_flight_trans 0 0); [| apply IH].
    eapply (in_flight_trans 0 0); [| apply dispatch_in_flight].
    by apply in_flight_refl.
Qed.

Lemma processQueue_in_flight p : in_flight_le 0 p (processQueue p).
Proof.
  unfold WorkerPool.processQueue. destruct (_ || _); [by apply in_flight_refl |].
  eapply (in_flight_trans 0 0); [| apply drain_in_flight]. by apply in_flight_refl.
Qed.

Lemma step_in_flight e p :
  in_flight_le (if is_message e then 1 else 0) p (step e p).
Proof.
  destruct e; simpl.
  - unfold WorkerPool.addTask. destruct (isShuttingDown p).
    + apply in_flight_refl; [| done]. by rewrite posted_log, app_nil_r.
    + cbv zeta. eapply (in_flight_trans 0 0); [| apply processQueue_in_flight].
      by apply in_flight_refl.
  - unfold WorkerPool.handleWorkerResult. cbv zeta.
    eapply (in_flight_trans 1 0); [| apply processQueue_in_flight].
    unfold in_flight_le, posted. simpl.
    destruct (activeTasks p !! wr_workerId r) as [task |]; simpl; [| lia].
    destruct (match wr_taskId r with Some _ => _ | None => _ end); simpl; [| lia].
    rewrite postings_snoc.
    destruct (wr_success r); rewrite app_nil_r; lia.
  - unfold WorkerPool.wake. destruct (isProcessing p); [| by apply in_flight_refl].
    apply drain_in_flight.
  - apply processQueue_in_flight.
  - unfold handleExit. destruct (isShuttingDown p); [by apply in_flight_refl |].
    destruct (code =? 0)%Z; [by apply in_flight_refl |]. cbv zeta.
    apply in_flight_refl; simpl; destruct (activeTasks p !! index); try done.
    unfold posted. simpl. by rewrite postings_snoc, app_nil_r.
  - by apply in_flight_refl.
Qed.

Lemma run_in_flight events :
  forall p, in_flight_le (length (List.filter is_message events)) p (run events p).
Proof.
  induction events as [| e events IH]; intros p; simpl.
  - by apply in_flight_refl.
  - pose proof (step_in_flight e p) as H1. pose proof (IH (step e p)) as H2.
    unfold in_flight_le in *. destruct (is_message e); simpl; lia.
Qed.

(** X18: whatever happens to the pool, its request counter stays
    within [maxConcurrentRequests], and the tasks it has posted to
    workers never outnumber the results it has received by more than
    the counter: at most [maxConcurrentRequests] tasks are in flight. *)
Theorem pool_keeps_within_concurrency_limit (events : list Event) :
  let p := run events initial in
  (requestCount p <= maxConcurrentRequests)%nat /\
  (length (posted p) <= requestCount p + length (List.filter is_message events))%nat /\
  (length (posted p) <= maxConcurrentRequests + length (List.filter is_message events))%nat.
Proof.
  cbv zeta.
  assert (Hc : (requestCount (run events initial) <= maxConcurrentRequests)%nat)
    by apply (run_accounted events).
  assert (Hf : (length (posted (run events initial))
                <= requestCount (run events initial)
                   + length (List.filter is_message events))%nat).
  { pose proof (run_in_flight events initial) as H. unfold in_flight_le in H.
    unfold posted in *. simpl in H. lia. }
  split; [exact Hc |]. split; [exact Hf | lia].
Qed.

(** X19: no task is lost and none is handed out twice. Every promise
    [addTask] has returned belongs to a task that is still queued, or
    was posted to a worker, or is settled; a queued task is neither
    posted nor settled; no task is posted twice and no promise is
    settled twice. *)
Theorem pool_loses_and_repeats_no_task (events : list Event) :
  let p := run events initial in
  (forall n, (n < promises p)%nat <-> n ∈ queued p \/ n ∈ posted p \/ n ∈ settled p) /\
  (forall n, n ∈ queued p -> (n ∉ posted p) /\ (n ∉ settled p)) /\
  NoDup (queued p) /\
  NoDup (posted p) /\
  NoDup (settled p).
Proof.
  cbv zeta. destruct (run_accounted events) as (_ & Hnd & Hs & Hall & Hq & _).
  apply NoDup_app in Hnd as (Hr & Hdis & Hp).
  split; [exact Hall |]. split; [| done].
  intros n Hn. split; [by apply Hdis | by apply Hq].
Qed.

(** *** The order of the queue *)



Lemma dispatch_queue position workerId task rest p :
  taskQueue (dispatch position workerId task rest p) = rest /\
  promises (dispatch position workerId task rest p) = promises p.
Proof.
  unfold WorkerPool.dispatch, stampRequest. simpl. by destruct (postThrows task).
Qed.







(** *** Tasks posted past the original workers *)

Lemma held_ext p p' :
  workers p' = workers p ->
  activeTasks p' = activeTasks p ->
  (forall position workerId task,
      Posted position workerId task ∈ effects p' ->
      Posted position workerId task ∈ effects p) ->
  held workerCount p -> held workerCount p'.
Proof.
  unfold held. intros -> -> Hsub [Hw Hp]. split; [exact Hw |].
  intros position workerId task Hin. apply Hp, Hsub, Hin.
Qed.

Lemma posted_log_other e es position workerId task :
  (forall a b c, e <> Posted a b c) ->
  Posted position workerId task ∈ es ++ [e] -> Posted position workerId task ∈ es.
Proof.
  intros He Hin. apply elem_of_app in Hin as [Hin | Hin]; [done |].
  apply list_elem_of_singleton in Hin. by destruct (He position workerId task).
Qed.

Lemma finish_held p : held workerCount p -> held workerCount (finish p).
Proof.
  intros Hp. unfold finish. simpl.
  destruct (taskQueue p); [| destruct (isShuttingDown p)];
    (eapply held_ext; [.. | exact Hp]; simpl; try done).
  intros position workerId task. by apply posted_log_other.
Qed.

Lemma dispatch_held position workerId task rest p :
  held workerCount p ->
  activeTasks p !! position = None ->
  (workerId < workerCount)%nat ->
  held workerCount (dispatch position workerId task rest p).
Proof.
  intros [Hw Hp] Hfree Hid. unfold held, WorkerPool.dispatch, stampRequest. simpl.
  destruct (postThrows task) as [err |]; simpl.
  - rewrite delete_insert_id by done. split; [exact Hw |].
    intros position' workerId' task' Hin. apply Hp.
    by apply posted_log_other in Hin.
  - split; [exact Hw |].
    intros position' workerId' task' Hin. apply elem_of_app in Hin as [Hin | Hin].
    + destruct (Hp _ _ _ Hin) as [Hlt Hact]. split; [exact Hlt |].
      intros Hle. specialize (Hact Hle).
      rewrite lookup_insert_ne; [exact Hact | congruence].
    + apply list_elem_of_singleton in Hin. injection Hin as -> -> ->.
      split; [exact Hid |]. intros _. apply lookup_insert_eq.
Qed.

Lemma findFree_worker p position workerId :
  held workerCount p ->
  findFree (activeTasks p) (workers p) 0 = Some (position, workerId) ->
  activeTasks p !! position = None /\ (workerId < workerCount)%nat.
Proof.
  intros [Hw _] Hfree. apply findFree_spec in Hfree as (Hnone & _ & Hlook).
  split; [exact Hnone |].
  rewrite Forall_forall in Hw. apply (Hw (Some workerId)); [| done].
  by eapply list_elem_of_lookup_2.
Qed.

Lemma drain_held queue :
  forall p, held workerCount p -> held workerCount (drain queue p).
Proof.
  induction queue as [| task rest IH]; intros p Hp; simpl.
  - apply finish_held. eapply held_ext; [.. | exact Hp]; done.
  - assert (Hsame : forall q, workers q = workers p -> activeTasks q = activeTasks p ->
                              effects q = effects p -> held workerCount q).
    { intros q H1 H2 H3. eapply held_ext; [exact H1 | exact H2 | | exact Hp].
      by rewrite H3. }
    destruct (isShuttingDown p) eqn:Hdown.
    { apply finish_held, Hsame; simpl; congruence. }
    destruct (maxConcurrentRequests <=? requestCount p)%nat.
    { apply finish_held, Hsame; simpl; congruence. }
    destruct ((0 <? requestCount p)%nat && _).
    { eapply held_ext; [.. | exact Hp]; simpl; try done.
      intros position workerId task'. by apply posted_log_other. }
    destruct (findFree _ _ _) as [[position workerId] |] eqn:Hfree.
    2:{ apply finish_held, Hsame; simpl; congruence. }
    simpl in Hfree. destruct (findFree_worker p position workerId Hp Hfree) as [Hnone Hid].
    apply IH. apply dispatch_held; [by apply Hsame | exact Hnone | exact Hid].
Qed.

Lemma processQueue_held p : held workerCount p -> held workerCount (processQueue p).
Proof.
  intros Hp. unfold WorkerPool.processQueue. destruct (_ || _); [done |].
  apply drain_held. eapply held_ext; [.. | exact Hp]; done.
Qed.

(** Releasing a key below [workerCount] leaves the later positions alone. *)
Lemma release_held k e p :
  (k < workerCount)%nat ->
  (forall a b c, e <> Posted a b c) ->
  held workerCount p ->
  held workerCount (set_activeTasks (delete k (activeTasks p)) (log e p)).
Proof.
  intros Hk He [Hw Hp]. split; [exact Hw |]. simpl.
  intros position workerId task Hin. apply posted_log_other in Hin; [| exact He].
  destruct (Hp _ _ _ Hin) as [Hlt Hact]. split; [exact Hlt |].
  intros Hle. rewrite lookup_delete_ne by lia. by apply Hact.
Qed.

Lemma assign_null index (ws : list (option nat)) (P : option nat -> Prop) :
  P None -> Forall P ws -> Forall P (assign index None ws).
Proof.
  intros HN Hws. unfold assign. destruct (index <? length ws)%nat.
  - by apply Forall_insert.
  - apply Forall_app. split; [exact Hws |]. apply Forall_app. split.
    + apply Forall_forall. intros x Hx. apply list_elem_of_In, repeat_spec in Hx. by subst x.
    + by constructor.
Qed.

Lemma step_held e p :
  genuine workerCount e -> held workerCount p -> held workerCount (step e p).
Proof.
  intros He Hp. destruct e; simpl in *.
  - unfold WorkerPool.addTask. destruct (isShuttingDown p).
    + eapply held_ext; [.. | exact Hp]; simpl; try done.
      intros position workerId task'. by apply posted_log_other.
    + cbv zeta. apply processQueue_held. eapply held_ext; [.. | exact Hp]; done.
  - unfold WorkerPool.handleWorkerResult. cbv zeta. apply processQueue_held.
    set (p1 := stampRequest clock _).
    assert (H1 : held workerCount p1) by (eapply held_ext; [.. | exact Hp]; done).
    eapply held_ext with (p := match activeTasks p1 !! wr_workerId r with
                               | Some task => _
                               | None => p1
                               end); [done .. |].
    destruct (activeTasks p1 !! wr_workerId r) as [task |]; [| exact H1].
    destruct (match wr_taskId r with Some _ => _ | None => _ end); [| exact H1].
    apply release_held; [exact He | by destruct (wr_success r) | exact H1].
  - unfold WorkerPool.wake. destruct (isProcessing p); [| done]. by apply drain_held.
  - by apply processQueue_held.
  - unfold handleExit. destruct (isShuttingDown p); [done |].
    destruct (code =? 0)%Z; [done |]. cbv zeta.
    set (p1 := match activeTasks p !! index with Some task => _ | None => p end).
    assert (H1 : held workerCount p1).
    { subst p1. destruct (activeTasks p !! index) as [task |]; [| exact Hp].
      by apply release_held. }
    destruct H1 as [Hw H1]. split; [| exact H1]. simpl.
    apply Forall_app. split.
    + by apply assign_null.
    + constructor; [| constructor]. by intros workerId [= <-].
  - eapply held_ext; [.. | exact Hp]; done.
Qed.

Lemma initial_held : held workerCount initial.
Proof.
  split; simpl.
  - apply Forall_forall. intros w Hw workerId ->.
    apply list_elem_of_fmap in Hw as (i & [= ->] & Hi).
    apply elem_of_seq in Hi. lia.
  - intros position workerId task Hin. by apply elem_of_nil in Hin.
Qed.

Lemma run_held events :
  Forall (genuine workerCount) events ->
  forall p, held workerCount p -> held workerCount (run events p).
Proof.
  induction 1 as [| e events He _ IH]; intros p Hp; simpl; [done |].
  apply IH. by apply step_held.
Qed.

(** X21: after a crash the replacement thread is pushed at the end of
    [workers], at a position past the original ones, while it reports
    its results under the id of the worker it replaces. A task posted
    to such a position is looked for under the wrong key when its
    result arrives: whatever results and exits the workers of the
    pool produce afterwards, it stays under the active key of its
    position and its promise is never settled. *)
Theorem replacement_worker_never_settles_its_task
        (events : list Event) (position workerId : nat) (task : Queued) :
  Forall (genuine workerCount) events ->
  Posted position workerId task ∈ effects (run events initial) ->
  (workerCount <= position)%nat ->
  (workerId < workerCount)%nat /\
  activeTasks (run events initial) !! position = Some task /\
  (q_promise task ∉ settled (run events initial)).
Proof.
  intros Hgen Hin Hle.
  pose proof (run_held events Hgen initial initial_held) as Hheld.
  destruct Hheld as [_ Hheld]. destruct (Hheld _ _ _ Hin) as [Hid Hact].
  specialize (Hact Hle). split; [exact Hid |]. split; [exact Hact |].
  destruct (run_accounted events) as (_ & _ & _ & _ & _ & Ha).
  by destruct (Ha _ _ Hact) as (_ & Hns & _).
Qed.

End WithOptions.


(** A pool of one worker: the worker crashes, the next task goes to its
    replacement at position 1, and the result that comes back under the
    id 0 leaves the task where it is. *)
Lemma replacement_worker_never_settles_its_task_witness :
  let task := {| q_id := "s::page-0"; q_type := "scan"; q_data := None;
                 q_priority := Some 1%Z; q_promise := 0 |} in
  (0 < 1)%nat /\
  activeTasks (PoolRuns.pool 1 PoolRuns.crash_then_scan) !! 1%nat = Some task /\
  (q_promise task ∉ settled (PoolRuns.pool 1 PoolRuns.crash_then_scan)).
Proof.
  apply (replacement_worker_never_settles_its_task
           1 500 10 PoolRuns.slow_clock PoolRuns.never_throws PoolRuns.crash_then_scan 1 0).
  - repeat constructor; simpl; lia.
  - apply list_elem_of_In. vm_compute. tauto.
  - lia.
Defined.

End PoolInvariants.

(** ** A task, its worker and its promise *)
Module TaskRoundTrip.
Import JsString Worker WorkerMessages WorkerPool PoolWorker PoolLedger.

Section WithEnvironment.
Context {engine : JsString.CaseMapping}.
Variable network : list Request -> Request -> Transport.
Variable stamp : nat -> string.
Variable cheerio_load : string -> Dom.
Variable resolveURL : string -> string -> option string.
Variable encodeParams : list (string * string) -> string.
Variable searchParamNames : string -> option (list string).
Variable setSearchParam : string -> string -> string -> string.
Variable unknownId : string.
Variable rateLimitDelay : Z.
Variable maxConcurrentRequests : nat.
Variable clock : nat -> Z.
Variable postThrows : Queued -> option string.

Local Abbreviation onMessage workerId :=
  (WorkerMessages.onMessage network stamp cheerio_load resolveURL encodeParams
                            searchParamNames setSearchParam workerId unknownId).
Local Abbreviation handleWorkerResult :=
  (WorkerPool.handleWorkerResult rateLimitDelay maxConcurrentRequests clock postThrows).
Local Abbreviation processQueue :=
  (WorkerPool.processQueue rateLimitDelay maxConcurrentRequests clock postThrows).
Local Abbreviation drain :=
  (WorkerPool.drain rateLimitDelay maxConcurrentRequests clock postThrows).

(** The reply of a worker names the task it was sent and the worker. *)
Lemma reply_names_task workerId task history n :
  q_id task <> "" ->
  let reply := fst (onMessage workerId (message task) history n) in
  r_taskId reply = Some (q_id task) /\ r_workerId reply = workerId.
Proof.
  intros Hid. cbv zeta. unfold WorkerMessages.onMessage, message. simpl.
  destruct (String.eqb (q_type task) "init"); [done |].
  destruct (scanUrl _) as [u |].
  - destruct (scanPage _ _ _ _ _ _ _ _ _ _) as [scanRes r].
    by destruct (success scanRes).
  - simpl. destruct (String.eqb_spec (q_id task) ""); done.
Qed.

Lemma finish_keeps e p : e ∈ effects p -> e ∈ effects (finish p).
Proof.
  intros He. unfold finish. simpl.
  destruct (taskQueue p); [done |]. destruct (isShuttingDown p); [done |].
  simpl. apply elem_of_app. by left.
Qed.

Lemma drain_keeps e queue : forall p, e ∈ effects p -> e ∈ effects (drain queue p).
Proof.
  induction queue as [| task rest IH]; intros p He; simpl.
  - exact He.
  - destruct (isShuttingDown p); [by apply finish_keeps |].
    destruct (maxConcurrentRequests <=? requestCount p)%nat; [by apply finish_keeps |].
    destruct ((0 <? requestCount p)%nat && _); [simpl; apply elem_of_app; by left |].
    destruct (findFree _ _ _) as [[position workerId] |]; [| by apply finish_keeps].
    apply IH. unfold dispatch, stampRequest. simpl.
    destruct (postThrows task); simpl; apply elem_of_app; by left.
Qed.

Lemma processQueue_keeps e p : e ∈ effects p -> e ∈ effects (processQueue p).
Proof.
  intros He. unfold WorkerPool.processQueue. destruct (_ || _); [done |].
  by apply drain_keeps.
Qed.

Lemma finish_settled p : settled (finish p) = settled p.
Proof.
  unfold finish, settled. simpl.
  destruct (taskQueue p); [done |]. destruct (isShuttingDown p); [done |].
  simpl. by rewrite PoolInvariants.settlements_snoc, app_nil_r.
Qed.

(** The loop settles no promise but those of queued tasks whose
    message could not be posted. *)
Lemma drain_settles queue :
  forall p promise,
    promise ∈ settled (drain queue p) ->
    promise ∈ settled p \/ exists failed, failed ∈ queue /\ q_promise failed = promise.
Proof.
  induction queue as [| task rest IH]; intros p promise; simpl.
  - by left.
  - destruct (isShuttingDown p); [rewrite finish_settled; by left |].
    destruct (maxConcurrentRequests <=? requestCount p)%nat;
      [rewrite finish_settled; by left |].
    destruct ((0 <? requestCount p)%nat && _).
    { unfold settled. simpl. rewrite PoolInvariants.settlements_snoc, app_nil_r. by left. }
    destruct (findFree _ _ _) as [[position workerId] |];
      [| rewrite finish_settled; by left].
    intros Hin. apply IH in Hin as [Hin | (failed & Hf & Heq)].
    + unfold settled, dispatch, stampRequest in Hin. simpl in Hin.
      destruct (postThrows task); simpl in Hin;
        rewrite PoolInvariants.settlements_snoc in Hin.
      * apply elem_of_app in Hin as [Hin | Hin]; [by left |].
        apply list_elem_of_singleton in Hin. right. exists task. split; [by left | done].
      * rewrite app_nil_r in Hin. by left.
    + right. exists failed. split; [by right | done].
Qed.

Lemma processQueue_settles p promise :
  promise ∈ settled (processQueue p) ->
  promise ∈ settled p \/ exists failed, failed ∈ taskQueue p /\ q_promise failed = promise.
Proof.
  unfold WorkerPool.processQueue. destruct (_ || _); [by left |].
  intros Hin. by apply drain_settles in Hin.
Qed.

(** A result that matches the task under the key of its worker. *)
Lemma handle_matching r p task :
  activeTasks p !! wr_workerId r = Some task ->
  wr_taskId r = Some (q_id task) ->
  handleWorkerResult r p
  = processQueue
      (set_stats
         (Progress.handleWorkerResult (q_id task) (wr_data r) (stats p))
         (set_activeTasks
            (delete (wr_workerId r) (activeTasks p))
            (log (if wr_success r then Resolved (q_promise task)
                  else Rejected (q_promise task)
                                (or_else (wr_error r) "Worker returned failure"))
                 (stampRequest clock (set_requestCount (Nat.pred (requestCount p)) p))))).
Proof.
  intros Hact Htask. unfold WorkerPool.handleWorkerResult. cbv zeta.
  change (activeTasks (stampRequest clock (set_requestCount (Nat.pred (requestCount p)) p)))
    with (activeTasks p).
  by rewrite Hact, Htask, String.eqb_refl.
Qed.

(** X22: the answer of a worker settles the task it was sent. When
    the pool holds a task under the key of an original worker and
    receives the reply that worker's handler gives to the message of
    the task, it resolves the promise of the task if the reply
    reports success and rejects it otherwise, with the error of the
    reply as reason; the promise of no other task is touched by the
    reply. *)
Theorem worker_answer_settles_its_task
        (p : Pool) (workerId : nat) (task : Queued) (history : list Request) (n : nat) :
  activeTasks p !! workerId = Some task ->
  q_id task <> "" ->
  let reply := fst (onMessage workerId (message task) history n) in
  let p' := handleWorkerResult (received reply) p in
  (if r_success reply
   then Resolved (q_promise task)
   else Rejected (q_promise task) (or_else (r_error reply) "Worker returned failure"))
    ∈ effects p' /\
  (forall promise,
      promise ∈ settled p' -> promise ∈ settled p \/ promise = q_promise task
                              \/ exists failed, failed ∈ taskQueue p /\ q_promise failed = promise).
Proof.
  intros Hact Hid. cbv zeta.
  destruct (reply_names_task workerId task history n Hid) as [Htask Hworker].
  cbv zeta in Htask, Hworker.
  set (reply := fst (onMessage workerId (message task) history n)) in *.
  rewrite (handle_matching (received reply) p task); [| by rewrite <- Hworker in Hact | done].
  split.
  - apply processQueue_keeps. simpl. apply elem_of_app. right.
    apply list_elem_of_singleton. reflexivity.
  - intros promise Hin.
    match type of Hin with
    | _ ∈ settled (processQueue ?q) =>
        destruct (processQueue_settles q promise Hin) as [Hq | Hq]
    end.
    + unfold settled in Hq. simpl in Hq. rewrite PoolInvariants.settlements_snoc in Hq.
      apply elem_of_app in Hq as [Hq | Hq]; [by left |].
      right. left. destruct (r_success reply); by apply list_elem_of_singleton in Hq.
    + right. right. simpl in Hq. exact Hq.
Qed.

End WithEnvironment.

(* The examples are ASCII text. *)
#[local] Existing Instance Examples.ascii_case.

(** The task of the page "http://t/save" of the example target, held by
    the only worker of the pool: the worker scans the page and answers. *)
Lemma worker_answer_settles_its_task_witness :
  let task := {| q_id := "s::page-0"; q_type := "scan";
                 q_data := Some {| td_url := Some "http://t/save" |};
                 q_priority := Some 1%Z; q_promise := 0 |} in
  let reply :=
    fst (WorkerMessages.onMessage
           Examples.demo_network Examples.demo_stamp Examples.demo_cheerio
           Examples.demo_resolve Examples.demo_encode Examples.demo_params
           Examples.demo_setParam 0 "unknown-0" (message task) [] 0) in
  let p' := WorkerPool.handleWorkerResult 500 10 PoolRuns.slow_clock PoolRuns.never_throws
                                          (received reply) PageTask.busy in
  (if r_success reply
   then Resolved (q_promise task)
   else Rejected (q_promise task) (or_else (r_error reply) "Worker returned failure"))
    ∈ effects p' /\
  (forall promise,
      promise ∈ settled p' ->
      promise ∈ settled PageTask.busy \/ promise = q_promise task
      \/ exists failed, failed ∈ taskQueue PageTask.busy /\ q_promise failed = promise).
Proof.
  apply (worker_answer_settles_its_task
           Examples.demo_network Examples.demo_stamp Examples.demo_cheerio
           Examples.demo_resolve Examples.demo_encode Examples.demo_params
           Examples.demo_setParam "unknown-0" 500 10 PoolRuns.slow_clock
           PoolRuns.never_throws PageTask.busy 0).
  - vm_compute. reflexivity.
  - discriminate.
Defined.

End TaskRoundTrip.

(** ** The worker pool: first in first out, one post per turn, shutdown *)
Module PoolDiscipline.
Import JsString WorkerPool PoolLedger.

Section WithOptions.
Variable workerCount : nat.
Variable rateLimitDelay : Z.
Variable maxConcurrentRequests : nat.
Variable clock : nat -> Z.
Variable postThrows : Queued -> option string.

Local Abbreviation initial := (WorkerPool.initial workerCount).
Local Abbreviation dispatch := (WorkerPool.dispatch clock postThrows).
Local Abbreviation drain :=
  (WorkerPool.drain rateLimitDelay maxConcurrentRequests clock postThrows).
Local Abbreviation processQueue :=
  (WorkerPool.processQueue rateLimitDelay maxConcurrentRequests clock postThrows).
Local Abbreviation wake :=
  (WorkerPool.wake rateLimitDelay maxConcurrentRequests clock postThrows).
Local Abbreviation addTask :=
  (WorkerPool.addTask rateLimitDelay maxConcurrentRequests clock postThrows).
Local Abbreviation handleWorkerResult :=
  (WorkerPool.handleWorkerResult rateLimitDelay maxConcurrentRequests clock postThrows).
Local Abbreviation step :=
  (WorkerPool.step rateLimitDelay maxConcurrentRequests clock postThrows).
Local Abbreviation run :=
  (WorkerPool.run rateLimitDelay maxConcurrentRequests clock postThrows).

(** *** First in, first out *)

Lemma postedTasks_log e p :
  postedTasks (log e p)
  = postedTasks p ++ match e with Posted _ _ task => [task] | _ => [] end.
Proof.
  unfold postedTasks. simpl. rewrite PoolInvariants.postings_snoc, map_app. by destruct e.
Qed.

Lemma lined_up_ext p p' :
  taskQueue p' = taskQueue p ->
  postedTasks p' = postedTasks p ->
  (promises p <= promises p')%nat ->
  lined_up p -> lined_up p'.
Proof.
  unfold lined_up. intros -> -> Hle (Hq & Hp & Hpq & Hb).
  split; [done |]. split; [done |]. split; [done |].
  intros t Ht. specialize (Hb t Ht). lia.
Qed.

(** The sort is stable: it keeps tasks of equal rank in their order. *)
Lemma insert_fifo t l :
  StronglySorted fifo l -> Forall (fifo t) l -> StronglySorted fifo (insert t l).
Proof.
  induction 1 as [| y l Hl IH Hy]; intros Ht; simpl; [repeat constructor |].
  apply Forall_cons in Ht as [Hty Ht].
  destruct (rank y <=? rank t)%Z eqn:Hle.
  - constructor; [by constructor |]. by constructor.
  - apply Z.leb_gt in Hle. constructor; [by apply IH |].
    rewrite Forall_forall in Hy |- *. intros z Hz.
    apply list_elem_of_In, PoolInvariants.insert_In in Hz as [-> | Hz].
    + unfold fifo. lia.
    + apply Hy. by apply list_elem_of_In.
Qed.

Lemma sortQueue_fifo l : StronglySorted fifo l -> StronglySorted fifo (sortQueue l).
Proof.
  induction 1 as [| y l Hl IH Hy]; simpl; [constructor |].
  apply insert_fifo; [exact IH |].
  rewrite Forall_forall in Hy |- *. intros z Hz. apply Hy.
  apply list_elem_of_In. apply list_elem_of_In in Hz.
  by apply (Permutation_in _ (PoolInvariants.sortQueue_perm l)).
Qed.

Lemma finish_lined_up p : lined_up p -> lined_up (finish p).
Proof.
  intros Hp. unfold finish. simpl.
  destruct (taskQueue p) eqn:Hq; [| destruct (isShuttingDown p)];
    (eapply lined_up_ext; [.. | exact Hp]; simpl; try done).
  by rewrite postedTasks_log, app_nil_r.
Qed.

Lemma dispatch_lined_up position workerId task rest p :
  taskQueue p = task :: rest ->
  lined_up p -> lined_up (dispatch position workerId task rest p).
Proof.
  intros Hqueue (Hq & Hp & Hpq & Hb). rewrite Hqueue in *.
  apply StronglySorted_inv in Hq as [Hrest Hhead].
  unfold lined_up, WorkerPool.dispatch, stampRequest, postedTasks in *. simpl.
  destruct (postThrows task) as [err |]; simpl;
    rewrite PoolInvariants.postings_snoc, ?app_nil_r, ?map_app; simpl.
  - split; [done |]. split; [done |].
    split; [intros t u Ht Hu; apply Hpq; [done | by right] |].
    intros t [Ht | Ht]; apply Hb; [by left | right; by right].
  - split; [done |].
    split.
    { apply ProgressOrder.StronglySorted_snoc; [exact Hp |].
      apply Forall_forall. intros t Ht. apply Hpq; [exact Ht | by left]. }
    split.
    { intros t u Ht Hu. apply elem_of_app in Ht as [Ht | Ht].
      - apply Hpq; [done | by right].
      - apply list_elem_of_singleton in Ht as ->.
        rewrite Forall_forall in Hhead. by apply Hhead. }
    intros t [Ht | Ht].
    + apply elem_of_app in Ht as [Ht | Ht]; [apply Hb; by left |].
      apply list_elem_of_singleton in Ht as ->. apply Hb. right. by left.
    + apply Hb. right. by right.
Qed.

Lemma drain_lined_up queue :
  forall p, taskQueue p = queue -> lined_up p -> lined_up (drain queue p).
Proof.
  induction queue as [| task rest IH]; intros p Hqueue Hp; simpl.
  - apply finish_lined_up. eapply lined_up_ext; [.. | exact Hp]; done.
  - assert (Hsame : forall q, taskQueue q = taskQueue p -> effects q = effects p ->
                              promises q = promises p -> lined_up q).
    { intros q H1 H2 H3. eapply lined_up_ext; [exact H1 | | | exact Hp].
      - unfold postedTasks. by rewrite H2.
      - lia. }
    destruct (isShuttingDown p).
    { apply finish_lined_up, Hsame; simpl; congruence. }
    destruct (maxConcurrentRequests <=? requestCount p)%nat.
    { apply finish_lined_up, Hsame; simpl; congruence. }
    destruct ((0 <? requestCount p)%nat && _).
    { eapply lined_up_ext; [.. | exact Hp]; simpl; try done.
      by rewrite postedTasks_log, app_nil_r. }
    destruct (findFree _ _ _) as [[position workerId] |].
    2:{ apply finish_lined_up, Hsame; simpl; congruence. }
    apply IH; [apply PoolInvariants.dispatch_queue |].
    apply dispatch_lined_up; [simpl; congruence |]. apply Hsame; simpl; congruence.
Qed.

Lemma processQueue_lined_up p : lined_up p -> lined_up (processQueue p).
Proof.
  intros Hp. unfold WorkerPool.processQueue. destruct (_ || _); [done |].
  apply drain_lined_up; [done |]. eapply lined_up_ext; [.. | exact Hp]; done.
Qed.

Lemma step_lined_up e p : lined_up p -> lined_up (step e p).
Proof.
  intros Hp. destruct e; simpl.
  - unfold WorkerPool.addTask. destruct (isShuttingDown p).
    { eapply lined_up_ext; [.. | exact Hp]; simpl; [done | | lia].
      by rewrite postedTasks_log, app_nil_r. }
    cbv zeta. apply processQueue_lined_up.
    set (queued := {| q_id := _; q_type := _; q_data := _; q_priority := _;
                      q_promise := promises p |}).
    destruct Hp as (Hq & Hp & Hpq & Hb).
    assert (Hnew : StronglySorted fifo (taskQueue p ++ [queued])).
    { apply ProgressOrder.StronglySorted_snoc; [exact Hq |].
      apply Forall_forall. intros t Ht _. simpl. apply Hb. by right. }
    assert (Hmem : forall (l : list Queued) u,
               l ≡ₚ taskQueue p ++ [queued] -> u ∈ l -> u ∈ taskQueue p \/ u = queued).
    { intros l u Hl Hu. rewrite Hl in Hu. apply elem_of_app in Hu as [Hu | Hu]; [by left |].
      right. by apply list_elem_of_singleton in Hu. }
    assert (Hperm : (if has_priority (t_priority task)
                     then sortQueue (taskQueue p ++ [queued])
                     else taskQueue p ++ [queued]) ≡ₚ taskQueue p ++ [queued]).
    { destruct (has_priority _); [apply PoolInvariants.sortQueue_perm | done]. }
    unfold lined_up. simpl. change (postedTasks _) with (postedTasks p).
    split; [destruct (has_priority _); [by apply sortQueue_fifo | done] |].
    split; [done |].
    split.
    + intros t u Ht Hu. apply (Hmem _ _ Hperm) in Hu as [Hu | ->]; [by apply Hpq |].
      intros _. simpl. apply Hb. by left.
    + intros t [Ht | Ht]; [assert (q_promise t < promises p)%nat by (apply Hb; by left); lia |].
      apply (Hmem _ _ Hperm) in Ht as [Ht | ->]; [| simpl; lia].
      assert (q_promise t < promises p)%nat by (apply Hb; by right). lia.
  - unfold WorkerPool.handleWorkerResult. cbv zeta. apply processQueue_lined_up.
    eapply lined_up_ext; [.. | exact Hp]; simpl.
    + destruct (activeTasks p !! wr_workerId r); [| done].
      by destruct (match wr_taskId r with Some _ => _ | None => _ end).
    + unfold postedTasks. simpl.
      destruct (activeTasks p !! wr_workerId r); [| done].
      destruct (match wr_taskId r with Some _ => _ | None => _ end); [| done].
      simpl. rewrite PoolInvariants.postings_snoc.
      destruct (wr_success r); by rewrite app_nil_r.
    + destruct (activeTasks p !! wr_workerId r); [| done].
      by destruct (match wr_taskId r with Some _ => _ | None => _ end).
  - unfold WorkerPool.wake. destruct (isProcessing p); [| done].
    by apply drain_lined_up.
  - by apply processQueue_lined_up.
  - unfold handleExit. destruct (isShuttingDown p); [done |].
    destruct (code =? 0)%Z; [done |]. cbv zeta.
    eapply lined_up_ext; [.. | exact Hp]; simpl;
      destruct (activeTasks p !! index); try done.
    unfold postedTasks. simpl. by rewrite PoolInvariants.postings_snoc, app_nil_r.
  - eapply lined_up_ext; [.. | exact Hp]; done.
Qed.

(** X23: tasks of equal priority are served first in, first out,
    whatever priorities are in use: of two tasks of equal rank, in the
    queue or among the tasks posted to workers, the one that comes
    first was added first. The pages of a scan, all of priority 1,
    thus reach the workers in the order of the crawl. *)
Theorem equal_priority_is_first_in_first_out (events : list Event) :
  let p := run events initial in
  StronglySorted fifo (postedTasks p) /\
  StronglySorted fifo (taskQueue p) /\
  (forall t u, t ∈ postedTasks p -> u ∈ taskQueue p -> fifo t u).
Proof.
  cbv zeta.
  assert (H : lined_up (run events initial)).
  { apply PoolInvariants.run_invariant; [apply step_lined_up |].
    unfold lined_up, postedTasks. simpl.
    split; [constructor |]. split; [constructor |].
    split; [intros t u Ht; by apply elem_of_nil in Ht |].
    intros t [Ht | Ht]; by apply elem_of_nil in Ht. }
  destruct H as (Hq & Hp & Hpq & _). done.
Qed.

(** *** One post per turn *)

Lemma posted_dispatch position workerId task rest p :
  posted (dispatch position workerId task rest p)
  = posted p ++ match postThrows task with Some _ => [] | None => [q_promise task] end.
Proof.
  unfold posted, WorkerPool.dispatch, stampRequest. simpl.
  destruct (postThrows task); simpl; rewrite PoolInvariants.postings_snoc, map_app; simpl;
    [by rewrite app_nil_r | done].
Qed.

Lemma posted_finish p : posted (finish p) = posted p.
Proof.
  unfold finish, posted. simpl. destruct (taskQueue p); [done |].
  destruct (isShuttingDown p); [done |]. simpl.
  by rewrite PoolInvariants.postings_snoc, app_nil_r.
Qed.

(** After a post the pool is hot. *)
Lemma dispatch_hot position workerId task rest p :
  postThrows task = None -> hot clock (dispatch position workerId task rest p).
Proof.
  intros Hok. unfold hot, WorkerPool.dispatch, stampRequest. rewrite Hok. simpl.
  split; [lia |]. by exists (reads p).
Qed.

(** While two readings of the clock are less than the delay apart, the
    loop posts at most one task before it leaves or suspends, and none
    when the pool is hot. *)
Lemma drain_posts_once queue :
  ticking clock rateLimitDelay ->
  forall p,
    (length (posted (drain queue p)) <= length (posted p) + 1)%nat /\
    (hot clock p -> posted (drain queue p) = posted p).
Proof.
  intros Htick. induction queue as [| task rest IH]; intros p; simpl.
  - change (posted _) with (posted p). split; [lia | done].
  - assert (Hfin : forall q, effects q = effects p ->
                             (length (posted (finish q)) <= length (posted p) + 1)%nat
                             /\ (hot clock p -> posted (finish q) = posted p)).
    { intros q Hq. rewrite posted_finish. unfold posted. rewrite Hq. split; [lia | done]. }
    destruct (isShuttingDown p); [by apply Hfin |].
    destruct (maxConcurrentRequests <=? requestCount p)%nat; [by apply Hfin |].
    destruct ((0 <? requestCount p)%nat && _) eqn:Hwait.
    { unfold posted. simpl. rewrite PoolInvariants.postings_snoc, app_nil_r.
      split; [lia | done]. }
    destruct (findFree _ _ _) as [[position workerId] |]; [| by apply Hfin].
    set (p1 := {| workers := workers p; taskQueue := taskQueue p;
                  activeTasks := activeTasks p; requestCount := requestCount p;
                  lastRequestTime := lastRequestTime p; nextTaskId := nextTaskId p;
                  isProcessing := isProcessing p; isShuttingDown := false;
                  promises := promises p; reads := S (reads p); stats := stats p;
                  effects := effects p |}).
    destruct (IH (dispatch position workerId task rest p1)) as [Hone Hnone].
    rewrite posted_dispatch in Hone, Hnone.
    change (posted p1) with (posted p) in Hone, Hnone.
    split.
    + destruct (postThrows task) eqn:Hpost.
      * rewrite app_nil_r in Hone. exact Hone.
      * rewrite Hnone by (by apply dispatch_hot). rewrite length_app. simpl. lia.
    + intros [Hcount (k & Hreads & Hlast)]. exfalso.
      apply andb_false_iff in Hwait as [Hwait | Hwait].
      * apply Nat.ltb_ge in Hwait. simpl in Hwait. lia.
      * apply Z.ltb_ge in Hwait. simpl in Hwait. rewrite Hreads, Hlast in Hwait.
        specialize (Htick k). lia.
Qed.

Lemma processQueue_posts_once p :
  ticking clock rateLimitDelay ->
  (length (posted (processQueue p)) <= length (posted p) + 1)%nat.
Proof.
  intros Htick. unfold WorkerPool.processQueue. destruct (_ || _); [lia |].
  apply (drain_posts_once (taskQueue p) Htick (set_isProcessing true p)).
Qed.

(** X24: one post per turn. While two consecutive readings of the
    clock are less than [rateLimitDelay] apart, nothing that happens
    to the pool makes it post more than one task: after a post the
    loop finds a request out and the delay not over, and waits. *)
Theorem pool_posts_one_task_per_turn (e : Event) (p : Pool) :
  ticking clock rateLimitDelay ->
  (length (posted (step e p)) <= length (posted p) + 1)%nat.
Proof.
  intros Htick. destruct e; simpl.
  - unfold WorkerPool.addTask. destruct (isShuttingDown p).
    + unfold posted. simpl. rewrite PoolInvariants.postings_snoc, app_nil_r. lia.
    + cbv zeta. etransitivity; [by apply processQueue_posts_once |]. done.
  - unfold WorkerPool.handleWorkerResult. cbv zeta.
    etransitivity; [by apply processQueue_posts_once |].
    unfold posted. simpl.
    destruct (activeTasks p !! wr_workerId r); [| done].
    destruct (match wr_taskId r with Some _ => _ | None => _ end); [| done].
    simpl. rewrite PoolInvariants.postings_snoc.
    destruct (wr_success r); by rewrite app_nil_r.
  - unfold WorkerPool.wake. destruct (isProcessing p); [| lia].
    by apply drain_posts_once.
  - by apply processQueue_posts_once.
  - unfold handleExit. destruct (isShuttingDown p); [lia |].
    destruct (code =? 0)%Z; [lia |]. cbv zeta. unfold posted. simpl.
    destruct (activeTasks p !! index); [| lia].
    simpl. rewrite PoolInvariants.postings_snoc, app_nil_r. lia.
  - unfold posted. simpl. lia.
Qed.

(** *** Shutdown *)

Lemma stopped_step e p :
  isShuttingDown p = true ->
  isShuttingDown (step e p) = true /\
  taskQueue (step e p) = taskQueue p /\
  posted (step e p) = posted p.
Proof.
  intros Hdown.
  assert (Hpq : forall q, isShuttingDown q = true -> processQueue q = q).
  { intros q Hq. unfold WorkerPool.processQueue. rewrite Hq. by rewrite orb_true_r. }
  assert (Hdrain : forall q, isShuttingDown q = true ->
                             isShuttingDown (drain (taskQueue q) q) = true /\
                             taskQueue (drain (taskQueue q) q) = taskQueue q /\
                             posted (drain (taskQueue q) q) = posted q).
  { intros q Hq. destruct (taskQueue q) as [| task rest] eqn:Hqueue; simpl.
    - by rewrite Hq.
    - rewrite Hq. rewrite posted_finish. unfold finish. simpl. rewrite Hq. done. }
  destruct e; simpl.
  - unfold WorkerPool.addTask. rewrite Hdown. simpl. split; [done |]. split; [done |].
    unfold posted. simpl. by rewrite PoolInvariants.postings_snoc, app_nil_r.
  - unfold WorkerPool.handleWorkerResult. cbv zeta. rewrite Hpq.
    + simpl. destruct (activeTasks p !! wr_workerId r); [| done].
      destruct (match wr_taskId r with Some _ => _ | None => _ end); [| done].
      simpl. split; [done |]. split; [done |]. unfold posted. simpl.
      rewrite PoolInvariants.postings_snoc. destruct (wr_success r); by rewrite app_nil_r.
    + simpl. destruct (activeTasks p !! wr_workerId r); [| done].
      by destruct (match wr_taskId r with Some _ => _ | None => _ end).
  - unfold WorkerPool.wake. destruct (isProcessing p); [| done]. by apply Hdrain.
  - by rewrite Hpq.
  - unfold handleExit. by rewrite Hdown.
  - done.
Qed.

Lemma stopped_run events :
  forall p, isShuttingDown p = true ->
            isShuttingDown (run events p) = true /\
            taskQueue (run events p) = taskQueue p /\
            posted (run events p) = posted p.
Proof.
  induction events as [| e events IH]; intros p Hdown; simpl; [done |].
  destruct (stopped_step e p Hdown) as (Hd & Hq & Hp).
  destruct (IH _ Hd) as (Hd' & Hq' & Hp'). rewrite Hq', Hp'. done.
Qed.

(** X25: once [shutdown] has set the flag, nothing is dispatched any
    more: whatever happens afterwards, the queue stays as it was and
    no task is posted; the tasks still queued are abandoned, their
    promises are never settled. *)
Theorem shutdown_abandons_the_queue (earlier later : list Event) :
  let p := run earlier initial in
  let p' := run (Shutdown :: later) p in
  taskQueue p' = taskQueue p /\
  posted p' = posted p /\
  (forall t, t ∈ taskQueue p -> q_promise t ∉ settled p').
Proof.
  cbv zeta. simpl.
  destruct (stopped_run later (set_isShuttingDown true (run earlier initial)) eq_refl)
    as (_ & Hq & Hp).
  split; [exact Hq |]. split; [exact Hp |].
  intros t Ht.
  pose proof (PoolInvariants.run_accounted workerCount rateLimitDelay maxConcurrentRequests
                clock postThrows (earlier ++ Shutdown :: later)) as Hacc.
  unfold WorkerPool.run in Hacc. rewrite fold_left_app in Hacc. simpl in Hacc.
  destruct Hacc as (_ & _ & _ & _ & Hqs & _). apply Hqs.
  unfold queued. unfold WorkerPool.run in Hq. rewrite Hq.
  by apply list_elem_of_fmap_2.
Qed.

End WithOptions.

(** Two workers and a task waiting for the rate limit: the timer fires
    before the delay has passed, so the loop goes back to sleep and the
    turn posts nothing. *)
Lemma pool_posts_one_task_per_turn_witness :
  (length (posted (step 500 10 QuickTurns.fast_clock PoolRuns.never_throws
                        TimerWake QuickTurns.waiting))
   <= length (posted QuickTurns.waiting) + 1)%nat.
Proof.
  apply (pool_posts_one_task_per_turn 500 10 QuickTurns.fast_clock PoolRuns.never_throws).
  intros n. unfold QuickTurns.fast_clock. lia.
Defined.

End PoolDiscipline.
